(** * Experience replay buffers of laser-hockey (base/experience_replay.py)

    A shallow embedding of the replay buffers: the circular transition store
    of [ExperienceReplay], uniform sampling of [UniformExperienceReplay] and
    priority-weighted sampling of [PrioritizedExperienceReplay].

    Conventions of the embedding.
    - A Python method is a function from the object's state to the state it
      leaves behind and either the value returned or the exception raised:
      a mutation made before an exception is raised stays visible.
    - A numpy array of rows is a list of rows.  The one-dimensional empty
      array [np.asarray([])] is the empty list.
    - Python floats are modelled as real numbers ([R]) and their operations
      as the exact ones; rounding, overflow and NaN are outside the model.
      A statement about floats therefore relates what the code's own
      operations return, and leaves aside the laws of exact arithmetic that
      rounding breaks.  Where rounding changes what the code does, the code
      is run on binary64 floats (module [Binary64]).
    - Random draws are read from an explicit entropy source. *)

From Stdlib Require Import Reals Lra Lia ZArith ZifyNat.
From Stdlib Require PrimFloat Uint63.
From stdpp Require Import base list gmap strings.

(** [lia] reasons about [/] and [mod]. *)
Ltac Zify.zify_post_hook ::= Z.to_euclidean_division_equations.

(** ** Exceptions and the state-and-exception monad *)

(** What a call can raise.  The first four are the Python exceptions raised
    by the buffer code and by numpy.  The other five are the error kinds of
    the interface documentation; the segment tree raises three of them. *)
Inductive exn : Set :=
| AssertionError
| IndexError
| ValueError
| ZeroDivisionError
| InvalidCapacity
| IndexOutOfRange
| PrefixOutOfRange
| InvalidPriority
| EmptyBuffer.

Inductive outcome (A : Type) : Type :=
| Return (a : A)
| Raise (e : exn).
Arguments Return {A} a.
Arguments Raise {A} e.

Definition py (S A : Type) : Type := S -> S * outcome A.

Definition raise {S A : Type} (e : exn) : py S A := fun s => (s, Raise e).
Definition get_self {S : Type} : py S S := fun s => (s, Return s).
Definition modify {S : Type} (f : S -> S) : py S unit := fun s => (f s, Return tt).

#[global] Instance py_ret {S : Type} : MRet (py S) :=
  fun A a s => (s, Return a).
#[global] Instance py_bind {S : Type} : MBind (py S) :=
  fun A B k c s =>
    match c s with
    | (s', Return a) => k a s'
    | (s', Raise e) => (s', Raise e)
    end.

(** [for x in xs: body x] *)
Fixpoint for_each {S A : Type} (xs : list A) (body : A -> py S unit) : py S unit :=
  match xs with
  | [] => mret tt
  | x :: xs' => body x ;; for_each xs' body
  end.

(** Pure, fallible computations: a call that only reads the object. *)
Definition obind {A B : Type} (o : outcome A) (k : A -> outcome B) : outcome B :=
  match o with
  | Return a => k a
  | Raise e => Raise e
  end.

#[global] Instance outcome_ret : MRet outcome := fun A a => Return a.
#[global] Instance outcome_bind : MBind outcome := fun A B k o => obind o k.

(** A read-only call made inside a method. *)
Definition lift_outcome {S A : Type} (o : outcome A) : py S A :=
  fun s => (s, o).

(** [assert P] *)
Definition py_assert {S : Type} {P Q : Prop} (d : {P} + {Q}) : py S unit :=
  if d then mret tt else raise AssertionError.

(** ** The transition store: class ExperienceReplay *)

Section Store.
Context {T : Type}.

Record ExperienceReplay : Type := mkExperienceReplay {
  _transitions : list T;
  _current_idx : nat;
  size : nat;
  max_size : nat
}.

(** [__init__(self, max_size)] *)
Definition ExperienceReplay_init (max_size : nat) : ExperienceReplay :=
  {| _transitions := []; _current_idx := 0; size := 0; max_size := max_size |}.

Definition set_transitions (ts : list T) (self : ExperienceReplay) : ExperienceReplay :=
  {| _transitions := ts; _current_idx := _current_idx self;
     size := size self; max_size := max_size self |}.
Definition set_size (n : nat) (self : ExperienceReplay) : ExperienceReplay :=
  {| _transitions := _transitions self; _current_idx := _current_idx self;
     size := n; max_size := max_size self |}.
Definition set_current_idx (i : nat) (self : ExperienceReplay) : ExperienceReplay :=
  {| _transitions := _transitions self; _current_idx := i;
     size := size self; max_size := max_size self |}.

(** [self._transitions[i, :] = row]: numpy raises IndexError when the array
    has no row [i] (the one-dimensional empty array has none). *)
Definition setitem_row (i : nat) (row : T) : py ExperienceReplay unit :=
  fun self =>
    if decide (i < length (_transitions self))
    then (set_transitions (<[i := row]> (_transitions self)) self, Return tt)
    else (self, Raise IndexError).

(** [x % m] on Python ints *)
Definition py_mod {S : Type} (x m : nat) : py S nat :=
  if decide (m = 0) then raise ZeroDivisionError else mret (x mod m).

(** [add_transition(self, transitions_new)] *)
Definition add_transition (transitions_new : T) : py ExperienceReplay unit :=
  self ← get_self;
  (if decide (size self = 0)
   then modify (set_transitions (replicate (max_size self) transitions_new))
   else mret tt);;
  setitem_row (_current_idx self) transitions_new;;
  modify (set_size (min (size self + 1) (max_size self)));;
  i ← py_mod (_current_idx self + 1) (max_size self);
  modify (set_current_idx i).

(** The buffer after the calls [add_transition(x)] for [x] in [xs], in
    order; the outcome is that of the first call that raises. *)
Definition add_all (xs : list T) : py ExperienceReplay unit :=
  for_each xs add_transition.

(** [clone_buffer(new_buffer, maxsize)]: iterating the two-dimensional
    backing array yields every row of it, populated or not. *)
Definition clone_buffer (new_buffer : ExperienceReplay) (maxsize : nat)
  : outcome ExperienceReplay :=
  let old_transitions := _transitions new_buffer in
  match add_all old_transitions (ExperienceReplay_init maxsize) with
  | (buffer, Return _) => Return buffer
  | (_, Raise e) => Raise e
  end.

(** [self._transitions[indices, :]]: two subscripts on the one-dimensional
    empty array raise IndexError whatever the indices are; on the
    two-dimensional array every index must name a row. *)
Fixpoint getitem_each (ts : list T) (indices : list nat) : outcome (list T) :=
  match indices with
  | [] => Return []
  | i :: rest =>
      match ts !! i with
      | Some row => obind (getitem_each ts rest) (fun rows => Return (row :: rows))
      | None => Raise IndexError
      end
  end.

Definition getitem_rows (ts : list T) (indices : list nat) : outcome (list T) :=
  match ts with
  | [] => Raise IndexError
  | _ :: _ => getitem_each ts indices
  end.

End Store.
Arguments ExperienceReplay T : clear implicits.

(** ** numpy's random draws *)

(** [x[i], x[j] = x[j], x[i]] *)
Definition swap (x : list nat) (i j : nat) : list nat :=
  match x !! i, x !! j with
  | Some a, Some b => <[i := b]> (<[j := a]> x)
  | _, _ => x
  end.

(** [RandomState.shuffle]: for [i] from [n-1] down to [1], swap [x[i]] with
    [x[j]] for a random [j] in [[0, i]].  [rng i] is the raw draw made at
    step [i]. *)
Fixpoint shuffle (rng : nat -> nat) (i : nat) (x : list nat) : list nat :=
  match i with
  | 0 => x
  | S i' => shuffle rng i' (swap x i (rng i mod (i + 1)))
  end.

(** [RandomState.permutation(n)]: a shuffled [arange(n)]. *)
Definition permutation (rng : nat -> nat) (n : nat) : list nat :=
  shuffle rng (n - 1) (seq 0 n).

(** [np.random.choice(a, size=size, replace=False)] on an integer [a]: the
    first [size] entries of a random permutation of [range(a)]; ValueError
    when the population is empty and a sample is asked for, or when the
    sample is larger than the population. *)
Definition np_random_choice (rng : nat -> nat) (a size : nat) : outcome (list nat) :=
  if decide (a = 0 /\ size <> 0) then Raise ValueError
  else if decide (a < size) then Raise ValueError
  else Return (take size (permutation rng a)).

(** ** Uniform sampling: class UniformExperienceReplay *)

Section Uniform.
Context {T : Type}.

(** The first two statements of [UniformExperienceReplay.sample]: clamp
    [batch_size], then draw the slot indices. *)
Definition uniform_sample_indices (rng : nat -> nat) (self : ExperienceReplay T)
    (batch_size : nat) : outcome (list nat) :=
  let batch_size :=
    if decide (size self < batch_size) then size self else batch_size in
  np_random_choice rng (size self) batch_size.

(** [UniformExperienceReplay.sample(self, batch_size)]; the buffer is
    only read. *)
Definition uniform_sample (rng : nat -> nat) (self : ExperienceReplay T)
    (batch_size : nat) : outcome (list T) :=
  obind (uniform_sample_indices rng self batch_size) (fun indices =>
  getitem_rows (_transitions self) indices).

End Uniform.

(** ** Float arithmetic *)

(** Python's [x / y] on floats. *)
Definition fdiv (x y : R) : outcome R :=
  if Req_dec_T y 0 then Raise ZeroDivisionError else Return (x / y)%R.

(** Python's [x ** y] on floats.  A negative base with a fractional exponent
    gives a complex number in Python; the buffer raises only non-negative
    numbers to a power, and for a negative base the model is exact at
    [y = 0] only. *)
Definition fpow (x y : R) : outcome R :=
  if Rlt_dec 0 x then Return (Rpower x y)
  else if Req_dec_T x 0 then
    if Req_dec_T y 0 then Return 1%R
    else if Rlt_dec 0 y then Return 0%R
    else Raise ZeroDivisionError
  else Return (Rpower x y).

(** Floats that may be [float('inf')]: the values of the min tree. *)
Inductive ereal : Type :=
| Fin (r : R)
| PInf.

Definition emin (x y : ereal) : ereal :=
  match x, y with
  | Fin a, Fin b => Fin (Rmin a b)
  | Fin a, PInf => Fin a
  | PInf, _ => y
  end.

(** [x / y], [x * n] and [x ** y] when [x] may be [inf], and [x / y] when
    [y] may be; the infinite cases are exact for a positive divisor and a
    positive factor. *)
Definition ediv (x : ereal) (y : R) : outcome ereal :=
  match x with
  | Fin a => obind (fdiv a y) (fun q => Return (Fin q))
  | PInf => if Req_dec_T y 0 then Raise ZeroDivisionError else Return PInf
  end.

Definition emul (x : ereal) (n : nat) : ereal :=
  match x with
  | Fin a => Fin (a * INR n)%R
  | PInf => PInf
  end.

Definition epow (x : ereal) (y : R) : outcome ereal :=
  match x with
  | Fin a => obind (fpow a y) (fun p => Return (Fin p))
  | PInf => if Req_dec_T y 0 then Return (Fin 1)
            else if Rlt_dec y 0 then Return (Fin 0)
            else Return PInf
  end.

Definition fdiv_e (x : R) (y : ereal) : outcome R :=
  match y with
  | Fin b => fdiv x b
  | PInf => Return 0%R
  end.

(** ** The segment tree *)

(** base/segment_tree.py, which defines the classes SumSegmentTree and
    MinSegmentTree that the prioritized buffer imports, is not among the
    sources.  The interface documentation describes both as instances of
    one generic structure, parametrized by the identity and the combine
    operation; this section follows its words. *)
Section SegmentTree.
Context {V : Type} (identity : V) (combine : V -> V -> V).

(** Modelled from the spec: the state of a segment tree (class absent from
    the sources).  A complete binary tree stored as a flat array of
    [2 * capacity] nodes: the root is node [1], the children of node [i]
    are nodes [2i] and [2i + 1], and leaf [i] is node [capacity + i]. *)
Record SegmentTree : Type := mkSegmentTree {
  capacity : nat;
  nodes : list V
}.

(** Modelled from the spec: the value of node [i] of the array (the segment
    tree is absent from the sources). *)
Definition node (t : SegmentTree) (i : nat) : V :=
  default identity (nodes t !! i).

(** Modelled from the spec: the capacity check of the absent constructor,
    "capacity must be a power of two". *)
Definition is_power_of_two (n : nat) : bool :=
  (n =? 2 ^ Nat.log2 n)%nat.

(** Modelled from the spec: [new(capacity, identity, combine)] of the absent
    segment tree.  All leaves start at the identity; InvalidCapacity if the
    capacity is zero or not a power of two. *)
Definition SegmentTree_new (capacity : nat) : outcome SegmentTree :=
  if decide (capacity = 0) then Raise InvalidCapacity
  else if is_power_of_two capacity
  then Return {| capacity := capacity; nodes := replicate (2 * capacity) identity |}
  else Raise InvalidCapacity.

(** Modelled from the spec: the second half of the absent [set], which
    "recomputes every ancestor on the path to the root by recombining its
    two children", bottom-up from node [pos]; [fuel] bounds the number of
    steps. *)
Fixpoint recompute (fuel pos : nat) (ns : list V) : list V :=
  match fuel with
  | 0 => ns
  | S fuel' =>
      if decide (pos = 0) then ns
      else
        let v := combine (default identity (ns !! (2 * pos)))
                         (default identity (ns !! (2 * pos + 1))) in
        recompute fuel' (pos / 2) (<[pos := v]> ns)
  end.

(** Modelled from the spec: [set(index, value)] of the absent segment tree
    ([tree[index] = value] in the callers).  IndexOutOfRange unless
    [index] is in [[0, capacity)]; writes the leaf, then recombines its
    ancestors. *)
Definition SegmentTree_set (index : nat) (value : V) (t : SegmentTree)
  : outcome SegmentTree :=
  if decide (index < capacity t) then
    let pos := capacity t + index in
    Return {| capacity := capacity t;
              nodes := recompute (capacity t) (pos / 2) (<[pos := value]> (nodes t)) |}
  else Raise IndexOutOfRange.

(** Modelled from the spec: [get(index)] of the absent segment tree
    ([tree[index]] in the callers): the current value of the leaf. *)
Definition SegmentTree_get (index : nat) (t : SegmentTree) : outcome V :=
  if decide (index < capacity t) then Return (node t (capacity t + index))
  else Raise IndexOutOfRange.

(** Modelled from the spec: the body of the absent range query,
    "descending from the root while tracking partial results at node
    boundaries".  Node [i] covers the leaves [[node_lo, node_hi]]; a node
    covered exactly contributes its value, otherwise the query is split at
    the node's midpoint. *)
Fixpoint reduce (t : SegmentTree) (fuel lo hi i node_lo node_hi : nat) : V :=
  match fuel with
  | 0 => identity
  | S fuel' =>
      if decide (lo = node_lo /\ hi = node_hi) then node t i
      else
        let mid := (node_lo + node_hi) / 2 in
        if decide (hi <= mid) then reduce t fuel' lo hi (2 * i) node_lo mid
        else if decide (mid + 1 <= lo) then reduce t fuel' lo hi (2 * i + 1) (mid + 1) node_hi
        else combine (reduce t fuel' lo mid (2 * i) node_lo mid)
                     (reduce t fuel' (mid + 1) hi (2 * i + 1) (mid + 1) node_hi)
  end.

(** Modelled from the spec: [range_combine(lo, hi)] of the absent segment
    tree ([sum(lo, hi)] in the callers): the combine of the leaves in
    [[lo, hi]], inclusive.  The combine of no leaf is the identity. *)
Definition range_combine (lo hi : Z) (t : SegmentTree) : outcome V :=
  if decide (hi < lo)%Z then Return identity
  else if decide (0 <= lo /\ hi < Z.of_nat (capacity t))%Z
  then Return (reduce t (S (capacity t)) (Z.to_nat lo) (Z.to_nat hi)
                      1 0 (capacity t - 1))
  else Raise IndexOutOfRange.

(** Modelled from the spec: the whole-tree query of the absent segment
    tree, [sum()] of the sum tree and [min()] of the min tree:
    [range_combine(0, capacity - 1)]. *)
Definition combine_all (t : SegmentTree) : outcome V :=
  range_combine 0 (Z.of_nat (capacity t) - 1) t.

(** Modelled from the spec: the leaves of the absent segment tree, in index
    order. *)
Definition leaves (t : SegmentTree) : list V :=
  take (capacity t) (drop (capacity t) (nodes t)).

End SegmentTree.
Arguments SegmentTree V : clear implicits.

(** Modelled from the spec: the sum tree, absent from the sources, is the
    instance that combines with [+] from the identity 0. *)
Definition SumSegmentTree : Type := SegmentTree R.

(** Modelled from the spec: the min tree, absent from the sources, is the
    instance that combines with [min] from the identity [+inf]. *)
Definition MinSegmentTree : Type := SegmentTree ereal.

(** Modelled from the spec: [SumSegmentTree(capacity)], absent. *)
Definition SumSegmentTree_new := SegmentTree_new (V := R) 0%R.

(** Modelled from the spec: [MinSegmentTree(capacity)], absent. *)
Definition MinSegmentTree_new := SegmentTree_new (V := ereal) PInf.

(** Modelled from the spec: [tree[idx] = v] on the absent sum tree. *)
Definition sum_set := SegmentTree_set (V := R) 0%R Rplus.

(** Modelled from the spec: [tree[idx] = v] on the absent min tree. *)
Definition min_set := SegmentTree_set (V := ereal) PInf emin.

(** Modelled from the spec: [tree[idx]] on the absent sum tree. *)
Definition sum_get := SegmentTree_get (V := R) 0%R.

(** Modelled from the spec: [tree[idx]] on the absent min tree. *)
Definition min_get := SegmentTree_get (V := ereal) PInf.

(** Modelled from the spec: [sum(lo, hi)] of the absent sum tree. *)
Definition sum_range := range_combine (V := R) 0%R Rplus.

(** Modelled from the spec: [sum()] of the absent sum tree. *)
Definition sum_all := combine_all (V := R) 0%R Rplus.

(** Modelled from the spec: [min()] of the absent min tree. *)
Definition min_all := combine_all (V := ereal) PInf emin.

(** Modelled from the spec: the descent of the absent [find_prefix_index].
    At an internal node descend left if [target] is below the left child's
    value, else subtract that value and descend right; stop at a leaf. *)
Fixpoint descend (t : SumSegmentTree) (fuel i : nat) (target : R) : nat :=
  match fuel with
  | 0 => i
  | S fuel' =>
      if decide (i < capacity t) then
        let left := node 0%R t (2 * i) in
        if Rlt_dec target left then descend t fuel' (2 * i) target
        else descend t fuel' (2 * i + 1) (target - left)%R
      else i
  end.

(** Modelled from the spec: [find_prefix_index(target)] of the absent sum
    tree ([find_prefixsum_idx] in the callers): the descent from the root;
    PrefixOutOfRange when [target] is not below the total. *)
Definition find_prefix_index (target : R) (t : SumSegmentTree) : outcome nat :=
  if Rle_dec (node 0%R t 1) target then Raise PrefixOutOfRange
  else Return (descend t (capacity t) 1 target - capacity t).

(** ** Prioritized sampling: class PrioritizedExperienceReplay *)

Section Prioritized.
Context {T : Type}.

(** The fields of the base class are those of [base]. *)
Record PrioritizedExperienceReplay : Type := mkPrioritizedExperienceReplay {
  base : ExperienceReplay T;
  _alpha : R;
  _beta : R;
  _max_priority : R;
  _st_sum : SumSegmentTree;
  _st_min : MinSegmentTree
}.

Definition set_base (b : ExperienceReplay T) (self : PrioritizedExperienceReplay) :=
  {| base := b; _alpha := _alpha self; _beta := _beta self;
     _max_priority := _max_priority self;
     _st_sum := _st_sum self; _st_min := _st_min self |}.
Definition set_beta (beta : R) (self : PrioritizedExperienceReplay) :=
  {| base := base self; _alpha := _alpha self; _beta := beta;
     _max_priority := _max_priority self;
     _st_sum := _st_sum self; _st_min := _st_min self |}.
Definition set_max_priority (p : R) (self : PrioritizedExperienceReplay) :=
  {| base := base self; _alpha := _alpha self; _beta := _beta self;
     _max_priority := p;
     _st_sum := _st_sum self; _st_min := _st_min self |}.
Definition set_st_sum (t : SumSegmentTree) (self : PrioritizedExperienceReplay) :=
  {| base := base self; _alpha := _alpha self; _beta := _beta self;
     _max_priority := _max_priority self;
     _st_sum := t; _st_min := _st_min self |}.
Definition set_st_min (t : MinSegmentTree) (self : PrioritizedExperienceReplay) :=
  {| base := base self; _alpha := _alpha self; _beta := _beta self;
     _max_priority := _max_priority self;
     _st_sum := _st_sum self; _st_min := t |}.

(** [super(PrioritizedExperienceReplay, self).m(...)] *)
Definition super {A : Type} (m : py (ExperienceReplay T) A)
  : py PrioritizedExperienceReplay A :=
  fun self => let '(b, r) := m (base self) in (set_base b self, r).

(** [self._st_sum[idx] = v] and [self._st_min[idx] = v] *)
Definition setitem_sum (idx : nat) (v : R) : py PrioritizedExperienceReplay unit :=
  fun self =>
    match sum_set idx v (_st_sum self) with
    | Return t => (set_st_sum t self, Return tt)
    | Raise e => (self, Raise e)
    end.
Definition setitem_min (idx : nat) (v : R) : py PrioritizedExperienceReplay unit :=
  fun self =>
    match min_set idx (Fin v) (_st_min self) with
    | Return t => (set_st_min t self, Return tt)
    | Raise e => (self, Raise e)
    end.

(** [while st_capacity < max_size: st_capacity *= 2] *)
Fixpoint st_capacity_loop (fuel st_capacity max_size : nat) : nat :=
  match fuel with
  | 0 => st_capacity
  | S fuel' =>
      if decide (st_capacity < max_size)
      then st_capacity_loop fuel' (st_capacity * 2) max_size
      else st_capacity
  end.

(** [__init__(self, max_size, alpha, beta)] *)
Definition PrioritizedExperienceReplay_init (max_size : nat) (alpha beta : R)
  : outcome PrioritizedExperienceReplay :=
  let st_capacity := st_capacity_loop max_size 1 max_size in
  st_sum ← SumSegmentTree_new st_capacity;
  st_min ← MinSegmentTree_new st_capacity;
  mret {| base := ExperienceReplay_init max_size;
          _alpha := alpha; _beta := beta; _max_priority := 1%R;
          _st_sum := st_sum; _st_min := st_min |}.

(** [add_transition(self, transitions_new)] *)
Definition prioritized_add_transition (transitions_new : T)
  : py PrioritizedExperienceReplay unit :=
  self ← get_self;
  let idx := _current_idx (base self) in
  super (add_transition transitions_new);;
  p ← lift_outcome (fpow (_max_priority self) (_alpha self));
  setitem_min idx p;;
  p ← lift_outcome (fpow (_max_priority self) (_alpha self));
  setitem_sum idx p.

(** The loop of [_sample_proportionally]: [u i] is the draw
    [np.random.uniform(0, 1)] of iteration [i].  The mass is computed
    exactly here; on floats it is rounded, and the rounded mass can reach
    the end of its stratum, or the total. *)
Fixpoint draw_strata (u : nat -> R) (self : PrioritizedExperienceReplay)
    (every_range_len : R) (iterations : list nat) : outcome (list nat) :=
  match iterations with
  | [] => mret []
  | i :: rest =>
      let mass := (u i * every_range_len + INR i * every_range_len)%R in
      idx ← find_prefix_index mass (_st_sum self);
      indices ← draw_strata u self every_range_len rest;
      mret (idx :: indices)
  end.

(** [_sample_proportionally(self, batch_size)] *)
Definition _sample_proportionally (u : nat -> R)
    (self : PrioritizedExperienceReplay) (batch_size : nat) : outcome (list nat) :=
  p_total ← sum_range 0 (Z.of_nat (size (base self)) - 1) (_st_sum self);
  every_range_len ← fdiv p_total (INR batch_size);
  draw_strata u self every_range_len (seq 0 batch_size).

(** The loop of [sample] that computes the importance weights. *)
Fixpoint sample_weights (self : PrioritizedExperienceReplay)
    (max_weight : ereal) (indices : list nat) : outcome (list R) :=
  match indices with
  | [] => mret []
  | idx :: rest =>
      leaf ← sum_get idx (_st_sum self);
      total ← sum_all (_st_sum self);
      p_sample ← fdiv leaf total;
      weight ← fpow (p_sample * INR (size (base self)))%R (- _beta self)%R;
      w ← fdiv_e weight max_weight;
      ws ← sample_weights self max_weight rest;
      mret (w :: ws)
  end.

(** The weights and indices of [sample(self, batch_size)]. *)
Definition sample_weights_indices (u : nat -> R)
    (self : PrioritizedExperienceReplay) (batch_size : nat)
  : outcome (list R * list nat) :=
  let batch_size :=
    if decide (size (base self) < batch_size) then size (base self)
    else batch_size in
  indices ← _sample_proportionally u self batch_size;
  least ← min_all (_st_min self);
  total ← sum_all (_st_sum self);
  p_min ← ediv least total;
  max_weight ← epow (emul p_min (size (base self))) (- _beta self)%R;
  weights ← sample_weights self max_weight indices;
  mret (weights, indices).

(** [sample(self, batch_size)]: one row per draw, made of the transition,
    its weight and its slot index; the buffer is only read. *)
Definition prioritized_sample (u : nat -> R)
    (self : PrioritizedExperienceReplay) (batch_size : nat)
  : outcome (list (T * R * nat)) :=
  '(weights, indices) ← sample_weights_indices u self batch_size;
  rows ← getitem_rows (_transitions (base self)) indices;
  mret (zip (zip rows weights) indices).

(** One iteration of the loop of [update_priorities]. *)
Definition update_priority (pair : Z * R) : py PrioritizedExperienceReplay unit :=
  let '(idx, priority) := pair in
  self ← get_self;
  py_assert (Rlt_dec 0 priority);;
  py_assert (decide (0 <= idx < Z.of_nat (size (base self)))%Z);;
  p ← lift_outcome (fpow priority (_alpha self));
  setitem_sum (Z.to_nat idx) p;;
  p ← lift_outcome (fpow priority (_alpha self));
  setitem_min (Z.to_nat idx) p;;
  modify (set_max_priority (Rmax (_max_priority self) priority)).

(** [update_priorities(self, indices, priorities)] *)
Definition update_priorities (indices : list Z) (priorities : list R)
  : py PrioritizedExperienceReplay unit :=
  for_each (zip indices priorities) update_priority.

(** [update_beta(self, beta)] *)
Definition update_beta (beta : R) : py PrioritizedExperienceReplay unit :=
  modify (set_beta beta).

End Prioritized.
Arguments PrioritizedExperienceReplay T : clear implicits.

(** ** Invariants of the transition store *)

Section StoreInvariants.
Context {T : Type}.
Implicit Types (self : ExperienceReplay T) (xs : list T).

(** A store whose backing array is allocated, or about to be. *)
Definition store_ready self : Prop :=
  max_size self <> 0 /\
  _current_idx self < max_size self /\
  (size self = 0 \/ length (_transitions self) = max_size self).

(** What the inserts of [xs], in order, leave in a buffer of capacity
    [C]: while the buffer fills, the slots are [xs] followed by copies of
    the first transition; once full, the slots read from the write cursor
    on (wrapping around) are the last [C] transitions inserted. *)
Record store_after (C : nat) xs self : Prop := {
  after_max_size : max_size self = C;
  after_size : size self = min (length xs) C;
  after_idx : _current_idx self = length xs mod C;
  after_empty : xs = [] -> _transitions self = [];
  after_filling : forall x0 xs', xs = x0 :: xs' -> length xs <= C ->
    _transitions self = xs ++ replicate (C - length xs) x0;
  after_full : C <= length xs ->
    drop (_current_idx self) (_transitions self) ++
    take (_current_idx self) (_transitions self) = drop (length xs - C) xs
}.

End StoreInvariants.

(** ** Invariants of the segment tree *)

Section SegmentTreeInvariants.
Context {V : Type} (identity : V) (combine : V -> V -> V).

(** The combine of a list of values, in order. *)
Definition combine_list (vs : list V) : V := foldr combine identity vs.

(** The value held by leaf [i]. *)
Definition leaf (t : SegmentTree V) (i : nat) : V :=
  node identity t (capacity t + i).

(** Node [i] of the array [ns] holds the combine of its two children. *)
Definition node_ok (ns : list V) (i : nat) : Prop :=
  default identity (ns !! i) =
  combine (default identity (ns !! (2 * i))) (default identity (ns !! (2 * i + 1))).

(** The invariant of the tree: the array has [2 * capacity] nodes and every
    internal node holds the combine of its two children. *)
Definition tree_inv (t : SegmentTree V) : Prop :=
  length (nodes t) = 2 * capacity t /\
  forall i, 1 <= i < capacity t -> node_ok (nodes t) i.

End SegmentTreeInvariants.

(** ** Invariants of the prioritized buffer *)

(** The order of the floats that may be [inf]. *)
Definition ele (x y : ereal) : Prop :=
  match x, y with
  | _, PInf => True
  | Fin a, Fin b => (a <= b)%R
  | PInf, Fin _ => False
  end.

Section PrioritizedInvariants.
Context {T : Type}.
Implicit Types (self : PrioritizedExperienceReplay T).

Definition sum_leaf self (i : nat) : R := leaf 0%R (_st_sum self) i.
Definition min_leaf self (i : nat) : ereal := leaf PInf (_st_min self) i.

(** What holds of a prioritized buffer between calls: the store is the one
    left by some sequence of inserts; both trees have the same
    power-of-two capacity, at least [max_size], and satisfy the tree
    invariant; the leaf of an occupied slot holds the same positive value
    in both trees; the leaf of an unused slot holds the identity; and
    [_max_priority] is at least its initial value. *)
Record per_inv self : Prop := {
  inv_max_size : 1 <= max_size (base self);
  inv_store : exists xs, store_after (max_size (base self)) xs (base self);
  inv_capacity : exists h, capacity (_st_sum self) = 2 ^ h;
  inv_capacity_min : capacity (_st_min self) = capacity (_st_sum self);
  inv_capacity_max : max_size (base self) <= capacity (_st_sum self);
  inv_sum : tree_inv 0%R Rplus (_st_sum self);
  inv_min : tree_inv PInf emin (_st_min self);
  inv_occupied : forall i, i < size (base self) ->
    (0 < sum_leaf self i)%R /\ min_leaf self i = Fin (sum_leaf self i);
  inv_unused : forall i, size (base self) <= i < capacity (_st_sum self) ->
    sum_leaf self i = 0%R /\ min_leaf self i = PInf;
  inv_max_priority : (1 <= _max_priority self)%R
}.

(** The states a prioritized buffer of capacity at least 1 goes through:
    the state after construction, and the state any call leaves behind,
    whether the call returns or raises.  ([sample] only reads.) *)
Inductive reachable : PrioritizedExperienceReplay T -> Prop :=
| reach_init max_size alpha beta self :
    1 <= max_size ->
    PrioritizedExperienceReplay_init max_size alpha beta = Return self ->
    reachable self
| reach_add self x self' r :
    reachable self ->
    prioritized_add_transition x self = (self', r) ->
    reachable self'
| reach_update self indices priorities self' r :
    reachable self ->
    update_priorities indices priorities self = (self', r) ->
    reachable self'
| reach_beta self beta self' r :
    reachable self ->
    update_beta beta self = (self', r) ->
    reachable self'.

End PrioritizedInvariants.

(** A pair of [update_priorities] that passes both assertions. *)
Definition valid_pair {T : Type} (self : PrioritizedExperienceReplay T)
    (pair : Z * R) : Prop :=
  (0 < pair.2)%R /\ (0 <= pair.1 < Z.of_nat (size (base self)))%Z.

(** ** Two small buffers *)

(** [PrioritizedExperienceReplay(2, 1.0, 1.0)] *)
Definition fresh_buffer : PrioritizedExperienceReplay nat :=
  {| base := ExperienceReplay_init 2;
     _alpha := 1%R; _beta := 1%R; _max_priority := 1%R;
     _st_sum := {| capacity := 2; nodes := replicate 4 0%R |};
     _st_min := {| capacity := 2; nodes := replicate 4 PInf |} |}.

(** The same buffer after [add_transition(10)]. *)
Definition one_transition_buffer : PrioritizedExperienceReplay nat :=
  (prioritized_add_transition 10 fresh_buffer).1.

(** The weight [sample] gives a draw from a leaf holding [leaf], when the
    sum tree totals [total] and the min tree's minimum is [least]:
    [(p_sample * size) ** (-beta) / (p_min * size) ** (-beta)]. *)
Definition importance_weight {T : Type} (self : PrioritizedExperienceReplay T)
    (total least leaf : R) : R :=
  (Rpower (leaf / total * INR (size (base self))) (- _beta self) /
   Rpower (least / total * INR (size (base self))) (- _beta self))%R.

(** [one_transition_buffer] after [update_beta(0.0)]. *)
Definition zero_beta_buffer : PrioritizedExperienceReplay nat :=
  (update_beta 0%R one_transition_buffer).1.

(** ** Proof automation *)

(** Unfold the monad of methods. *)
Ltac py_unfold :=
  unfold py_assert in *;
  unfold mbind, py_bind, mret, py_ret, get_self, modify, lift_outcome, raise in *.

(** Invert a read-only call that returned: every step of it returned. *)
Ltac obind_inv H :=
  unfold mbind, outcome_bind, mret, outcome_ret in H;
  repeat match type of H with
         | obind ?o _ = Return _ =>
             let x := fresh "x" in
             let E := fresh "E" in
             destruct o as [x|] eqn:E; [cbn [obind] in H | discriminate H]
         end.

(** * The code around the buffers *)

(** ** Exceptions beyond those of the buffers *)

(** What the code around the buffers can raise: the exceptions of the
    buffers, and two Python exceptions more. *)
Inductive pyexc : Set :=
| KeyError
| NotImplementedError
| Builtin (e : exn).

Inductive result (A : Type) : Type :=
| Returned (a : A)
| Raised (e : pyexc).
Arguments Returned {A} a.
Arguments Raised {A} e.

Definition rbind {A B : Type} (r : result A) (k : A -> result B) : result B :=
  match r with
  | Returned a => k a
  | Raised e => Raised e
  end.

#[global] Instance result_ret : MRet result := fun A a => Returned a.
#[global] Instance result_bind : MBind result := fun A B k r => rbind r k.

(** A call of a function that raises the exceptions of the buffers only. *)
Definition of_outcome {A : Type} (o : outcome A) : result A :=
  match o with
  | Return a => Returned a
  | Raise e => Raised (Builtin e)
  end.

(** [x == y] on floats *)
Definition float_eq (x y : R) : bool :=
  if Req_dec_T x y then true else false.

(** [d[key]] on a dict *)
Definition dict_getitem (d : gmap string R) (key : string) : result R :=
  match d !! key with
  | Some v => Returned v
  | None => Raised KeyError
  end.

(** [ExperienceReplay.sample(self, batch_size)] of the base class *)
Definition ExperienceReplay_sample {T : Type} (self : ExperienceReplay T)
    (batch_size : nat) : result (list T) :=
  Raised NotImplementedError.

(** ** Rewards of recorded matches (sac/utils.py) *)

(** A recorded transition: the tuple
    [(obs, action, next_obs, reward, done, info)], fields 0 to 5. *)
Record recorded : Type := mkRecorded {
  rec_obs : list R;
  rec_action : list R;
  rec_next_obs : list R;
  rec_reward : R;
  rec_done : bool;
  rec_info : gmap string R
}.

(** A recorded match: the dict with the keys ['transitions'] and
    ['player_one']. *)
Record recorded_match : Type := mkRecordedMatch {
  transitions : list recorded;
  player_one : string
}.

(** [a[-k]] on a one-dimensional array, for [k >= 1] *)
Definition getitem_from_end (a : list R) (k : nat) : outcome R :=
  if decide (k <= length a) then
    match a !! (length a - k) with
    | Some v => Return v
    | None => Raise IndexError
    end
  else Raise IndexError.

(** [a[-hi_k:-lo_k]]: a slice never raises, its bounds are clamped. *)
Definition slice_from_end (a : list R) (hi_k lo_k : nat) : list R :=
  drop (length a - hi_k) (take (length a - lo_k) a).

(** [np.asarray(p1 - p2)] on one-dimensional arrays: elementwise, an array
    of length 1 is broadcast, other length mismatches raise ValueError. *)
Definition np_subtract (p1 p2 : list R) : outcome (list R) :=
  if decide (length p1 = length p2) then Return (zip_with Rminus p1 p2)
  else
    match p1, p2 with
    | _, [b] => Return (map (fun a => a - b)%R p1)
    | [a], _ => Return (map (fun b => a - b)%R p2)
    | _, _ => Raise ValueError
    end.

(** [np.sum(a)] *)
Definition np_sum (a : list R) : R := foldr Rplus 0%R a.

(** [dist_positions(p1, p2)] *)
Definition dist_positions (p1 p2 : list R) : outcome R :=
  d ← np_subtract p1 p2;
  mret (sqrt (np_sum (map (fun x => x ^ 2)%R d))).

Section Rewards.
(** [CENTER_X] and [SCALE] are constants of the package laserhockey, which
    is not part of this repository. *)
Context (CENTER_X SCALE : R).

(** [compute_reward_closeness_to_puck(transition)].  The test
    [(observation[-6] + CENTER_X) < CENTER_X] is made on the exact sum; on
    floats the sum is rounded, and the test can fail for a position that is
    negative but tiny. *)
Definition compute_reward_closeness_to_puck (transition : recorded) : outcome R :=
  let observation := rec_next_obs transition in
  let reward_closeness_to_puck := 0%R in
  puck_x ← getitem_from_end observation 6;
  if Rlt_dec (puck_x + CENTER_X) CENTER_X then
    puck_vx ← getitem_from_end observation 4;
    if Rle_dec puck_vx 0 then
      dist_to_puck ← dist_positions (take 2 observation) (slice_from_end observation 6 4);
      max_dist ← fdiv 250 SCALE;
      let max_reward := (- 30)%R in
      factor ← fdiv max_reward (max_dist * 250 / 2);
      mret (reward_closeness_to_puck + dist_to_puck * factor)%R
    else mret reward_closeness_to_puck
  else mret reward_closeness_to_puck.

(** [compute_winning_reward(transition, is_player_one)]: the dict is read
    only when the transition is final; every read is of the key
    ['winner']. *)
Definition compute_winning_reward (transition : recorded) (is_player_one : bool)
  : result Z :=
  let r := 0%Z in
  if rec_done transition then
    winner ← dict_getitem (rec_info transition) "winner";
    if float_eq winner 0 then mret (r + 0)%Z
    else if float_eq winner 1 && is_player_one then mret (r + 10)%Z
    else if float_eq winner (- 1) && negb is_player_one then mret (r + 10)%Z
    else mret (r - 10)%Z
  else mret r.

(** The body of the loop of [recompute_rewards]: the copy of the transition
    with field 3 replaced; the last statement reads
    [info['reward_closeness_to_puck']] and drops the value. *)
Definition recompute_reward (is_player_one : bool) (transition : recorded)
  : result recorded :=
  winning ← compute_winning_reward transition is_player_one;
  closeness ← of_outcome (compute_reward_closeness_to_puck transition);
  dict_getitem (rec_info transition) "reward_closeness_to_puck";;
  mret {| rec_obs := rec_obs transition;
          rec_action := rec_action transition;
          rec_next_obs := rec_next_obs transition;
          rec_reward := (IZR winning + closeness)%R;
          rec_done := rec_done transition;
          rec_info := rec_info transition |}.

(** [for transition in transitions: ... new_transitions.append(...)] *)
Fixpoint recompute_each (is_player_one : bool) (transitions : list recorded)
  : result (list recorded) :=
  match transitions with
  | [] => mret []
  | transition :: rest =>
      new_transition ← recompute_reward is_player_one transition;
      new_transitions ← recompute_each is_player_one rest;
      mret (new_transition :: new_transitions)
  end.

(** [recompute_rewards(match, username)] *)
Definition recompute_rewards (match_ : recorded_match) (username : string)
  : result (list recorded) :=
  let is_player_one := String.eqb (player_one match_) username in
  recompute_each is_player_one (transitions match_).

End Rewards.

(** ** Preloading recorded matches (base/experience_replay.py) *)

(** [file.endswith(suffix)] *)
Definition endswith (file suffix : string) : bool :=
  (String.length suffix <=? String.length file)%nat &&
  String.eqb (String.substring (String.length file - String.length suffix)
                (String.length suffix) file) suffix.

(** The user name written in [preload_transitions]. *)
Definition preload_username : string := "Dimitrije_Antic_-_SAC_ЈУГО".

(** A row of the buffer: [(state, action, reward, next_state, done)]. *)
Definition buffer_row : Type := list R * list R * R * list R * bool.

(** [tr = (t[0], t[1], float(t[3]), t[2], bool(t[4]))] *)
Definition recorded_to_row (t : recorded) : buffer_row :=
  (rec_obs t, rec_action t, rec_reward t, rec_next_obs t, rec_done t).

Section Preload.
Context (CENTER_X SCALE : R).
(** [self.add_transition] is the method of the class of [self]: that of the
    base class for the uniform buffer, the override for the prioritized
    one. *)
Context {S : Type} (self_add_transition : buffer_row -> py S unit).

(** [preload_transitions(self, path)].  The directory is the list of its
    file names, in the order [os.listdir] gives them, each with the match
    [np.load] reads from the file; the final [print] is left out. *)
Fixpoint preload_transitions (directory : list (string * recorded_match))
    (self : S) : S * result unit :=
  match directory with
  | [] => (self, Returned tt)
  | (file, np_data) :: rest =>
      if endswith file ".npz" then
        match recompute_rewards CENTER_X SCALE np_data preload_username with
        | Raised e => (self, Raised e)
        | Returned new_transitions =>
            match for_each new_transitions
                    (fun t => self_add_transition (recorded_to_row t)) self with
            | (self', Return _) => preload_transitions rest self'
            | (self', Raise e) => (self', Raised (Builtin e))
            end
        end
      else preload_transitions rest self
  end.

End Preload.

(** Unfold the monads of read-only calls. *)
Ltac result_unfold :=
  unfold mbind, mret, result_bind, result_ret, outcome_bind, outcome_ret in *.

(** ** What the rewards code needs of a recorded transition *)

(** A transition whose rewards can be recomputed: its next observation has
    the six trailing entries that are read, its dict has the key
    ['reward_closeness_to_puck'], and the key ['winner'] if the transition
    is final. *)
Definition complete_recorded (transition : recorded) : Prop :=
  6 <= length (rec_next_obs transition) /\
  is_Some (rec_info transition !! "reward_closeness_to_puck") /\
  (rec_done transition = true -> is_Some (rec_info transition !! "winner")).

#[global] Instance complete_recorded_dec (transition : recorded) :
  Decision (complete_recorded transition).
Proof. unfold complete_recorded. apply _. Defined.

(** [t'] is [t] with the reward recomputed: every field but the reward is
    that of [t]; the reward is the winning reward plus the closeness
    reward, and at most 10. *)
Definition recomputed_of (CENTER_X SCALE : R) (is_player_one : bool)
    (t t' : recorded) : Prop :=
  rec_obs t' = rec_obs t /\ rec_action t' = rec_action t /\
  rec_next_obs t' = rec_next_obs t /\ rec_done t' = rec_done t /\
  rec_info t' = rec_info t /\
  (rec_reward t' <= 10)%R /\
  exists w c,
    compute_winning_reward t is_player_one = Returned w /\
    compute_reward_closeness_to_puck CENTER_X SCALE t = Return c /\
    rec_reward t' = (IZR w + c)%R.

(** The rows [preload_transitions] is to insert for a directory, in
    directory order, when the rewards of every match can be recomputed:
    for each recomputed transition [t] the row
    [(t[0], t[1], t[3], t[2], t[4])], that is state, action, reward, next
    state and done flag, written out field by field. *)
Definition preloaded_rows (CENTER_X SCALE : R)
    (directory : list (string * recorded_match)) : list buffer_row :=
  flat_map (fun entry =>
    if endswith entry.1 ".npz" then
      match recompute_rewards CENTER_X SCALE entry.2 preload_username with
      | Returned new_transitions =>
          (fun t => (rec_obs t, rec_action t, rec_reward t, rec_next_obs t, rec_done t))
            <$> new_transitions
      | Raised _ => []
      end
    else []) directory.

(** A recorded transition with a complete dict and an observation of six
    entries, and one without the observation. *)
Definition complete_example : recorded :=
  mkRecorded [0; 0]%R [1]%R [(- 1); 0; 0; 0; 0; 0]%R 5%R true
    (<["winner" := 1%R]> (<["reward_closeness_to_puck" := 0%R]> ∅)).

Definition incomplete_example : recorded :=
  mkRecorded [0; 0]%R [1]%R [] 5%R false ∅.

(** * Utilities of the SAC agent *)

(** sac/utils.py.  Tensors and arrays are one-dimensional and hold exact
    reals. *)

(** [a[i]] for an index [i >= 0] *)
Definition getitem {A : Type} (a : list A) (i : nat) : outcome A :=
  match a !! i with
  | Some x => Return x
  | None => Raise IndexError
  end.

Section Phase.
(** [np.pi], and the conversion of a float to float32 that
    [torch.tensor(..., dtype=torch.float32)] makes. *)
Context (np_pi : R) (float32 : R -> R).

(** [calculate_phase(obs, env, info, player)]: [env] and [info] are not
    used, and the two [print]s of a clamped position are left out.
    [CENTER_X] is the constant of the package laserhockey; the division is
    exact for a nonzero [CENTER_X]. *)
Definition calculate_phase (CENTER_X : R) (obs : list R) (player : Z)
  : outcome (list R) :=
  let center_x := CENTER_X in
  x_vel_puck ← getitem obs 14;
  if decide (player = 1 \/ player = 2)%Z then
    puck_pos_x ← getitem obs 12;
    let puck_pos_x :=
      if Rlt_dec puck_pos_x (- center_x) then (- center_x)%R else puck_pos_x in
    let puck_pos_x :=
      if Rlt_dec center_x puck_pos_x then center_x else puck_pos_x in
    if Rle_dec (- center_x) puck_pos_x then
      if Rle_dec puck_pos_x center_x then
        q ← fdiv puck_pos_x center_x;
        let phase := [(q * np_pi + np_pi)%R] in
        mret (float32 <$> phase)
      else Raise AssertionError
    else Raise AssertionError
  else Raise ValueError.

End Phase.

Section Spline.
(** [torch.floor((4*p)/(2*math.pi))] at one element of the tensor [p], as
    the tensor arithmetic computes it: a float that is an integer.  The
    [+ n - 1] and [% 4] that follow are exact on such floats while they are
    below [2 ** 24]. *)
Context (floor_quarter : R -> Z).

(** [kn(p, n)] at one element of the tensor [p]; the remainder has the
    sign of the divisor. *)
Definition kn_at (p : R) (n : Z) : Z :=
  ((floor_quarter p + n - 1) mod 4)%Z.

(** [kn(p, n)] *)
Definition kn (p : list R) (n : Z) : list Z := map (fun x => kn_at x n) p.

(** The branch of [compute_multipliers] for [n], at one element of [w]:
    the polynomial as written, evaluated exactly. *)
Definition spline_weight (n : nat) (w : R) : R :=
  let w2 := (w ^ 2)%R in
  let w3 := (w ^ 3)%R in
  match n with
  | 0 => (w2 - 0.5 * w - 0.5 * w3)%R
  | 1 => (1 - 2.5 * w2 + 1.5 * w3)%R
  | 2 => (0.5 * w + 2 * w2 - 1.5 * w3)%R
  | _ => (0.5 * (w3 - w2))%R
  end.

(** [list_of_w[k][j] = v]; [k] is a result of [kn], never negative. *)
Definition setitem_at (k : Z) (j : nat) (v : R) (list_of_w : list (list R))
  : outcome (list (list R)) :=
  row ← getitem list_of_w (Z.to_nat k);
  if decide (j < length row)
  then Return (<[Z.to_nat k := <[j := v]> row]> list_of_w)
  else Raise IndexError.

(** [for j in range(len(ind)): list_of_w[ind[j]][j] = weight[j]] *)
Fixpoint scatter (ind : list Z) (weight : list R) (js : list nat)
    (list_of_w : list (list R)) : outcome (list (list R)) :=
  match js with
  | [] => Return list_of_w
  | j :: js' =>
      v ← getitem weight j;
      k ← getitem ind j;
      list_of_w ← setitem_at k j v list_of_w;
      scatter ind weight js' list_of_w
  end.

(** The second loop of [compute_multipliers]. *)
Fixpoint compute_multipliers_loop (w p : list R) (ns : list nat)
    (list_of_w : list (list R)) : outcome (list (list R)) :=
  match ns with
  | [] => Return list_of_w
  | n :: ns' =>
      let ind := kn p (Z.of_nat n) in
      let weight := map (spline_weight n) w in
      list_of_w ← scatter ind weight (seq 0 (length ind)) list_of_w;
      compute_multipliers_loop w p ns' list_of_w
  end.

(** [compute_multipliers(w, p)] *)
Definition compute_multipliers (w p : list R)
  : outcome (list R * list R * list R * list R) :=
  let list_of_w := replicate 4 (replicate (length p) 0%R) in
  list_of_w ← compute_multipliers_loop w p (seq 0 4) list_of_w;
  w0 ← getitem list_of_w 0;
  w1 ← getitem list_of_w 1;
  w2 ← getitem list_of_w 2;
  w3 ← getitem list_of_w 3;
  mret (w0, w1, w2, w3).

End Spline.

(** [np.cumsum(x)], with the sum so far. *)
Fixpoint np_cumsum_from (acc : R) (x : list R) : list R :=
  match x with
  | [] => []
  | a :: x' => (acc + a)%R :: np_cumsum_from (acc + a)%R x'
  end.

Definition np_cumsum (x : list R) : list R := np_cumsum_from 0%R x.

(** [running_mean(x, N)] for a window [N >= 0].  [cumsum[:-N]] is empty
    for [N = 0]; dividing an array by [0.0] does not raise.  The prefix
    sums and their differences are exact here and rounded on floats. *)
Definition running_mean (x : list R) (N : nat) : outcome (list R) :=
  let cumsum := np_cumsum (0%R :: x) in
  let upto := if decide (N = 0) then [] else take (length cumsum - N) cumsum in
  d ← np_subtract (drop N cumsum) upto;
  mret (map (fun v => v / INR N)%R d).

(** The entry [l[k][j]] of a list of tensors. *)
Definition entry (l : list (list R)) (k j : nat) : option R :=
  l !! k ≫= (fun row => row !! j).

(** Four tensors of [N] elements each. *)
Definition shape (N : nat) (l : list (list R)) : Prop :=
  length l = 4 /\ Forall (fun row => length row = N) l.

(** [PrioritizedExperienceReplay(2, 1.0, 1.0)], to hold recorded
    transitions. *)
Definition fresh_row_buffer : PrioritizedExperienceReplay buffer_row :=
  {| base := ExperienceReplay_init 2;
     _alpha := 1%R; _beta := 1%R; _max_priority := 1%R;
     _st_sum := {| capacity := 2; nodes := replicate 4 0%R |};
     _st_min := {| capacity := 2; nodes := replicate 4 PInf |} |}.

(** ** A buffer with two different priorities *)

(** [one_transition_buffer] after [add_transition(11)]. *)
Definition two_transition_buffer : PrioritizedExperienceReplay nat :=
  (prioritized_add_transition 11 one_transition_buffer).1.

(** The same buffer after [update_priorities([0], [3.0])]: slot 0 has
    priority 3, slot 1 has priority 1. *)
Definition two_priority_buffer : PrioritizedExperienceReplay nat :=
  (update_priorities [0%Z] [3%R] two_transition_buffer).1.

(** [two_priority_buffer] after [update_beta(0.0)]. *)
Definition two_priority_zero_beta_buffer : PrioritizedExperienceReplay nat :=
  (update_beta 0%R two_priority_buffer).1.

(** ** The strata draw on binary64 floats *)

(** [_sample_proportionally] once more, on the floats Python computes with
    (IEEE 754 binary64, round to nearest even) instead of real numbers.
    The arithmetic is the kernel's; the sum tree is the same generic
    segment tree, combining with the floating-point [+]. *)
Module Binary64.
Import PrimFloat.

(** Modelled from the spec: the sum tree of floats (class absent from the
    sources). *)
Definition SumSegmentTree : Type := SegmentTree float.

(** Modelled from the spec: [tree[idx] = v] on the absent sum tree. *)
Definition sum_set := SegmentTree_set (V := float) zero add.

(** Modelled from the spec: [tree[idx]] on the absent sum tree. *)
Definition sum_get := SegmentTree_get (V := float) zero.

(** Modelled from the spec: [sum(lo, hi)] of the absent sum tree. *)
Definition sum_range := range_combine (V := float) zero add.

(** Modelled from the spec: [sum()] of the absent sum tree. *)
Definition sum_all := combine_all (V := float) zero add.

(** [float(n)] for a small non-negative int. *)
Definition float_of_nat (n : nat) : float :=
  of_uint63 (Uint63.of_Z (Z.of_nat n)).

(** Modelled from the spec: the descent of the absent [find_prefix_index],
    as [descend] above, with the comparison and the subtraction of
    floats. *)
Fixpoint descend (t : SumSegmentTree) (fuel i : nat) (target : float) : nat :=
  match fuel with
  | 0 => i
  | S fuel' =>
      if decide (i < capacity t) then
        let left := node zero t (2 * i) in
        if ltb target left then descend t fuel' (2 * i) target
        else descend t fuel' (2 * i + 1) (sub target left)
      else i
  end.

(** Modelled from the spec: [find_prefix_index(target)] of the absent sum
    tree, as above. *)
Definition find_prefix_index (target : float) (t : SumSegmentTree) : outcome nat :=
  if leb (node zero t 1) target then Raise PrefixOutOfRange
  else Return (descend t (capacity t) 1 target - capacity t).

(** The loop of [_sample_proportionally]; [u i] is the draw of iteration
    [i]. *)
Fixpoint draw_strata (u : nat -> float) (st_sum : SumSegmentTree)
    (every_range_len : float) (iterations : list nat) : outcome (list nat) :=
  match iterations with
  | [] => mret []
  | i :: rest =>
      let mass := add (mul (u i) every_range_len)
                      (mul (float_of_nat i) every_range_len) in
      idx ← find_prefix_index mass st_sum;
      indices ← draw_strata u st_sum every_range_len rest;
      mret (idx :: indices)
  end.

(** [_sample_proportionally(self, batch_size)] on a buffer whose sum tree is
    [st_sum] and whose [size] is [size]. *)
Definition _sample_proportionally (u : nat -> float) (st_sum : SumSegmentTree)
    (size batch_size : nat) : outcome (list nat) :=
  p_total ← sum_range 0 (Z.of_nat size - 1) st_sum;
  if decide (batch_size = 0) then Raise ZeroDivisionError
  else
    let every_range_len := div p_total (float_of_nat batch_size) in
    draw_strata u st_sum every_range_len (seq 0 batch_size).



End Binary64.

(** * Properties *)

(** ** The monad *)

Lemma for_each_app {S A : Type} (xs ys : list A) (body : A -> py S unit) (s : S) :
  for_each (xs ++ ys) body s =
  match for_each xs body s with
  | (s', Return _) => for_each ys body s'
  | (s', Raise e) => (s', Raise e)
  end.
Proof.
  revert s. induction xs as [|x xs IH]; intros s; simpl; [done|].
  unfold mbind, py_bind. destruct (body x s) as [s1 [[]|e]]; [apply IH | done].
Qed.

(** ** The transition store *)

Section StoreFacts.
Context {T : Type}.
Implicit Types (self : ExperienceReplay T) (xs : list T).

Lemma add_transition_ready (x : T) self :
  store_ready self ->
  add_transition x self =
    ({| _transitions :=
          <[_current_idx self := x]>
            (if decide (size self = 0) then replicate (max_size self) x
             else _transitions self);
        _current_idx := (_current_idx self + 1) mod max_size self;
        size := min (size self + 1) (max_size self);
        max_size := max_size self |}, Return tt).
Proof.
  intros (Hmax & Hcur & Hlen).
  unfold add_transition, mbind, py_bind, get_self, setitem_row, py_mod, modify.
  destruct (decide (size self = 0)) as [Hz|Hz]; simpl.
  - rewrite length_replicate. destruct (decide _) as [_|?]; [|lia]. simpl.
    destruct (decide (max_size self = 0)); [lia|]. done.
  - destruct Hlen as [?|Hlen]; [lia|]. rewrite Hlen.
    destruct (decide _) as [_|?]; [|lia]. simpl.
    destruct (decide (max_size self = 0)); [lia|]. done.
Qed.

Lemma store_after_length C xs self :
  1 <= C -> xs <> [] -> store_after C xs self -> length (_transitions self) = C.
Proof.
  intros HC Hne H. destruct (decide (length xs <= C)) as [Hle|Hgt].
  - destruct xs as [|x0 xs']; [done|].
    rewrite (after_filling _ _ _ H x0 xs' eq_refl Hle).
    rewrite length_app, length_replicate. lia.
  - assert (Hfull := after_full _ _ _ H ltac:(lia)).
    apply (f_equal length) in Hfull.
    rewrite length_app, length_drop, length_take, length_drop in Hfull.
    assert (_current_idx self < C).
    { rewrite (after_idx _ _ _ H). apply Nat.mod_upper_bound. lia. }
    lia.
Qed.

Lemma store_after_ready C xs self :
  1 <= C -> store_after C xs self -> store_ready self.
Proof.
  intros HC H. unfold store_ready.
  rewrite (after_max_size _ _ _ H), (after_idx _ _ _ H), (after_size _ _ _ H).
  split; [lia|]. split; [apply Nat.mod_upper_bound; lia|].
  destruct xs as [|x0 xs']; [left; simpl; lia|].
  right. by apply (store_after_length C (x0 :: xs')).
Qed.

Lemma store_after_init C : store_after C [] (ExperienceReplay_init (T := T) C).
Proof.
  split; simpl; try done. by rewrite Nat.Div0.mod_0_l.
Qed.

End StoreFacts.

Section StoreSteps.
Context {T : Type}.
Implicit Types (self : ExperienceReplay T) (xs : list T).

Lemma rotation_step (ts : list T) (c : nat) (x : T) (old : list T) :
  c < length ts ->
  drop c ts ++ take c ts = old ->
  let c' := (c + 1) mod length ts in
  drop c' (<[c := x]> ts) ++ take c' (<[c := x]> ts) = drop 1 old ++ [x].
Proof.
  intros Hc Hold c'.
  destruct (lookup_lt_is_Some_2 ts c Hc) as [y Hy].
  pose proof (take_drop_middle ts c y Hy) as Hts.
  set (A := take c ts) in *. set (B := drop (S c) ts) in *.
  assert (HA : length A = c) by (subst A; rewrite length_take; lia).
  assert (Hins : <[c := x]> ts = A ++ x :: B).
  { rewrite <- Hts at 1. rewrite <- HA at 1.
    by rewrite insert_app_r_alt, Nat.sub_diag by lia. }
  assert (Hdrop : drop c ts = y :: B).
  { rewrite <- Hts at 1. rewrite <- HA at 1. by rewrite drop_app_length. }
  rewrite Hdrop in Hold. simpl in Hold. subst old. simpl. rewrite drop_0.
  assert (Hlen : length ts = c + 1 + length B).
  { rewrite <- Hts at 1. rewrite length_app. simpl. lia. }
  rewrite Hins. destruct B as [|b B'].
  - simpl in Hlen. subst c'. rewrite Hlen, Nat.add_0_r, Nat.Div0.mod_same.
    by rewrite drop_0, take_0, app_nil_r.
  - subst c'. rewrite Nat.mod_small by (rewrite Hlen; simpl; lia).
    replace (c + 1) with (length (A ++ [x])) by (rewrite length_app; simpl; lia).
    rewrite (cons_middle x A (b :: B')), app_assoc.
    by rewrite drop_app_length, take_app_length, app_assoc.
Qed.

Lemma store_after_step C xs self (x : T) :
  1 <= C -> store_after C xs self ->
  exists self', add_transition x self = (self', Return tt) /\
                store_after C (xs ++ [x]) self'.
Proof.
  intros HC H. pose proof (store_after_ready C xs self HC H) as Hready.
  eexists. split; [by apply add_transition_ready|].
  pose proof (after_max_size _ _ _ H) as Hmax.
  pose proof (after_size _ _ _ H) as Hsize.
  pose proof (after_idx _ _ _ H) as Hidx.
  assert (Hfill : forall x0 xs', xs ++ [x] = x0 :: xs' -> length (xs ++ [x]) <= C ->
    <[_current_idx self := x]>
      (if decide (size self = 0) then replicate (max_size self) x
       else _transitions self) = (xs ++ [x]) ++ replicate (C - length (xs ++ [x])) x0).
  { intros x0 xs' Hx0. rewrite length_app. simpl. intros Hle.
    rewrite Hidx, Hmax, Nat.mod_small by lia.
    destruct xs as [|x1 xs1].
    - simpl in Hx0. injection Hx0 as <- <-.
      rewrite decide_True by (rewrite Hsize; simpl; lia).
      destruct C as [|C']; [lia|]. simpl. by rewrite Nat.sub_0_r.
    - simpl in Hx0. injection Hx0 as <- <-.
      rewrite decide_False by (rewrite Hsize; simpl length; lia).
      rewrite (after_filling _ _ _ H x1 xs1 eq_refl) by lia.
      replace (length (x1 :: xs1)) with (length (x1 :: xs1) + 0) at 1 by lia.
      rewrite insert_app_r.
      replace (C - length (x1 :: xs1))
        with (S (C - (length (x1 :: xs1) + 1))) by lia.
      simpl. by rewrite <- app_assoc. }
  split; simpl.
  - done.
  - rewrite Hsize, length_app, Hmax. simpl. lia.
  - rewrite Hidx, Hmax, length_app. simpl.
    by rewrite Nat.Div0.add_mod_idemp_l.
  - by destruct xs.
  - done.
  - rewrite length_app. simpl. intros Hfull.
    destruct (decide (length xs + 1 <= C)) as [Hle|Hgt].
    + assert (length xs + 1 = C) as HnC by lia.
      assert (Hc' : (_current_idx self + 1) mod max_size self = 0).
      { rewrite Hidx, Hmax, Nat.Div0.add_mod_idemp_l, HnC.
        apply Nat.Div0.mod_same. }
      rewrite Hc', drop_0, take_0, app_nil_r.
      destruct (xs ++ [x]) as [|x0 xs'] eqn:Hsnoc; [by destruct xs|].
      assert (Hl : length (x0 :: xs') = C).
      { rewrite <- Hsnoc, length_app. simpl. lia. }
      rewrite (Hfill x0 xs' eq_refl) by lia.
      rewrite Hl, HnC, !Nat.sub_diag. simpl. by rewrite app_nil_r.
    + destruct (decide (size self = 0)) as [?|_]; [lia|].
      assert (Hlen : length (_transitions self) = C).
      { apply (store_after_length C xs); [done| |done]. intros ->. simpl in *. lia. }
      pose proof (after_full _ _ _ H ltac:(lia)) as Hold.
      assert (Hc : _current_idx self < length (_transitions self)).
      { rewrite Hlen, Hidx. apply Nat.mod_upper_bound. lia. }
      pose proof (rotation_step _ _ x _ Hc Hold) as Hstep. simpl in Hstep.
      rewrite Hlen in Hstep. rewrite Hmax, Hstep.
      rewrite drop_drop, drop_app_le by lia.
      do 2 f_equal. lia.
Qed.

Lemma add_all_from_init C xs :
  1 <= C ->
  exists self, add_all xs (ExperienceReplay_init C) = (self, Return tt) /\
               store_after C xs self.
Proof.
  intros HC. induction xs as [|x xs IH] using rev_ind.
  - eexists. split; [done|]. apply store_after_init.
  - destruct IH as (self & Hrun & Hafter).
    destruct (store_after_step C xs self x HC Hafter) as (self' & Hadd & Hafter').
    exists self'. split; [|done].
    unfold add_all in *. rewrite for_each_app, Hrun. simpl.
    unfold mbind, py_bind. by rewrite Hadd.
Qed.

End StoreSteps.

(** C1.  For a buffer of capacity [C >= 1] and inserts [xs] with
    [length xs >= C]: no insert fails; each insert sets
    [size = min(size + 1, max_size)] and moves the write cursor to
    [(cursor + 1) mod max_size]; afterwards [size = C] and the [C] slots,
    read from the write cursor on and wrapping around (oldest first), are
    exactly the last [C] transitions inserted, in insertion order. *)
Theorem add_transition_fifo {T : Type} (C : nat) (xs : list T) :
  1 <= C -> C <= length xs ->
  (forall ys x zs, xs = ys ++ x :: zs ->
     exists self self',
       add_all ys (ExperienceReplay_init C) = (self, Return tt) /\
       add_transition x self = (self', Return tt) /\
       size self' = min (size self + 1) (max_size self) /\
       _current_idx self' = (_current_idx self + 1) mod max_size self /\
       max_size self' = max_size self /\ max_size self = C) /\
  exists self,
    add_all xs (ExperienceReplay_init C) = (self, Return tt) /\
    size self = C /\
    length (_transitions self) = C /\
    _current_idx self = length xs mod C /\
    drop (_current_idx self) (_transitions self) ++
      take (_current_idx self) (_transitions self) = drop (length xs - C) xs.
Proof.
  intros HC Hn. split.
  - intros ys x zs _.
    destruct (add_all_from_init C ys HC) as (self & Hrun & Hafter).
    pose proof (store_after_ready C ys self HC Hafter) as Hready.
    exists self. eexists. split; [done|].
    split; [by apply add_transition_ready|]. simpl.
    by rewrite (after_max_size _ _ _ Hafter).
  - destruct (add_all_from_init C xs HC) as (self & Hrun & Hafter).
    exists self. split; [done|].
    split; [rewrite (after_size _ _ _ Hafter); lia|].
    split; [|split; [apply Hafter | by apply (after_full _ _ _ Hafter)]].
    apply (store_after_length C xs); [done| |done].
    intros ->. simpl in Hn. lia.
Qed.

Lemma add_transition_fifo_witness :
  exists self,
    add_all [10; 11; 12] (ExperienceReplay_init 2) = (self, Return tt) /\
    size self = 2 /\
    length (_transitions self) = 2 /\
    _current_idx self = length [10; 11; 12] mod 2 /\
    drop (_current_idx self) (_transitions self) ++
      take (_current_idx self) (_transitions self) = drop (length [10; 11; 12] - 2) [10; 11; 12].
Proof.
  apply (add_transition_fifo 2 [10; 11; 12]); simpl; lia.
Defined.

(** The eviction scenario: capacity 2 and inserts T0, T1, T2 leave T2 in
    the slot that held T0. *)
Example eviction_scenario :
  add_all [0; 1; 2] (ExperienceReplay_init 2) =
    ({| _transitions := [2; 1]; _current_idx := 1; size := 2; max_size := 2 |},
     Return tt).
Proof. reflexivity. Qed.

(** A buffer of capacity 0 cannot hold the row: the insert raises, and so
    does cloning into capacity 0. *)
Example add_transition_capacity_zero :
  add_transition 5 (ExperienceReplay_init 0) =
    (ExperienceReplay_init 0, Raise IndexError) /\
  clone_buffer
    {| _transitions := [7; 8; 7; 7]; _current_idx := 2; size := 2; max_size := 4 |} 0
  = Raise IndexError.
Proof. by split. Qed.

(** C10.  The first insert into an empty buffer of capacity [C] fills all
    [C] backing slots with the inserted transition; while the buffer fills,
    the slots at indices in [[size, max_size)] still read as the first
    transition; and [clone_buffer] of a source that has had an insert
    re-inserts all [max_size] backing rows, so the clone has size
    [min(source.max_size, maxsize)] whatever the source's size is. *)
Theorem padding_rows_and_clone {T : Type} (C maxsize : nat) (x : T) (xs : list T) :
  1 <= C -> 1 <= maxsize ->
  (exists first,
     add_transition x (ExperienceReplay_init C) = (first, Return tt) /\
     _transitions first = replicate C x /\ size first = 1 /\
     forall i, size first <= i < max_size first ->
       getitem_rows (_transitions first) [i] = Return [x]) /\
  (exists source,
     add_all (x :: xs) (ExperienceReplay_init C) = (source, Return tt) /\
     length (_transitions source) = max_size source /\
     (forall i, size source <= i < max_size source ->
        getitem_rows (_transitions source) [i] = Return [x]) /\
     exists clone,
       clone_buffer source maxsize = Return clone /\
       add_all (_transitions source) (ExperienceReplay_init maxsize) =
         (clone, Return tt) /\
       size clone = min (max_size source) maxsize).
Proof.
  intros HC Hm.
  assert (Hpad : forall ys source, store_after C (x :: ys) source ->
    forall i, size source <= i < max_size source ->
      getitem_rows (_transitions source) [i] = Return [x]).
  { intros ys source Hafter i [Hlo Hhi].
    rewrite (after_size _ _ _ Hafter) in Hlo.
    rewrite (after_max_size _ _ _ Hafter) in Hhi.
    rewrite (after_filling _ _ _ Hafter x ys eq_refl) by lia.
    assert (Hi : ((x :: ys) ++ replicate (C - length (x :: ys)) x) !! i = Some x).
    { rewrite lookup_app_r by lia. apply lookup_replicate_2. lia. }
    simpl in *. by rewrite Hi. }
  split.
  - destruct (add_all_from_init C [x] HC) as (first & Hrun & Hafter).
    exists first. unfold add_all in Hrun. simpl in Hrun.
    unfold mbind, py_bind in Hrun.
    destruct (add_transition x (ExperienceReplay_init C)) as [s [[]|e]] eqn:Hadd;
      [|done].
    injection Hrun as ->. split; [done|].
    split.
    { rewrite (after_filling _ _ _ Hafter x [] eq_refl) by (simpl; lia).
      simpl. destruct C; [lia|]. simpl. by rewrite Nat.sub_0_r. }
    split; [rewrite (after_size _ _ _ Hafter); simpl length; lia|].
    by apply (Hpad []).
  - destruct (add_all_from_init C (x :: xs) HC) as (source & Hrun & Hafter).
    exists source. split; [done|].
    assert (Hlen : length (_transitions source) = C).
    { by apply (store_after_length C (x :: xs)). }
    split; [by rewrite (after_max_size _ _ _ Hafter)|].
    split; [by apply (Hpad xs)|].
    destruct (add_all_from_init maxsize (_transitions source) Hm)
      as (clone & Hclone & Hafter').
    exists clone. split; [unfold clone_buffer; by rewrite Hclone|].
    split; [done|].
    rewrite (after_size _ _ _ Hafter'), Hlen.
    by rewrite (after_max_size _ _ _ Hafter).
Qed.

Lemma padding_rows_and_clone_witness :
  exists source,
    add_all [7; 8] (ExperienceReplay_init 4) = (source, Return tt) /\
    length (_transitions source) = max_size source /\
    (forall i, size source <= i < max_size source ->
       getitem_rows (_transitions source) [i] = Return [7]) /\
    exists clone,
      clone_buffer source 3 = Return clone /\
      add_all (_transitions source) (ExperienceReplay_init 3) = (clone, Return tt) /\
      size clone = min (max_size source) 3.
Proof.
  apply (padding_rows_and_clone 4 3 7 [8]); lia.
Defined.

(** A source of capacity 4 holding two transitions is cloned, at capacity
    3, into a full buffer: the two padding rows are inserted as well. *)
Example clone_of_partly_filled :
  clone_buffer
    {| _transitions := [7; 8; 7; 7]; _current_idx := 2; size := 2; max_size := 4 |} 3
  = Return {| _transitions := [7; 8; 7]; _current_idx := 1; size := 3; max_size := 3 |}.
Proof. reflexivity. Qed.

(** ** numpy's draw without replacement *)

Lemma swap_Permutation (x : list nat) (i j : nat) : swap x i j ≡ₚ x.
Proof.
  unfold swap. destruct (x !! i) as [a|] eqn:Hi; [|done].
  destruct (x !! j) as [b|] eqn:Hj; [|done].
  by apply Permutation_insert_swap.
Qed.

Lemma shuffle_Permutation (rng : nat -> nat) (i : nat) (x : list nat) :
  shuffle rng i x ≡ₚ x.
Proof.
  revert x. induction i as [|i IH]; intros x; simpl; [done|].
  rewrite IH. apply swap_Permutation.
Qed.

Lemma permutation_Permutation (rng : nat -> nat) (n : nat) :
  permutation rng n ≡ₚ seq 0 n.
Proof. apply shuffle_Permutation. Qed.

Lemma np_random_choice_distinct (rng : nat -> nat) (a k : nat) :
  k <= a ->
  exists indices,
    np_random_choice rng a k = Return indices /\
    length indices = k /\ NoDup indices /\ Forall (fun i => i < a) indices.
Proof.
  intros Hk. unfold np_random_choice.
  rewrite decide_False by lia. rewrite decide_False by lia.
  eexists. split; [done|].
  pose proof (permutation_Permutation rng a) as Hperm.
  split; [|split].
  - rewrite length_take, (Permutation_length Hperm), length_seq. lia.
  - eapply sublist_NoDup; [|apply sublist_take].
    rewrite Hperm. apply NoDup_seq.
  - apply Forall_take. rewrite Hperm. apply Forall_seq. intros; lia.
Qed.

Section UniformFacts.
Context {T : Type}.
Implicit Types (self : ExperienceReplay T).

Lemma getitem_each_in_range (ts : list T) (indices : list nat) :
  Forall (fun i => i < length ts) indices ->
  exists rows, getitem_each ts indices = Return rows /\
               Forall2 (fun i row => ts !! i = Some row) indices rows.
Proof.
  induction 1 as [|i rest Hi _ IH]; simpl.
  - exists []. by split.
  - destruct (lookup_lt_is_Some_2 ts i Hi) as [row Hrow].
    destruct IH as (rows & -> & Hrows). rewrite Hrow. simpl.
    exists (row :: rows). split; [done|]. by constructor.
Qed.

Lemma store_after_size_le C (xs : list T) self :
  1 <= C -> xs <> [] -> store_after C xs self ->
  1 <= size self <= length (_transitions self).
Proof.
  intros HC Hne H. rewrite (store_after_length C xs self HC Hne H).
  rewrite (after_size _ _ _ H). destruct xs; [done|]. simpl length. lia.
Qed.

End UniformFacts.

(** C7.  On a uniform buffer with [size >= 1] (whose populated slots are
    backed by the array), [sample(batch_size)] draws exactly
    [min(batch_size, size)] slot indices, pairwise distinct and all in
    [[0, size)], and returns the transitions of those slots in the order
    drawn. *)
Theorem uniform_sample_distinct {T : Type} (rng : nat -> nat)
    (self : ExperienceReplay T) (batch_size : nat) :
  1 <= size self -> size self <= length (_transitions self) ->
  exists indices rows,
    uniform_sample_indices rng self batch_size = Return indices /\
    uniform_sample rng self batch_size = Return rows /\
    length indices = min batch_size (size self) /\
    length rows = min batch_size (size self) /\
    NoDup indices /\
    Forall (fun i => i < size self) indices /\
    Forall2 (fun i row => _transitions self !! i = Some row) indices rows.
Proof.
  intros Hsize Hlen.
  destruct (np_random_choice_distinct rng (size self) (min batch_size (size self)))
    as (indices & Hdraw & Hk & Hnodup & Hlt); [lia|].
  assert (Hidx : uniform_sample_indices rng self batch_size = Return indices).
  { unfold uniform_sample_indices. rewrite <- Hdraw. f_equal.
    destruct (decide _); lia. }
  destruct (getitem_each_in_range (_transitions self) indices) as (rows & Hget & Hrows).
  { eapply Forall_impl; [exact Hlt|]. simpl. intros; lia. }
  exists indices, rows. split; [done|].
  split.
  { unfold uniform_sample. rewrite Hidx. simpl. unfold getitem_rows.
    destruct (_transitions self); [simpl in Hlen; lia | done]. }
  split; [done|]. split; [|done].
  by rewrite <- (Forall2_length _ _ _ Hrows).
Qed.

Lemma uniform_sample_distinct_witness :
  exists indices rows,
    uniform_sample_indices (fun i => i + 1)
      {| _transitions := [10; 11; 12; 10]; _current_idx := 3; size := 3; max_size := 4 |} 5
      = Return indices /\
    uniform_sample (fun i => i + 1)
      {| _transitions := [10; 11; 12; 10]; _current_idx := 3; size := 3; max_size := 4 |} 5
      = Return rows /\
    length indices = min 5 3 /\
    length rows = min 5 3 /\
    NoDup indices /\
    Forall (fun i => i < 3) indices /\
    Forall2 (fun i row => [10; 11; 12; 10] !! i = Some row) indices rows.
Proof.
  apply (uniform_sample_distinct (fun i => i + 1)
    {| _transitions := [10; 11; 12; 10]; _current_idx := 3; size := 3; max_size := 4 |} 5);
    simpl; lia.
Defined.

Example uniform_sample_run :
  uniform_sample (fun i => i + 1)
    {| _transitions := [10; 11; 12; 10]; _current_idx := 3; size := 3; max_size := 4 |} 2
  = Return [11; 12].
Proof. reflexivity. Qed.

(** C8, as the code has it.  On a buffer that holds no transition,
    [sample(batch_size)] fails for every [batch_size]: the batch size is
    clamped to 0, the empty draw succeeds, and the two subscripts on the
    one-dimensional empty backing array raise numpy's IndexError. *)
Theorem uniform_sample_empty_raises {T : Type} (rng : nat -> nat) (C : nat)
    (xs : list T) (self : ExperienceReplay T) (batch_size : nat) :
  1 <= C -> store_after C xs self -> size self = 0 ->
  uniform_sample rng self batch_size = Raise IndexError.
Proof.
  intros HC Hafter Hsize.
  assert (xs = []) as ->.
  { rewrite (after_size _ _ _ Hafter) in Hsize. destruct xs; [done|].
    simpl length in Hsize. lia. }
  unfold uniform_sample, uniform_sample_indices, np_random_choice.
  rewrite Hsize, (after_empty _ _ _ Hafter eq_refl).
  assert ((if decide (0 < batch_size) then 0 else batch_size) = 0) as ->.
  { destruct (decide _); lia. }
  rewrite decide_False by tauto. by rewrite decide_False by lia.
Qed.

Lemma uniform_sample_empty_raises_witness :
  uniform_sample (fun _ => 0) (ExperienceReplay_init (T := nat) 4) 3 = Raise IndexError.
Proof.
  apply (uniform_sample_empty_raises (fun _ => 0) 4 []); [lia | | done].
  apply store_after_init.
Defined.

(** C8, as stated, fails: the exception raised on an empty buffer is not
    EmptyBuffer. *)
Lemma uniform_sample_empty_not_EmptyBuffer :
  uniform_sample (fun _ => 0) (ExperienceReplay_init (T := nat) 4) 3 <> Raise EmptyBuffer.
Proof. by vm_compute. Qed.


(** ** The segment tree *)

Section SegmentTreeFacts.
Context {V : Type} (identity : V) (combine : V -> V -> V).
Hypothesis combine_assoc : forall x y z,
  combine x (combine y z) = combine (combine x y) z.
Hypothesis combine_id_l : forall x, combine identity x = x.
Hypothesis combine_id_r : forall x, combine x identity = x.

Local Abbreviation tree := (SegmentTree V).
Local Abbreviation nd := (node identity).
Local Abbreviation inv := (tree_inv identity combine).
Local Abbreviation ok := (node_ok identity combine).
Local Abbreviation fold := (combine_list identity combine).

Lemma fold_app (l1 l2 : list V) : fold (l1 ++ l2) = combine (fold l1) (fold l2).
Proof.
  unfold combine_list. induction l1 as [|x l1 IH]; simpl.
  - by rewrite combine_id_l.
  - by rewrite IH, combine_assoc.
Qed.

Lemma length_recompute (fuel pos : nat) (ns : list V) :
  length (recompute identity combine fuel pos ns) = length ns.
Proof.
  revert pos ns. induction fuel as [|fuel IH]; intros pos ns; cbn [recompute]; [done|].
  destruct (decide (pos = 0)); [done|]. by rewrite IH, length_insert.
Qed.

(** The recombination touches nodes up to [pos] only. *)
Lemma recompute_lookup_gt (fuel pos j : nat) (ns : list V) :
  pos < j -> recompute identity combine fuel pos ns !! j = ns !! j.
Proof.
  revert pos ns. induction fuel as [|fuel IH]; intros pos ns Hj; cbn [recompute]; [done|].
  destruct (decide (pos = 0)); [done|].
  rewrite IH by lia.
  apply list_lookup_insert_ne. lia.
Qed.

(** Once every internal node off the path from [pos] to the root is
    right, recombining along the path makes every internal node right. *)
Lemma recompute_inv (cap fuel pos : nat) (ns : list V) :
  length ns = 2 * cap -> pos < cap -> pos <= fuel ->
  (forall i, 1 <= i < cap -> (forall k, i <> pos / 2 ^ k) -> ok ns i) ->
  forall i, 1 <= i < cap -> ok (recompute identity combine fuel pos ns) i.
Proof.
  revert pos ns. induction fuel as [|fuel IH]; intros pos ns Hlen Hpos Hfuel Hoff.
  - cbn [recompute]. intros i Hi. apply Hoff; [done|]. intros k.
    replace pos with 0 by lia. rewrite Nat.Div0.div_0_l. lia.
  - cbn [recompute]. destruct (decide (pos = 0)) as [->|Hnz].
    + intros i Hi. apply Hoff; [done|]. intros k. rewrite Nat.Div0.div_0_l. lia.
    + apply IH.
      * by rewrite length_insert.
      * lia.
      * lia.
      * intros i Hi Hnot. unfold node_ok.
        destruct (decide (i = pos)) as [->|Hne].
        -- rewrite list_lookup_insert_eq by lia. simpl.
           by rewrite !list_lookup_insert_ne by lia.
        -- assert (2 * i <> pos /\ 2 * i + 1 <> pos) as [H1 H2].
           { pose proof (Hnot 0) as H0.
             rewrite Nat.pow_0_r, Nat.div_1_r in H0. lia. }
           rewrite !list_lookup_insert_ne by lia.
           apply Hoff; [done|]. intros [|k].
           ++ by rewrite Nat.pow_0_r, Nat.div_1_r.
           ++ specialize (Hnot k). rewrite Nat.Div0.div_div in Hnot.
              by rewrite Nat.pow_succ_r'.
Qed.

Lemma SegmentTree_new_inv (c : nat) (t : tree) :
  SegmentTree_new identity c = Return t ->
  capacity t = c /\ c <> 0 /\ c = 2 ^ Nat.log2 c /\ inv t /\
  forall i, nd t i = identity.
Proof.
  unfold SegmentTree_new. destruct (decide (c = 0)); [done|].
  destruct (is_power_of_two c) eqn:Hpow; [|done].
  intros [= <-].
  assert (Hnode : forall i, default identity (replicate (2 * c) identity !! i) = identity).
  { intros i. destruct (replicate _ _ !! i) eqn:Hi; [|done].
    by apply lookup_replicate_1 in Hi as [-> _]. }
  unfold tree_inv, node_ok, node. cbn [capacity nodes].
  split; [done|]. split; [done|].
  split; [by apply Nat.eqb_eq in Hpow|].
  split; [|exact Hnode].
  split; [by rewrite length_replicate|].
  intros i _. by rewrite !Hnode, combine_id_l.
Qed.

Lemma SegmentTree_set_spec (idx : nat) (v : V) (t : tree) :
  inv t -> idx < capacity t ->
  exists t', SegmentTree_set identity combine idx v t = Return t' /\
    capacity t' = capacity t /\ inv t' /\
    leaf identity t' idx = v /\
    forall j, j <> idx -> leaf identity t' j = leaf identity t j.
Proof.
  intros [Hlen Hok] Hidx. unfold SegmentTree_set.
  rewrite decide_True by done. eexists. split; [done|]. cbn [capacity nodes].
  set (pos := capacity t + idx).
  assert (Hhalf : pos / 2 < capacity t) by (subst pos; lia).
  split; [done|]. split; [split|split].
  - cbn [capacity nodes]. by rewrite length_recompute, length_insert.
  - cbn [capacity nodes]. apply recompute_inv.
    + by rewrite length_insert.
    + done.
    + lia.
    + intros i Hi Hnot. unfold node_ok.
      assert (2 * i <> pos /\ 2 * i + 1 <> pos) as [H1 H2].
      { pose proof (Hnot 0) as H0.
        rewrite Nat.pow_0_r, Nat.div_1_r in H0. lia. }
      rewrite !list_lookup_insert_ne by (subst pos; lia). by apply Hok.
  - unfold leaf, node. cbn [capacity nodes]. rewrite recompute_lookup_gt by (subst pos; lia).
    by rewrite list_lookup_insert_eq by (subst pos; lia).
  - intros j Hj. unfold leaf, node. cbn [capacity nodes].
    rewrite recompute_lookup_gt by (subst pos; lia).
    by rewrite list_lookup_insert_ne by (subst pos; lia).
Qed.

Lemma SegmentTree_set_out_of_range (idx : nat) (v : V) (t : tree) :
  capacity t <= idx -> SegmentTree_set identity combine idx v t = Raise IndexOutOfRange.
Proof. intros. unfold SegmentTree_set. by rewrite decide_False by lia. Qed.

Lemma SegmentTree_get_leaf (idx : nat) (t : tree) :
  idx < capacity t -> SegmentTree_get identity idx t = Return (leaf identity t idx).
Proof. intros. unfold SegmentTree_get. by rewrite decide_True. Qed.

End SegmentTreeFacts.

Section SegmentTreeQueries.
Context {V : Type} (identity : V) (combine : V -> V -> V).
Hypothesis combine_assoc : forall x y z,
  combine x (combine y z) = combine (combine x y) z.
Hypothesis combine_id_l : forall x, combine identity x = x.
Hypothesis combine_id_r : forall x, combine x identity = x.

Local Abbreviation tree := (SegmentTree V).
Local Abbreviation nd := (node identity).
Local Abbreviation inv := (tree_inv identity combine).
Local Abbreviation fold := (combine_list identity combine).

(** The nodes [[s, s + n)] of the array. *)
Local Abbreviation span t s n := (take n (drop s (nodes t))).

Lemma span_split (t : tree) (s n m : nat) :
  span t s (n + m) = span t s n ++ span t (s + n) m.
Proof. by rewrite <- take_take_drop, drop_drop. Qed.

Lemma fold_span_eq (t : tree) (s s' n n' : nat) :
  s = s' -> n = n' -> fold (span t s n) = fold (span t s' n').
Proof. by intros -> ->. Qed.

Lemma span_one (t : tree) (s : nat) :
  s < length (nodes t) -> span t s 1 = [nd t s].
Proof.
  intros Hs. unfold node.
  destruct (lookup_lt_is_Some_2 (nodes t) s Hs) as [x Hx]. rewrite Hx. simpl.
  rewrite <- (take_drop_middle _ _ _ Hx), drop_app_length'; [done|].
  rewrite length_take. lia.
Qed.

(** A node [k] levels above the leaves holds the combine of the [2 ^ k]
    leaves below it. *)
Lemma node_span (t : tree) (k i : nat) :
  inv t -> capacity t <= i * 2 ^ k -> (i + 1) * 2 ^ k <= 2 * capacity t ->
  nd t i = fold (span t (i * 2 ^ k) (2 ^ k)).
Proof.
  intros [Hlen Hok]. revert i. induction k as [|k IH]; intros i Hlo Hhi.
  - rewrite Nat.pow_0_r, Nat.mul_1_r in *.
    rewrite span_one by lia. unfold combine_list. simpl.
    by rewrite combine_id_r.
  - rewrite Nat.pow_succ_r' in *.
    pose proof (Nat.pow_nonzero 2 k ltac:(lia)) as Hp.
    set (p := 2 ^ k) in *.
    assert (Hi : 1 <= i < capacity t) by nia.
    pose proof (Hok i Hi) as Hnode. unfold node_ok in Hnode.
    unfold node at 1. rewrite Hnode. fold (nd t (2 * i)). fold (nd t (2 * i + 1)).
    rewrite (IH (2 * i)), (IH (2 * i + 1)) by nia.
    fold p. replace (2 * p) with (p + p) by lia.
    rewrite span_split, fold_app by done.
    f_equal; apply fold_span_eq; lia.
Qed.

(** The range query returns the combine of the leaves asked for. *)
Lemma reduce_span (t : tree) (k : nat) :
  inv t ->
  forall fuel lo hi i node_lo,
    k < fuel ->
    capacity t + node_lo = i * 2 ^ k -> (i + 1) * 2 ^ k <= 2 * capacity t ->
    node_lo <= lo -> lo <= hi -> hi <= node_lo + 2 ^ k - 1 ->
    reduce identity combine t fuel lo hi i node_lo (node_lo + 2 ^ k - 1) =
    fold (span t (capacity t + lo) (hi - lo + 1)).
Proof.
  intros Hinv. induction k as [|k IH];
    intros fuel lo hi i node_lo Hfuel Hnode Hhi Hlo Hle Hup;
    (destruct fuel as [|fuel]; [lia|]); cbn [reduce].
  - rewrite Nat.pow_0_r in *. rewrite decide_True by lia.
    rewrite (node_span t 0 i Hinv) by (rewrite Nat.pow_0_r; lia).
    rewrite Nat.pow_0_r. apply fold_span_eq; lia.
  - pose proof (Nat.pow_nonzero 2 k ltac:(lia)) as Hp.
    rewrite Nat.pow_succ_r' in *. set (p := 2 ^ k) in *.
    destruct (decide (lo = node_lo /\ hi = node_lo + 2 * p - 1)) as [[-> ->]|Hne].
    + rewrite (node_span t (S k) i Hinv) by (rewrite Nat.pow_succ_r'; fold p; lia).
      rewrite Nat.pow_succ_r'. fold p. apply fold_span_eq; lia.
    + assert (Hmid : (node_lo + (node_lo + 2 * p - 1)) / 2 = node_lo + p - 1) by lia.
      rewrite Hmid.
      assert (Hright : node_lo + 2 * p - 1 = (node_lo + p - 1 + 1) + p - 1) by lia.
      destruct (decide (hi <= node_lo + p - 1)) as [Hl|Hl].
      { apply IH; lia. }
      destruct (decide (node_lo + p - 1 + 1 <= lo)) as [Hr|Hr].
      { rewrite Hright. apply IH; lia. }
      rewrite Hright.
      rewrite (IH fuel lo (node_lo + p - 1) (2 * i) node_lo) by lia.
      rewrite (IH fuel (node_lo + p - 1 + 1) hi (2 * i + 1) (node_lo + p - 1 + 1)) by lia.
      replace (hi - lo + 1)
        with ((node_lo + p - 1 - lo + 1) + (hi - (node_lo + p - 1 + 1) + 1)) by lia.
      rewrite (span_split t (capacity t + lo) (node_lo + p - 1 - lo + 1)
                 (hi - (node_lo + p - 1 + 1) + 1)), fold_app by done.
      f_equal; apply fold_span_eq; lia.
Qed.

Lemma range_combine_span (t : tree) (h : nat) (lo hi : nat) :
  inv t -> capacity t = 2 ^ h -> lo <= hi -> hi < capacity t ->
  range_combine identity combine (Z.of_nat lo) (Z.of_nat hi) t =
  Return (fold (span t (capacity t + lo) (hi - lo + 1))).
Proof.
  intros Hinv Hcap Hle Hhi. unfold range_combine.
  rewrite decide_False by lia. rewrite decide_True by lia.
  rewrite !Nat2Z.id. f_equal.
  assert (Hh : h < 2 ^ h) by (apply Nat.pow_gt_lin_r; lia).
  replace (capacity t - 1) with (0 + 2 ^ h - 1) by lia.
  apply reduce_span; rewrite ?Hcap; (done || lia).
Qed.

(** The whole-tree query reads the root. *)
Lemma combine_all_root (t : tree) :
  capacity t <> 0 ->
  combine_all identity combine t = Return (nd t 1).
Proof.
  intros Hcap. unfold combine_all, range_combine.
  rewrite decide_False by lia. rewrite decide_True by lia.
  cbn [reduce]. rewrite decide_True; [done|]. lia.
Qed.

Lemma root_leaves (t : tree) (h : nat) :
  inv t -> capacity t = 2 ^ h ->
  nd t 1 = fold (leaves t).
Proof.
  intros Hinv Hcap. unfold leaves.
  rewrite (node_span t h 1 Hinv) by (rewrite Hcap; lia).
  by rewrite Nat.mul_1_l, <- Hcap.
Qed.

End SegmentTreeQueries.


(** ** The sum tree and the min tree *)

Lemma Rplus_assoc' (x y z : R) : (x + (y + z) = x + y + z)%R.
Proof. lra. Qed.

Lemma emin_assoc (x y z : ereal) : emin x (emin y z) = emin (emin x y) z.
Proof.
  destruct x as [a|], y as [b|], z as [c|]; simpl; try done.
  by rewrite Rmin_assoc.
Qed.

Lemma emin_id_l (x : ereal) : emin PInf x = x.
Proof. done. Qed.

Lemma emin_id_r (x : ereal) : emin x PInf = x.
Proof. by destruct x. Qed.

Lemma ele_refl (x : ereal) : ele x x.
Proof. destruct x; simpl; [lra | done]. Qed.

Lemma ele_trans (x y z : ereal) : ele x y -> ele y z -> ele x z.
Proof. destruct x, y, z; simpl; try done. lra. Qed.

Lemma emin_le_l (x y : ereal) : ele (emin x y) x.
Proof.
  destruct x as [a|], y as [b|]; simpl; try done; try lra. apply Rmin_l.
Qed.

Lemma emin_le_r (x y : ereal) : ele (emin x y) y.
Proof.
  destruct x as [a|], y as [b|]; simpl; try done; try lra. apply Rmin_r.
Qed.

(** The min of a list is below each of its elements. *)
Lemma emin_list_le (vs : list ereal) (v : ereal) :
  v ∈ vs -> ele (combine_list PInf emin vs) v.
Proof.
  induction 1 as [v vs|v w vs _ IH]; simpl.
  - apply emin_le_l.
  - eapply ele_trans; [apply emin_le_r | apply IH].
Qed.

(** The min of a list is one of its elements, or [inf]. *)
Lemma emin_list_cases (vs : list ereal) :
  combine_list PInf emin vs = PInf \/ combine_list PInf emin vs ∈ vs.
Proof.
  unfold combine_list. induction vs as [|v vs IH]; simpl; [by left|].
  destruct IH as [IH|IH].
  - rewrite IH, emin_id_r. right. apply list_elem_of_here.
  - right. destruct v as [a|], (foldr emin PInf vs) as [b|]; simpl.
    + unfold Rmin. destruct (Rle_dec a b); [apply list_elem_of_here|].
      by apply list_elem_of_further.
    + apply list_elem_of_here.
    + by apply list_elem_of_further.
    + by apply list_elem_of_further.
Qed.

(** The sum of non-negative numbers is non-negative, and at least each of
    them. *)
Lemma sum_list_nonneg (vs : list R) :
  Forall (fun v => 0 <= v)%R vs -> (0 <= combine_list 0%R Rplus vs)%R.
Proof. induction 1; simpl; [lra|]. unfold combine_list in *. lra. Qed.

Lemma sum_list_ge (vs : list R) (v : R) :
  Forall (fun v => 0 <= v)%R vs -> v ∈ vs -> (v <= combine_list 0%R Rplus vs)%R.
Proof.
  intros Hall Hin. induction Hin as [v vs|v w vs _ IH]; simpl.
  - apply Forall_cons in Hall as [_ Hvs].
    pose proof (sum_list_nonneg vs Hvs). unfold combine_list in *. lra.
  - apply Forall_cons in Hall as [Hw Hvs]. specialize (IH Hvs).
    unfold combine_list in *. lra.
Qed.

Lemma sum_list_zeros (vs : list R) :
  Forall (fun v => v = 0%R) vs -> combine_list 0%R Rplus vs = 0%R.
Proof. induction 1; simpl; [done|]. unfold combine_list in *. lra. Qed.

Section Leaves.
Context {V : Type} (identity : V).

Lemma leaves_lookup (t : SegmentTree V) (i : nat) :
  length (nodes t) = 2 * capacity t -> i < capacity t ->
  leaves t !! i = Some (leaf identity t i).
Proof.
  intros Hlen Hi. unfold leaves, leaf, node.
  rewrite lookup_take_lt, lookup_drop by done.
  destruct (lookup_lt_is_Some_2 (nodes t) (capacity t + i)) as [x ->]; [lia|done].
Qed.

Lemma length_leaves (t : SegmentTree V) :
  length (nodes t) = 2 * capacity t -> length (leaves t) = capacity t.
Proof. intros Hlen. unfold leaves. rewrite length_take, length_drop. lia. Qed.

Lemma elem_of_leaves (t : SegmentTree V) (v : V) :
  length (nodes t) = 2 * capacity t ->
  v ∈ leaves t <-> exists i, i < capacity t /\ leaf identity t i = v.
Proof.
  intros Hlen. rewrite list_elem_of_lookup. split.
  - intros [i Hi]. exists i.
    assert (i < capacity t).
    { apply lookup_lt_Some in Hi. by rewrite length_leaves in Hi. }
    split; [done|]. rewrite leaves_lookup in Hi by done. by injection Hi.
  - intros (i & Hi & <-). exists i. by apply leaves_lookup.
Qed.

End Leaves.

(** The prefix-sum descent stops at a leaf whose value exceeds what is
    left of the target: a leaf with a positive value. *)
Lemma descend_positive_leaf (t : SumSegmentTree) (fuel i : nat) (target : R) :
  tree_inv 0%R Rplus t ->
  1 <= i < 2 * capacity t -> capacity t <= i * 2 ^ fuel ->
  (0 <= target < node 0%R t i)%R ->
  capacity t <= descend t fuel i target < 2 * capacity t /\
  (0 < node 0%R t (descend t fuel i target))%R.
Proof.
  intros [Hlen Hok]. revert i target.
  induction fuel as [|fuel IH]; intros i target Hi Hfuel Htarget; cbn [descend].
  - rewrite Nat.pow_0_r in Hfuel. split; [lia|lra].
  - rewrite Nat.pow_succ_r' in Hfuel.
    destruct (decide (i < capacity t)) as [Hint|Hleaf]; [|split; [lia|lra]].
    pose proof (Hok i ltac:(lia)) as Hnode. unfold node_ok in Hnode.
    fold (node 0%R t i) in Hnode. fold (node 0%R t (2 * i)) in Hnode.
    fold (node 0%R t (2 * i + 1)) in Hnode.
    destruct (Rlt_dec target (node 0%R t (2 * i))) as [Hlt|Hge].
    + apply IH; [lia|nia|lra].
    + apply IH; [lia|nia|lra].
Qed.

(** ** Float arithmetic *)

Lemma fpow_positive_base (x y : R) :
  (0 < x)%R -> fpow x y = Return (Rpower x y).
Proof. intros Hx. unfold fpow. by destruct (Rlt_dec 0 x). Qed.

Lemma Rpower_positive (x y : R) : (0 < Rpower x y)%R.
Proof. unfold Rpower. apply exp_pos. Qed.

(** [x ** -0.0] is 1 for every float [x]. *)
Lemma fpow_zero_exponent (x : R) : fpow x (- 0)%R = Return 1%R.
Proof.
  assert (Hp : Rpower x (- 0) = 1%R).
  { unfold Rpower. by rewrite Ropp_0, Rmult_0_l, exp_0. }
  unfold fpow. destruct (Rlt_dec 0 x); [by rewrite Hp|].
  destruct (Req_dec_T x 0); [|by rewrite Hp].
  destruct (Req_dec_T (- 0) 0) as [_|Hne]; [done|]. exfalso. apply Hne. lra.
Qed.

Lemma fdiv_nonzero (x y : R) : y <> 0%R -> fdiv x y = Return (x / y)%R.
Proof. intros Hy. unfold fdiv. by destruct (Req_dec_T y 0). Qed.


(** ** The prioritized buffer keeps its invariant *)

Section PrioritizedSteps.
Context {T : Type}.
Implicit Types (self : PrioritizedExperienceReplay T).

Lemma st_capacity_loop_spec (fuel k max_size : nat) :
  max_size <= 2 ^ k * 2 ^ fuel ->
  exists h, st_capacity_loop fuel (2 ^ k) max_size = 2 ^ h /\
            max_size <= 2 ^ h.
Proof.
  revert k. induction fuel as [|fuel IH]; intros k Hle; cbn [st_capacity_loop].
  - exists k. rewrite Nat.pow_0_r in Hle. split; [done|lia].
  - destruct (decide (2 ^ k < max_size)) as [Hlt|Hge]; [|exists k; split; [done|lia]].
    rewrite Nat.pow_succ_r' in Hle.
    replace (2 ^ k * 2) with (2 ^ S k) by (rewrite Nat.pow_succ_r'; lia).
    apply IH. rewrite Nat.pow_succ_r'. lia.
Qed.

Lemma power_of_two_is_power_of_two (h : nat) : is_power_of_two (2 ^ h) = true.
Proof.
  unfold is_power_of_two. apply Nat.eqb_eq. by rewrite Nat.log2_pow2 by lia.
Qed.

(** Construction succeeds, and the new buffer satisfies the invariant. *)
Lemma PrioritizedExperienceReplay_init_inv (m : nat) (alpha beta : R) :
  1 <= m ->
  exists self,
    PrioritizedExperienceReplay_init (T := T) m alpha beta = Return self /\
    per_inv self /\ base self = ExperienceReplay_init m /\
    _alpha self = alpha /\ _beta self = beta /\ _max_priority self = 1%R.
Proof.
  intros Hmax. unfold PrioritizedExperienceReplay_init.
  destruct (st_capacity_loop_spec m 0 m) as (h & Hcap & Hle).
  { rewrite Nat.pow_0_r, Nat.mul_1_l.
    pose proof (Nat.pow_gt_lin_r 2 m ltac:(lia)). lia. }
  rewrite Nat.pow_0_r in Hcap. rewrite Hcap.
  pose proof (Nat.pow_nonzero 2 h ltac:(lia)) as Hnz.
  destruct (SegmentTree_new 0%R (2 ^ h)) as [ts|e] eqn:Hts.
  2: { unfold SegmentTree_new in Hts. rewrite decide_False in Hts by done.
       by rewrite power_of_two_is_power_of_two in Hts. }
  destruct (SegmentTree_new PInf (2 ^ h)) as [tm|e] eqn:Htm.
  2: { unfold SegmentTree_new in Htm. rewrite decide_False in Htm by done.
       by rewrite power_of_two_is_power_of_two in Htm. }
  unfold SumSegmentTree_new, MinSegmentTree_new, mbind, outcome_bind.
  rewrite Hts. cbn [obind]. rewrite Htm. cbn [obind].
  eexists. split; [done|]. split; [|done].
  apply (SegmentTree_new_inv 0%R Rplus Rplus_0_l) in Hts
    as (Hcs & _ & _ & Hinvs & Hnodes).
  apply (SegmentTree_new_inv PInf emin emin_id_l) in Htm
    as (Hcm & _ & _ & Hinvm & Hnodem).
  split; cbn [base _st_sum _st_min _max_priority max_size size ExperienceReplay_init].
  - done.
  - exists []. apply store_after_init.
  - exists h. by rewrite Hcs.
  - by rewrite Hcs, Hcm.
  - by rewrite Hcs.
  - done.
  - done.
  - intros i Hi. lia.
  - intros i _. unfold sum_leaf, min_leaf, leaf. cbn [_st_sum _st_min].
    by rewrite Hnodes, Hnodem.
  - lra.
Qed.

(** Facts about the cursor that the tree updates rely on. *)
Lemma store_after_cursor (C : nat) (xs : list T) (x : T)
    (b b' : ExperienceReplay T) :
  1 <= C -> store_after C xs b -> store_after C (xs ++ [x]) b' ->
  _current_idx b < C /\ _current_idx b < size b' /\
  size b <= size b' <= C /\
  (forall i, i < size b' -> i <> _current_idx b -> i < size b).
Proof.
  intros HC H H'.
  rewrite (after_idx _ _ _ H), (after_size _ _ _ H), (after_size _ _ _ H').
  rewrite length_app. simpl length.
  destruct (decide (length xs < C)) as [Hlt|Hge].
  - rewrite Nat.mod_small by done. repeat split; intros; lia.
  - pose proof (Nat.mod_upper_bound (length xs) C ltac:(lia)).
    set (m := length xs mod C) in *. clearbody m. repeat split; intros; lia.
Qed.

(** A successful insert: the store inserts, then leaf [idx] of the min
    tree and of the sum tree is set to [max_priority ** alpha]. *)
Lemma prioritized_add_spec (x : T) self :
  per_inv self ->
  exists b' ts' tm',
    add_transition x (base self) = (b', Return tt) /\
    sum_set (_current_idx (base self))
      (Rpower (_max_priority self) (_alpha self)) (_st_sum self) = Return ts' /\
    min_set (_current_idx (base self))
      (Fin (Rpower (_max_priority self) (_alpha self))) (_st_min self) = Return tm' /\
    prioritized_add_transition x self =
      ({| base := b'; _alpha := _alpha self; _beta := _beta self;
          _max_priority := _max_priority self;
          _st_sum := ts'; _st_min := tm' |}, Return tt) /\
    per_inv {| base := b'; _alpha := _alpha self; _beta := _beta self;
               _max_priority := _max_priority self;
               _st_sum := ts'; _st_min := tm' |}.
Proof.
  intros Hinv. destruct Hinv as [HC [xs Hstore] [h Hcap] Hcapm Hcapmax Hsum Hmin Hocc Hun Hmp].
  set (C := max_size (base self)) in *.
  destruct (store_after_step C xs (base self) x HC Hstore) as (b' & Hadd & Hstore').
  destruct (store_after_cursor C xs x (base self) b' HC Hstore Hstore')
    as (Hcur & Hcur' & Hsz & Hother).
  set (idx := _current_idx (base self)) in *.
  set (p := Rpower (_max_priority self) (_alpha self)).
  destruct (SegmentTree_set_spec 0%R Rplus idx p (_st_sum self) Hsum ltac:(lia))
    as (ts' & Hts & Hcs & Hinvs & Hleaf_s & Hrest_s).
  destruct (SegmentTree_set_spec PInf emin idx (Fin p) (_st_min self) Hmin ltac:(lia))
    as (tm' & Htm & Hcm & Hinvm & Hleaf_m & Hrest_m).
  exists b', ts', tm'. split; [done|]. split; [done|]. split; [done|].
  assert (Hpow : fpow (_max_priority self) (_alpha self) = Return p).
  { apply fpow_positive_base. lra. }
  split.
  - unfold prioritized_add_transition. py_unfold. unfold super.
    rewrite Hadd. cbn. rewrite Hpow.
    unfold setitem_min, setitem_sum, min_set, sum_set. cbn.
    fold idx. rewrite Htm. cbn. by rewrite Hts.
  - pose proof (after_max_size _ _ _ Hstore') as Hmax'.
    split; cbn [base _st_sum _st_min _max_priority].
    + by rewrite Hmax'.
    + exists (xs ++ [x]). by rewrite Hmax'.
    + exists h. by rewrite Hcs.
    + by rewrite Hcs, Hcm.
    + rewrite Hmax', Hcs. done.
    + done.
    + done.
    + intros i Hi. unfold sum_leaf, min_leaf. cbn [_st_sum _st_min].
      destruct (decide (i = idx)) as [->|Hne].
      * rewrite Hleaf_s, Hleaf_m. split; [apply Rpower_positive | done].
      * rewrite Hrest_s, Hrest_m by done. apply Hocc. by apply Hother.
    + intros i Hi. unfold sum_leaf, min_leaf. cbn [_st_sum _st_min].
      rewrite Hcs in Hi.
      rewrite Hrest_s, Hrest_m by lia. apply Hun. lia.
    + done.
Qed.

(** One pair of [update_priorities] that passes both assertions. *)
Lemma update_priority_valid (idx : Z) (priority : R) self :
  per_inv self ->
  (0 < priority)%R -> (0 <= idx < Z.of_nat (size (base self)))%Z ->
  exists ts' tm',
    sum_set (Z.to_nat idx) (Rpower priority (_alpha self)) (_st_sum self) = Return ts' /\
    min_set (Z.to_nat idx) (Fin (Rpower priority (_alpha self))) (_st_min self) = Return tm' /\
    update_priority (idx, priority) self =
      ({| base := base self; _alpha := _alpha self; _beta := _beta self;
          _max_priority := Rmax (_max_priority self) priority;
          _st_sum := ts'; _st_min := tm' |}, Return tt) /\
    per_inv {| base := base self; _alpha := _alpha self; _beta := _beta self;
               _max_priority := Rmax (_max_priority self) priority;
               _st_sum := ts'; _st_min := tm' |}.
Proof.
  intros Hinv Hp Hidx.
  destruct Hinv as [HC [xs Hstore] [h Hcap] Hcapm Hcapmax Hsum Hmin Hocc Hun Hmp].
  assert (Hsize : size (base self) <= max_size (base self)).
  { rewrite (after_size _ _ _ Hstore). lia. }
  set (i := Z.to_nat idx). set (p := Rpower priority (_alpha self)).
  assert (Hi : i < size (base self)) by (subst i; lia).
  destruct (SegmentTree_set_spec 0%R Rplus i p (_st_sum self) Hsum ltac:(lia))
    as (ts' & Hts & Hcs & Hinvs & Hleaf_s & Hrest_s).
  destruct (SegmentTree_set_spec PInf emin i (Fin p) (_st_min self) Hmin ltac:(lia))
    as (tm' & Htm & Hcm & Hinvm & Hleaf_m & Hrest_m).
  exists ts', tm'. split; [done|]. split; [done|].
  assert (Hpow : fpow priority (_alpha self) = Return p).
  { by apply fpow_positive_base. }
  split.
  - unfold update_priority. py_unfold.
    destruct (Rlt_dec 0 priority) as [_|?]; [|done].
    rewrite decide_True by done. cbn. rewrite Hpow.
    unfold setitem_sum, setitem_min, min_set, sum_set. fold i.
    rewrite Hts. cbn. by rewrite Htm.
  - split; cbn [base _st_sum _st_min _max_priority].
    + done.
    + by exists xs.
    + exists h. by rewrite Hcs.
    + by rewrite Hcs, Hcm.
    + by rewrite Hcs.
    + done.
    + done.
    + intros j Hj. unfold sum_leaf, min_leaf. cbn [_st_sum _st_min].
      destruct (decide (j = i)) as [->|Hne].
      * rewrite Hleaf_s, Hleaf_m. split; [apply Rpower_positive | done].
      * rewrite Hrest_s, Hrest_m by done. by apply Hocc.
    + intros j Hj. unfold sum_leaf, min_leaf. cbn [_st_sum _st_min].
      rewrite Hcs in Hj.
      rewrite Hrest_s, Hrest_m by lia. apply Hun. lia.
    + pose proof (Rmax_l (_max_priority self) priority). lra.
Qed.

(** One pair that fails an assertion: the buffer is left as it is. *)
Lemma update_priority_invalid (idx : Z) (priority : R) self :
  ~ ((0 < priority)%R /\ (0 <= idx < Z.of_nat (size (base self)))%Z) ->
  update_priority (idx, priority) self = (self, Raise AssertionError).
Proof.
  intros Hbad. unfold update_priority. py_unfold.
  destruct (Rlt_dec 0 priority) as [Hp|?]; [|done].
  by rewrite decide_False by tauto.
Qed.

Lemma update_priority_inv (pair : Z * R) self self' (r : outcome unit) :
  per_inv self -> update_priority pair self = (self', r) ->
  per_inv self' /\ size (base self') = size (base self).
Proof.
  intros Hinv Hrun. destruct pair as [idx priority].
  destruct (Rlt_dec 0 priority) as [Hp|Hp].
  - destruct (decide (0 <= idx < Z.of_nat (size (base self)))%Z) as [Hidx|Hidx].
    + destruct (update_priority_valid idx priority self Hinv Hp Hidx)
        as (ts' & tm' & _ & _ & Heq & Hinv').
      rewrite Heq in Hrun. by injection Hrun as <- _.
    + rewrite update_priority_invalid in Hrun by tauto. by injection Hrun as <- _.
  - rewrite update_priority_invalid in Hrun by tauto. by injection Hrun as <- _.
Qed.

Lemma update_priorities_inv (pairs : list (Z * R)) self self' (r : outcome unit) :
  per_inv self -> for_each pairs update_priority self = (self', r) ->
  per_inv self' /\ size (base self') = size (base self).
Proof.
  revert self. induction pairs as [|pair pairs IH]; intros self Hinv Hrun.
  - cbn in Hrun. by injection Hrun as <- _.
  - cbn [for_each] in Hrun. unfold mbind, py_bind in Hrun.
    destruct (update_priority pair self) as [s1 [[]|e]] eqn:Hstep.
    + destruct (update_priority_inv pair self s1 _ Hinv Hstep) as [Hinv1 Hsz1].
      destruct (IH s1 Hinv1 Hrun) as [Hinv' Hsz']. split; [done|congruence].
    + injection Hrun as <- _. by apply (update_priority_inv pair self s1 (Raise e)).
Qed.

(** Every state the buffer goes through satisfies the invariant. *)
Lemma reachable_inv self : reachable self -> per_inv self.
Proof.
  induction 1 as [m alpha beta self Hm Hinit
                 |self x self' r _ IH Hadd
                 |self indices priorities self' r _ IH Hupd
                 |self beta self' r _ IH Hbeta].
  - destruct (PrioritizedExperienceReplay_init_inv m alpha beta Hm)
      as (s & Heq & Hinv & _).
    rewrite Heq in Hinit. by injection Hinit as <-.
  - destruct (prioritized_add_spec x self IH) as (b' & ts' & tm' & _ & _ & _ & Heq & Hinv).
    rewrite Heq in Hadd. by injection Hadd as <- _.
  - by apply (update_priorities_inv _ _ _ _ IH Hupd).
  - unfold update_beta, modify in Hbeta. injection Hbeta as <- _.
    by destruct IH.
Qed.

End PrioritizedSteps.


(** ** The two small buffers *)

Lemma fresh_buffer_init :
  PrioritizedExperienceReplay_init 2 1 1 = Return fresh_buffer.
Proof. reflexivity. Qed.

Lemma fresh_buffer_reachable : reachable fresh_buffer.
Proof. apply (reach_init 2 1%R 1%R); [lia | apply fresh_buffer_init]. Qed.

Lemma one_transition_buffer_reachable : reachable one_transition_buffer.
Proof.
  eapply reach_add; [apply fresh_buffer_reachable|].
  unfold one_transition_buffer. apply surjective_pairing.
Qed.

Lemma one_transition_buffer_fields :
  base one_transition_buffer =
    {| _transitions := [10; 10]; _current_idx := 1; size := 1; max_size := 2 |} /\
  _max_priority one_transition_buffer = 1%R /\
  _alpha one_transition_buffer = 1%R /\
  _beta one_transition_buffer = 1%R.
Proof.
  destruct (prioritized_add_spec 10 fresh_buffer (reachable_inv _ fresh_buffer_reachable))
    as (b' & ts' & tm' & Hadd & _ & _ & Heq & _).
  unfold one_transition_buffer. rewrite Heq. cbn [fst base _max_priority _alpha _beta].
  cbv in Hadd. by injection Hadd as <-.
Qed.

(** ** Inserts into the prioritized buffer *)

Section GetFacts.
Context {V : Type} (identity : V).

Lemma SegmentTree_get_same (t t' : SegmentTree V) (j : nat) :
  capacity t' = capacity t -> leaf identity t' j = leaf identity t j ->
  SegmentTree_get identity j t' = SegmentTree_get identity j t.
Proof.
  intros Hcap Hleaf. unfold SegmentTree_get. rewrite Hcap.
  destruct (decide _); [|done]. f_equal. unfold leaf in Hleaf.
  by rewrite Hcap in Hleaf.
Qed.

End GetFacts.

(** C3.  An insert into the prioritized buffer succeeds and writes one leaf
    of the sum tree and one leaf of the min tree, both at the slot index
    the store wrote the transition to (the write cursor before the insert),
    both set to [max_priority ** alpha]; every other leaf of either tree
    reads as before. *)
Theorem prioritized_add_writes_one_leaf {T : Type} (x : T)
    (self : PrioritizedExperienceReplay T) :
  per_inv self ->
  exists self' p,
    prioritized_add_transition x self = (self', Return tt) /\
    fpow (_max_priority self) (_alpha self) = Return p /\
    _transitions (base self') !! _current_idx (base self) = Some x /\
    sum_get (_current_idx (base self)) (_st_sum self') = Return p /\
    min_get (_current_idx (base self)) (_st_min self') = Return (Fin p) /\
    forall j, j <> _current_idx (base self) ->
      sum_get j (_st_sum self') = sum_get j (_st_sum self) /\
      min_get j (_st_min self') = min_get j (_st_min self).
Proof.
  intros Hinv.
  destruct (prioritized_add_spec x self Hinv)
    as (b' & ts' & tm' & Hadd & Hts & Htm & Heq & Hinv').
  destruct Hinv as [HC [xs Hstore] [h Hcap] Hcapm Hcapmax Hsum Hmin Hocc Hun Hmp].
  pose proof (store_after_ready _ xs _ HC Hstore) as Hready.
  assert (Hcur : _current_idx (base self) < max_size (base self)) by apply Hready.
  destruct (SegmentTree_set_spec 0%R Rplus (_current_idx (base self))
              (Rpower (_max_priority self) (_alpha self))
              (_st_sum self) Hsum ltac:(lia))
    as (ts & Hts2 & Hcs & _ & Hleaf_s & Hrest_s).
  destruct (SegmentTree_set_spec PInf emin (_current_idx (base self))
              (Fin (Rpower (_max_priority self) (_alpha self)))
              (_st_min self) Hmin ltac:(lia))
    as (tm & Htm2 & Hcm & _ & Hleaf_m & Hrest_m).
  unfold sum_set in Hts. unfold min_set in Htm.
  rewrite Hts in Hts2. injection Hts2 as <-.
  rewrite Htm in Htm2. injection Htm2 as <-.
  eexists _, (Rpower (_max_priority self) (_alpha self)).
  split; [exact Heq|]. cbn [base _st_sum _st_min].
  split; [apply fpow_positive_base; lra|].
  split.
  { rewrite (add_transition_ready x (base self) Hready) in Hadd.
    injection Hadd as <-. cbn [_transitions].
    apply list_lookup_insert_eq.
    destruct (decide (size (base self) = 0)); [by rewrite length_replicate|].
    destruct Hready as (_ & _ & [?|Hlen]); [lia | by rewrite Hlen]. }
  split; [|split].
  - unfold sum_get. rewrite SegmentTree_get_leaf by lia. by rewrite Hleaf_s.
  - unfold min_get. rewrite SegmentTree_get_leaf by lia. by rewrite Hleaf_m.
  - intros j Hj. split.
    + apply SegmentTree_get_same; [done | by apply Hrest_s].
    + apply SegmentTree_get_same; [done | by apply Hrest_m].
Qed.

Lemma prioritized_add_writes_one_leaf_witness :
  exists self' p,
    prioritized_add_transition 11 one_transition_buffer = (self', Return tt) /\
    fpow (_max_priority one_transition_buffer) (_alpha one_transition_buffer) = Return p /\
    _transitions (base self') !! _current_idx (base one_transition_buffer) = Some 11 /\
    sum_get (_current_idx (base one_transition_buffer)) (_st_sum self') = Return p /\
    min_get (_current_idx (base one_transition_buffer)) (_st_min self') = Return (Fin p) /\
    forall j, j <> _current_idx (base one_transition_buffer) ->
      sum_get j (_st_sum self') = sum_get j (_st_sum one_transition_buffer) /\
      min_get j (_st_min self') = min_get j (_st_min one_transition_buffer).
Proof.
  apply (prioritized_add_writes_one_leaf 11 one_transition_buffer).
  apply reachable_inv, one_transition_buffer_reachable.
Defined.

(** ** The running maximum of the priorities *)

Section MaxPriority.
Context {T : Type}.
Implicit Types (self : PrioritizedExperienceReplay T).

Lemma setitem_sum_max_priority (idx : nat) (v : R) self :
  _max_priority (setitem_sum idx v self).1 = _max_priority self.
Proof. unfold setitem_sum. by destruct (sum_set idx v (_st_sum self)). Qed.

Lemma setitem_min_max_priority (idx : nat) (v : R) self :
  _max_priority (setitem_min idx v self).1 = _max_priority self.
Proof. unfold setitem_min. by destruct (min_set idx (Fin v) (_st_min self)). Qed.

Lemma prioritized_add_max_priority (x : T) self :
  _max_priority (prioritized_add_transition x self).1 = _max_priority self.
Proof.
  unfold prioritized_add_transition. py_unfold. unfold super.
  destruct (add_transition x (base self)) as [b [[]|e]]; [|done].
  destruct (fpow (_max_priority self) (_alpha self)) as [p|e]; [|done].
  pose proof (setitem_min_max_priority (_current_idx (base self)) p (set_base b self)) as Hmin.
  destruct (setitem_min _ p (set_base b self)) as [s1 [[]|e]]; [|done].
  pose proof (setitem_sum_max_priority (_current_idx (base self)) p s1) as Hsum.
  destruct (setitem_sum _ p s1) as [s2 r]. cbn in *. congruence.
Qed.

(** One pair: [max_priority] becomes [max(max_priority, priority)] when
    the pair is processed, and stays as it is when the iteration raises. *)
Lemma update_priority_max_priority (pair : Z * R) self :
  _max_priority (update_priority pair self).1 =
    match (update_priority pair self).2 with
    | Return _ => Rmax (_max_priority self) pair.2
    | Raise _ => _max_priority self
    end.
Proof.
  destruct pair as [idx priority]. unfold update_priority. py_unfold.
  destruct (Rlt_dec 0 priority); [|done].
  destruct (decide _); [|done]. cbn.
  destruct (fpow priority (_alpha self)) as [p|e]; [|done].
  pose proof (setitem_sum_max_priority (Z.to_nat idx) p self) as Hsum.
  destruct (setitem_sum _ p self) as [s1 [[]|e]]; [|done].
  pose proof (setitem_min_max_priority (Z.to_nat idx) p s1) as Hmin.
  destruct (setitem_min _ p s1) as [s2 [[]|e]]; cbn in *; [done|congruence].
Qed.

Lemma foldl_Rmax_le (ps : list R) (m : R) : (m <= foldl Rmax m ps)%R.
Proof.
  revert m. induction ps as [|p ps IH]; intros m; simpl; [lra|].
  pose proof (IH (Rmax m p)). pose proof (Rmax_l m p). lra.
Qed.

Lemma update_priorities_max_priority (pairs : list (Z * R)) self :
  (_max_priority self <= _max_priority (for_each pairs update_priority self).1)%R /\
  ((for_each pairs update_priority self).2 = Return tt ->
   _max_priority (for_each pairs update_priority self).1 =
     foldl Rmax (_max_priority self) pairs.*2).
Proof.
  revert self. induction pairs as [|pair pairs IH]; intros self.
  - cbn. split; [lra|done].
  - cbn [for_each]. unfold mbind, py_bind.
    pose proof (update_priority_max_priority pair self) as Hstep.
    destruct (update_priority pair self) as [s1 [[]|e]]; cbn in Hstep.
    + destruct (IH s1) as [Hle Heq]. rewrite Hstep in Hle, Heq.
      split; [|exact Heq].
      pose proof (Rmax_l (_max_priority self) pair.2). lra.
    + cbn. split; [lra|done].
Qed.

End MaxPriority.

(** C6.  [_max_priority] never decreases.  An insert leaves it as it is,
    whether it returns or raises, and so does [update_beta]; [sample] is a
    function of the state and leaves no state behind.  A call of
    [update_priorities] never lowers it, also when the call raises, and a
    call that returns sets it to the maximum of its old value and the
    priorities supplied (those paired with an index by [zip]). *)
Theorem max_priority_monotone {T : Type} (self : PrioritizedExperienceReplay T) :
  (forall x, _max_priority (prioritized_add_transition x self).1 = _max_priority self) /\
  (forall beta, _max_priority (update_beta beta self).1 = _max_priority self) /\
  (forall indices priorities,
     (_max_priority self <=
        _max_priority (update_priorities indices priorities self).1)%R /\
     ((update_priorities indices priorities self).2 = Return tt ->
      _max_priority (update_priorities indices priorities self).1 =
        foldl Rmax (_max_priority self) (zip indices priorities).*2)).
Proof.
  split; [|split].
  - intros x. apply prioritized_add_max_priority.
  - done.
  - intros indices priorities. apply update_priorities_max_priority.
Qed.

Lemma update_priorities_one_valid :
  (update_priorities [0%Z] [3%R] one_transition_buffer).2 = Return tt.
Proof.
  pose proof (reachable_inv _ one_transition_buffer_reachable) as Hinv.
  destruct one_transition_buffer_fields as (Hbase & _).
  destruct (update_priority_valid 0 3 one_transition_buffer Hinv)
    as (ts' & tm' & _ & _ & Heq & _); [lra | rewrite Hbase; simpl; lia |].
  unfold update_priorities. cbn [zip zip_with for_each].
  unfold mbind, py_bind. by rewrite Heq.
Qed.

Lemma max_priority_monotone_witness :
  _max_priority (update_priorities [0%Z] [3%R] one_transition_buffer).1 =
    foldl Rmax (_max_priority one_transition_buffer) (zip [0%Z] [3%R]).*2.
Proof.
  apply (max_priority_monotone one_transition_buffer).
  apply update_priorities_one_valid.
Defined.

(** ** Failing calls of update_priorities *)

Section UpdateFailure.
Context {T : Type}.
Implicit Types (self : PrioritizedExperienceReplay T).

Lemma valid_pair_dec self (pair : Z * R) :
  {valid_pair self pair} + {~ valid_pair self pair}.
Proof.
  unfold valid_pair. destruct (Rlt_dec 0 pair.2); [|right; tauto].
  destruct (decide (0 <= pair.1 < Z.of_nat (size (base self)))%Z);
    [left | right]; tauto.
Qed.

Lemma first_invalid_pair self (pairs : list (Z * R)) :
  Exists (fun p => ~ valid_pair self p) pairs ->
  exists good bad rest,
    pairs = good ++ bad :: rest /\
    Forall (valid_pair self) good /\ ~ valid_pair self bad.
Proof.
  induction 1 as [p l Hp|p l _ IH].
  - exists [], p, l. by repeat split.
  - destruct (valid_pair_dec self p) as [Hv|Hv].
    + destruct IH as (good & bad & rest & Heq & Hgood & Hbad).
      exists (p :: good), bad, rest. rewrite Heq.
      repeat split; [|done]. by constructor.
    + exists [], p, l. by repeat split.
Qed.

(** The pairs up to the first one that fails an assertion are processed;
    the call then raises, and what was processed stays. *)
Lemma update_priorities_first_invalid (good : list (Z * R)) (bad : Z * R)
    (rest : list (Z * R)) self :
  per_inv self ->
  Forall (valid_pair self) good -> ~ valid_pair self bad ->
  exists self',
    for_each good update_priority self = (self', Return tt) /\
    for_each (good ++ bad :: rest) update_priority self =
      (self', Raise AssertionError).
Proof.
  intros Hinv Hgood Hbad. revert self Hinv Hgood Hbad.
  induction good as [|[idx priority] good IH]; intros self Hinv Hgood Hbad.
  - exists self. split; [done|]. cbn [app for_each]. unfold mbind, py_bind.
    destruct bad as [idx priority].
    by rewrite update_priority_invalid.
  - apply Forall_cons in Hgood as [[Hp Hidx] Hgood]. cbn [fst snd] in Hp, Hidx.
    destruct (update_priority_valid idx priority self Hinv Hp Hidx)
      as (ts' & tm' & _ & _ & Heq & Hinv').
    match type of Heq with _ = (?s, _) => set (s1 := s) in * end.
    destruct (IH s1 Hinv') as (self' & Hrun & Hfail); [done..|].
    exists self'. cbn [app for_each]. unfold mbind, py_bind. by rewrite Heq.
Qed.

End UpdateFailure.

(** C2, as the code has it.  If some pair of [zip(indices, priorities)] has
    a priority [<= 0], [update_priorities] raises AssertionError.  A call
    fails at the first pair that violates an assertion ([priority > 0],
    [0 <= idx < size]); the pairs before it have been processed and stay
    processed, so the buffer is left in the state that [update_priorities]
    on those pairs alone produces; it is unchanged when the first pair is
    the offending one. *)
Theorem update_priorities_failure {T : Type} (self : PrioritizedExperienceReplay T)
    (indices : list Z) (priorities : list R) :
  per_inv self ->
  ((exists pair, pair ∈ zip indices priorities /\ (pair.2 <= 0)%R) ->
   (update_priorities indices priorities self).2 = Raise AssertionError) /\
  (forall good bad rest,
     zip indices priorities = good ++ bad :: rest ->
     Forall (valid_pair self) good -> ~ valid_pair self bad ->
     exists self',
       for_each good update_priority self = (self', Return tt) /\
       update_priorities indices priorities self = (self', Raise AssertionError) /\
       (good = [] -> self' = self)).
Proof.
  intros Hinv.
  assert (Hsplit : forall good bad rest,
     zip indices priorities = good ++ bad :: rest ->
     Forall (valid_pair self) good -> ~ valid_pair self bad ->
     exists self',
       for_each good update_priority self = (self', Return tt) /\
       update_priorities indices priorities self = (self', Raise AssertionError) /\
       (good = [] -> self' = self)).
  { intros good bad rest Hzip Hgood Hbad.
    destruct (update_priorities_first_invalid good bad rest self Hinv Hgood Hbad)
      as (self' & Hrun & Hfail).
    exists self'. split; [done|]. unfold update_priorities. rewrite Hzip.
    split; [done|]. intros ->. cbn in Hrun. by injection Hrun. }
  split; [|exact Hsplit].
  intros (pair & Hin & Hle).
  assert (Hex : Exists (fun p => ~ valid_pair self p) (zip indices priorities)).
  { apply Exists_exists. exists pair. split; [done|]. unfold valid_pair. lra. }
  destruct (first_invalid_pair self _ Hex)
    as (good & bad & rest & Hzip & Hgood & Hbad).
  destruct (Hsplit good bad rest Hzip Hgood Hbad) as (self' & _ & -> & _). done.
Qed.

Lemma update_priorities_failure_witness :
  (update_priorities [0%Z; 0%Z] [2%R; 0%R] one_transition_buffer).2 =
    Raise AssertionError.
Proof.
  apply (update_priorities_failure one_transition_buffer [0%Z; 0%Z] [2%R; 0%R]).
  - apply reachable_inv, one_transition_buffer_reachable.
  - exists (0%Z, 0%R). split; [|simpl; lra].
    apply list_elem_of_further, list_elem_of_here.
Defined.

(** C2, as stated, fails: a call whose second pair has priority 0 raises
    after the first pair has raised [_max_priority] from 1 to 2. *)
Lemma update_priorities_failure_changes_state :
  exists self',
    update_priorities [0%Z; 0%Z] [2%R; 0%R] one_transition_buffer =
      (self', Raise AssertionError) /\
    _max_priority one_transition_buffer = 1%R /\
    _max_priority self' = 2%R /\
    self' <> one_transition_buffer.
Proof.
  pose proof (reachable_inv _ one_transition_buffer_reachable) as Hinv.
  destruct one_transition_buffer_fields as (Hbase & Hmax & _).
  destruct (update_priority_valid 0 2 one_transition_buffer Hinv)
    as (ts' & tm' & _ & _ & Heq & _); [lra | rewrite Hbase; simpl; lia |].
  eexists. split.
  - unfold update_priorities. cbn [zip zip_with for_each].
    unfold mbind, py_bind. rewrite Heq.
    rewrite update_priority_invalid; [done|]. simpl. lra.
  - cbn [_max_priority]. rewrite Hmax.
    assert (Rmax 1 2 = 2%R) as -> by (apply Rmax_right; lra).
    split; [done|]. split; [done|].
    intros Heq'. apply (f_equal _max_priority) in Heq'.
    cbn [_max_priority] in Heq'. rewrite Hmax in Heq'. lra.
Qed.

(** ** Prioritized sampling *)

Section SamplingFacts.
Context {T : Type}.
Implicit Types (self : PrioritizedExperienceReplay T).

Lemma sum_leaves_nonneg self :
  per_inv self -> Forall (fun v => 0 <= v)%R (leaves (_st_sum self)).
Proof.
  intros Hinv. destruct (inv_sum self Hinv) as [Hlen _].
  apply Forall_forall. intros v Hv.
  apply (elem_of_leaves 0%R) in Hv as (i & Hi & <-); [|done].
  destruct (decide (i < size (base self))) as [Hocc|Hun].
  - destruct (inv_occupied self Hinv i Hocc) as [Hpos _].
    unfold sum_leaf in Hpos. lra.
  - destruct (inv_unused self Hinv i ltac:(lia)) as [Hzero _].
    unfold sum_leaf in Hzero. lra.
Qed.

Lemma size_le_capacity self :
  per_inv self -> size (base self) <= capacity (_st_sum self).
Proof.
  intros Hinv. destruct (inv_store self Hinv) as [xs Hstore].
  pose proof (inv_capacity_max self Hinv).
  rewrite (after_size _ _ _ Hstore). lia.
Qed.

(** The sum of the whole tree is the root; it is at least every leaf, and
    positive once a slot is occupied. *)
Lemma sum_all_total self :
  per_inv self -> 1 <= size (base self) ->
  exists total,
    sum_all (_st_sum self) = Return total /\
    node 0%R (_st_sum self) 1 = total /\
    (0 < total)%R /\
    forall i, i < size (base self) -> (sum_leaf self i <= total)%R.
Proof.
  intros Hinv Hsize. destruct (inv_capacity self Hinv) as [h Hcap].
  pose proof (inv_sum self Hinv) as Hsum. pose proof Hsum as [Hlen _].
  pose proof (size_le_capacity self Hinv) as Hle.
  exists (node 0%R (_st_sum self) 1).
  split.
  { apply combine_all_root. rewrite Hcap. by apply Nat.pow_nonzero. }
  split; [done|].
  rewrite (root_leaves 0%R Rplus Rplus_assoc' Rplus_0_l Rplus_0_r _ h Hsum Hcap).
  assert (Hge : forall i, i < size (base self) ->
            (sum_leaf self i <= combine_list 0%R Rplus (leaves (_st_sum self)))%R).
  { intros i Hi. apply sum_list_ge; [by apply sum_leaves_nonneg|].
    apply (elem_of_leaves 0%R); [done|]. exists i. split; [lia|done]. }
  split; [|exact Hge].
  destruct (inv_occupied self Hinv 0 ltac:(lia)) as [Hpos _].
  pose proof (Hge 0 ltac:(lia)). lra.
Qed.

(** The min of the whole tree is finite and positive once a slot is
    occupied, and below the leaf of every occupied slot. *)
Lemma min_all_least self :
  per_inv self -> 1 <= size (base self) ->
  exists least,
    min_all (_st_min self) = Return (Fin least) /\
    (0 < least)%R /\
    forall i, i < size (base self) -> (least <= sum_leaf self i)%R.
Proof.
  intros Hinv Hsize. destruct (inv_capacity self Hinv) as [h Hcap].
  pose proof (inv_capacity_min self Hinv) as Hcapm.
  pose proof (inv_min self Hinv) as Hmin. pose proof Hmin as [Hlen _].
  pose proof (size_le_capacity self Hinv) as Hle.
  assert (Hroot : min_all (_st_min self) = Return (node PInf (_st_min self) 1)).
  { apply combine_all_root. rewrite Hcapm, Hcap. by apply Nat.pow_nonzero. }
  rewrite Hroot.
  rewrite (root_leaves PInf emin emin_assoc emin_id_l emin_id_r _ h Hmin)
    by congruence.
  set (root := combine_list PInf emin (leaves (_st_min self))).
  assert (Hbelow : forall i, i < size (base self) -> ele root (Fin (sum_leaf self i))).
  { intros i Hi. destruct (inv_occupied self Hinv i Hi) as [_ <-].
    apply emin_list_le. apply (elem_of_leaves PInf); [done|].
    exists i. split; [lia|done]. }
  destruct root as [least|] eqn:Hr.
  2: { destruct (Hbelow 0 ltac:(lia)). }
  exists least. split; [done|]. split; [|exact Hbelow].
  destruct (emin_list_cases (leaves (_st_min self))) as [Hinf|Hin].
  { fold root in Hinf. congruence. }
  fold root in Hin. rewrite Hr in Hin.
  apply (elem_of_leaves PInf) in Hin as (j & Hj & Hleaf); [|done].
  destruct (decide (j < size (base self))) as [Hocc|Hun].
  - destruct (inv_occupied self Hinv j Hocc) as [Hpos Heq].
    unfold min_leaf in Heq. rewrite Hleaf in Heq. injection Heq as ->. done.
  - destruct (inv_unused self Hinv j ltac:(lia)) as [_ Heq].
    unfold min_leaf in Heq. congruence.
Qed.

(** The range sum that sizes the strata is the sum of the whole tree. *)
Lemma sum_range_total self :
  per_inv self -> 1 <= size (base self) ->
  sum_range 0 (Z.of_nat (size (base self)) - 1) (_st_sum self) =
  Return (node 0%R (_st_sum self) 1).
Proof.
  intros Hinv Hsize.
  destruct Hinv as [HC [xs Hstore] [h Hcap] Hcapm Hcapmax Hsum Hmin Hocc Hun Hmp].
  assert (Hle : size (base self) <= capacity (_st_sum self)).
  { rewrite (after_size _ _ _ Hstore). lia. }
  set (t := _st_sum self) in *. set (n := size (base self)) in *.
  replace (Z.of_nat n - 1)%Z with (Z.of_nat (n - 1)) by lia.
  unfold sum_range.
  change (range_combine 0%R Rplus 0%Z) with (range_combine 0%R Rplus (Z.of_nat 0)).
  rewrite (range_combine_span 0%R Rplus Rplus_assoc' Rplus_0_l Rplus_0_r t h 0 (n - 1))
    by (done || lia).
  f_equal.
  rewrite (root_leaves 0%R Rplus Rplus_assoc' Rplus_0_l Rplus_0_r t h) by done.
  unfold leaves. rewrite Nat.add_0_r.
  replace (n - 1 - 0 + 1) with n by lia.
  set (l := drop (capacity t) (nodes t)).
  assert (Htake : take (capacity t) l = take n l ++ take (capacity t - n) (drop n l)).
  { rewrite take_take_drop. f_equal. lia. }
  rewrite Htake, (fold_app 0%R Rplus Rplus_assoc' Rplus_0_l).
  rewrite (sum_list_zeros (take (capacity t - n) (drop n l))); [lra|].
  apply Forall_lookup. intros j v Hj.
  assert (j < capacity t - n).
  { apply lookup_lt_Some in Hj. rewrite length_take in Hj. lia. }
  subst l. rewrite lookup_take_lt, !lookup_drop in Hj by done.
  destruct (Hun (n + j) ltac:(lia)) as [Hzero _].
  unfold sum_leaf, leaf, node in Hzero. fold t in Hzero.
  rewrite Hj in Hzero. done.
Qed.

(** A target below the total resolves to an occupied slot. *)
Lemma find_prefix_index_occupied self (target : R) :
  per_inv self ->
  (0 <= target < node 0%R (_st_sum self) 1)%R ->
  exists idx, find_prefix_index target (_st_sum self) = Return idx /\
              idx < size (base self).
Proof.
  intros Hinv Htarget. destruct (inv_capacity self Hinv) as [h Hcap].
  pose proof (inv_sum self Hinv) as Hsum.
  pose proof (Nat.pow_nonzero 2 h ltac:(lia)) as Hnz.
  unfold find_prefix_index.
  destruct (Rle_dec (node 0%R (_st_sum self) 1) target) as [?|_]; [lra|].
  eexists. split; [done|].
  destruct (descend_positive_leaf (_st_sum self) (capacity (_st_sum self)) 1 target Hsum)
    as [Hrange Hpos]; [lia| |done|].
  { pose proof (Nat.pow_gt_lin_r 2 (capacity (_st_sum self)) ltac:(lia)). lia. }
  set (pos := descend (_st_sum self) (capacity (_st_sum self)) 1 target) in *.
  destruct (decide (pos - capacity (_st_sum self) < size (base self))) as [?|Hun]; [done|].
  destruct (inv_unused self Hinv (pos - capacity (_st_sum self)) ltac:(lia)) as [Hzero _].
  unfold sum_leaf, leaf in Hzero.
  replace (capacity (_st_sum self) + (pos - capacity (_st_sum self))) with pos in Hzero by lia.
  lra.
Qed.

End SamplingFacts.

(** ** The total priority mass *)

(** C9.  In every reachable state of the prioritized buffer with
    [size >= 1], every leaf of the sum tree at an index from [size] on
    holds 0, and the range sum over the leaves [[0, size - 1]] that sizes
    the sampling strata equals the sum of the whole tree that normalizes
    the sampling probabilities. *)
Theorem strata_total_is_full_sum {T : Type} (self : PrioritizedExperienceReplay T) :
  reachable self -> 1 <= size (base self) ->
  (forall i, size (base self) <= i < capacity (_st_sum self) ->
     sum_get i (_st_sum self) = Return 0%R) /\
  exists total,
    sum_range 0 (Z.of_nat (size (base self)) - 1) (_st_sum self) = Return total /\
    sum_all (_st_sum self) = Return total.
Proof.
  intros Hreach Hsize. pose proof (reachable_inv self Hreach) as Hinv.
  pose proof (size_le_capacity self Hinv) as Hle.
  split.
  - intros i Hi. unfold sum_get. rewrite SegmentTree_get_leaf by lia.
    f_equal. apply (inv_unused self Hinv i Hi).
  - destruct (sum_all_total self Hinv Hsize) as (total & Hall & Hroot & _).
    exists total. split; [|done].
    rewrite <- Hroot. by apply sum_range_total.
Qed.

Lemma strata_total_is_full_sum_witness :
  exists total,
    sum_range 0 (Z.of_nat (size (base one_transition_buffer)) - 1)
      (_st_sum one_transition_buffer) = Return total /\
    sum_all (_st_sum one_transition_buffer) = Return total.
Proof.
  apply (strata_total_is_full_sum one_transition_buffer).
  - apply one_transition_buffer_reachable.
  - destruct one_transition_buffer_fields as (-> & _). simpl. lia.
Defined.

Section SamplingCalls.
Context {T : Type}.
Implicit Types (self : PrioritizedExperienceReplay T).

(** Every stratum resolves to an occupied slot. *)
Lemma draw_strata_occupied (u : nat -> R) self (total : R) (batch_size : nat)
    (iterations : list nat) :
  per_inv self -> node 0%R (_st_sum self) 1 = total -> (0 < total)%R ->
  (forall i, 0 <= u i < 1)%R ->
  Forall (fun i => i < batch_size) iterations ->
  exists indices,
    draw_strata u self (total / INR batch_size) iterations = Return indices /\
    length indices = length iterations /\
    Forall (fun idx => idx < size (base self)) indices.
Proof.
  intros Hinv Htotal Hpos Hu. induction 1 as [|i rest Hi _ IH].
  - exists []. by repeat split.
  - destruct IH as (indices & Hrest & Hlen & Hocc).
    assert (Hb : (INR i + 1 <= INR batch_size)%R).
    { rewrite <- S_INR. apply le_INR. lia. }
    assert (Hbpos : (0 < INR batch_size)%R).
    { pose proof (pos_INR i). lra. }
    set (w := (total / INR batch_size)%R) in *.
    assert (Hw : (0 < w)%R) by (by apply Rdiv_lt_0_compat).
    assert (Hwb : (INR batch_size * w = total)%R).
    { subst w. field. lra. }
    destruct (find_prefix_index_occupied self (u i * w + INR i * w)%R Hinv)
      as (idx & Hidx & Hlt).
    { rewrite Htotal. pose proof (Hu i). pose proof (pos_INR i). split; [nra|].
      rewrite <- Hwb. nra. }
    exists (idx :: indices). cbn [draw_strata].
    unfold mbind, outcome_bind. rewrite Hidx. cbn [obind].
    rewrite Hrest. cbn [obind].
    split; [done|]. split; [simpl; lia|]. by constructor.
Qed.

(** [_sample_proportionally] on a buffer that holds a transition. *)
Lemma sample_proportionally_occupied (u : nat -> R) self (batch_size : nat) :
  per_inv self -> 1 <= size (base self) -> 1 <= batch_size ->
  (forall i, 0 <= u i < 1)%R ->
  exists indices,
    _sample_proportionally u self batch_size = Return indices /\
    length indices = batch_size /\
    Forall (fun idx => idx < size (base self)) indices.
Proof.
  intros Hinv Hsize Hbatch Hu.
  destruct (sum_all_total self Hinv Hsize) as (total & _ & Hroot & Hpos & _).
  unfold _sample_proportionally, mbind, outcome_bind.
  rewrite (sum_range_total self Hinv Hsize). cbn [obind].
  rewrite fdiv_nonzero.
  2: { apply not_0_INR. lia. }
  cbn [obind]. rewrite Hroot.
  destruct (draw_strata_occupied u self total batch_size (seq 0 batch_size)
              Hinv Hroot Hpos Hu) as (indices & Hdraw & Hlen & Hocc).
  { apply Forall_seq. intros; lia. }
  exists indices. rewrite length_seq in Hlen. done.
Qed.


(** The loop of [sample] on samples drawn from occupied slots. *)
Lemma sample_weights_occupied self (total least : R) (indices : list nat) :
  per_inv self -> 1 <= size (base self) ->
  sum_all (_st_sum self) = Return total -> (0 < total)%R -> (0 < least)%R ->
  (forall i, i < size (base self) -> (least <= sum_leaf self i)%R) ->
  Forall (fun idx => idx < size (base self)) indices ->
  sample_weights self
    (Fin (Rpower (least / total * INR (size (base self))) (- _beta self))) indices =
  Return (map (fun idx => importance_weight self total least (sum_leaf self idx)) indices).
Proof.
  intros Hinv Hsize Htotal Hpos Hleast Hbelow.
  pose proof (size_le_capacity self Hinv) as Hcap.
  assert (Hn : (1 <= INR (size (base self)))%R).
  { change 1%R with (INR 1). apply le_INR. lia. }
  induction 1 as [|idx rest Hidx _ IH]; [done|].
  cbn [sample_weights map]. unfold mbind, outcome_bind, mret, outcome_ret.
  unfold sum_get. rewrite SegmentTree_get_leaf by lia. cbn [obind].
  rewrite Htotal. cbn [obind].
  rewrite fdiv_nonzero by lra. cbn [obind].
  fold (sum_leaf self idx).
  assert (Hleaf : (0 < sum_leaf self idx)%R).
  { pose proof (Hbelow idx Hidx). lra. }
  rewrite fpow_positive_base.
  2: { apply Rmult_lt_0_compat; [by apply Rdiv_lt_0_compat | lra]. }
  cbn [obind fdiv_e]. rewrite fdiv_nonzero.
  2: { pose proof (Rpower_positive (least / total * INR (size (base self)))
                     (- _beta self)). lra. }
  cbn [obind]. by rewrite IH.
Qed.

(** [sample] on a buffer that holds a transition: the call returns, every
    sample comes from an occupied slot, and its weight is the importance
    weight of that slot. *)
Lemma prioritized_sample_occupied (u : nat -> R) self (batch_size : nat) :
  per_inv self -> 1 <= size (base self) -> 1 <= batch_size ->
  (forall i, 0 <= u i < 1)%R ->
  exists indices total least rows,
    sum_all (_st_sum self) = Return total /\
    min_all (_st_min self) = Return (Fin least) /\
    (0 < total)%R /\ (0 < least)%R /\
    (forall i, i < size (base self) -> (least <= sum_leaf self i)%R) /\
    length indices = min batch_size (size (base self)) /\
    Forall (fun idx => idx < size (base self)) indices /\
    sample_weights_indices u self batch_size =
      Return (map (fun idx => importance_weight self total least (sum_leaf self idx))
                indices, indices) /\
    prioritized_sample u self batch_size = Return rows /\
    rows.*1.*2 =
      map (fun idx => importance_weight self total least (sum_leaf self idx)) indices /\
    rows.*2 = indices.
Proof.
  intros Hinv Hsize Hbatch Hu.
  destruct (sum_all_total self Hinv Hsize) as (total & Htotal & Hroot & Hpos & _).
  destruct (min_all_least self Hinv Hsize) as (least & Hmin & Hleast & Hbelow).
  set (b := if decide (size (base self) < batch_size) then size (base self)
            else batch_size).
  assert (Hb : b = min batch_size (size (base self))).
  { subst b. destruct (decide _); lia. }
  destruct (sample_proportionally_occupied u self b Hinv Hsize ltac:(lia) Hu)
    as (indices & Hdraw & Hlen & Hocc).
  set (weights := map (fun idx => importance_weight self total least (sum_leaf self idx))
                    indices).
  assert (Hsample : sample_weights_indices u self batch_size = Return (weights, indices)).
  { unfold sample_weights_indices. fold b.
    unfold mbind, outcome_bind, mret, outcome_ret.
    rewrite Hdraw. cbn [obind]. rewrite Hmin. cbn [obind].
    rewrite Htotal. cbn [obind ediv]. rewrite fdiv_nonzero by lra.
    cbn [obind emul epow]. rewrite fpow_positive_base.
    2: { apply Rmult_lt_0_compat; [by apply Rdiv_lt_0_compat|].
         apply lt_0_INR. lia. }
    cbn [obind].
    by rewrite (sample_weights_occupied self total least indices). }
  destruct (inv_store self Hinv) as [xs Hstore].
  assert (Hne : xs <> []).
  { intros ->. rewrite (after_size _ _ _ Hstore) in Hsize. simpl in Hsize. lia. }
  pose proof (store_after_size_le _ xs _ (inv_max_size self Hinv) Hne Hstore) as [_ Hts].
  destruct (getitem_each_in_range (_transitions (base self)) indices)
    as (ts & Hget & Hrows).
  { eapply Forall_impl; [exact Hocc|]. simpl. intros; lia. }
  exists indices, total, least, (zip (zip ts weights) indices).
  split; [done|]. split; [done|]. split; [done|]. split; [done|]. split; [done|].
  split; [lia|]. split; [done|]. split; [done|].
  assert (Hlts : length ts = length indices).
  { symmetry. by apply (Forall2_length _ _ _ Hrows). }
  assert (Hlw : length weights = length indices).
  { subst weights. by rewrite length_map. }
  split.
  { unfold prioritized_sample, mbind, outcome_bind, mret, outcome_ret.
    rewrite Hsample. cbn [obind]. unfold getitem_rows.
    destruct (_transitions (base self)); [simpl in Hts; lia|].
    by rewrite Hget. }
  split.
  - rewrite fst_zip by (rewrite length_zip; lia).
    fold weights. apply snd_zip. lia.
  - apply snd_zip. rewrite length_zip. lia.
Qed.

End SamplingCalls.

Section BetaZero.
Context {T : Type}.
Implicit Types (self : PrioritizedExperienceReplay T).

Lemma epow_zero_exponent (x : ereal) (w : ereal) :
  epow x (- 0)%R = Return w -> w = Fin 1.
Proof.
  destruct x as [a|]; cbn [epow].
  - rewrite fpow_zero_exponent. cbn [obind]. by intros [= <-].
  - destruct (Req_dec_T (- 0) 0) as [_|Hne]; [by intros [= <-]|].
    exfalso. apply Hne. lra.
Qed.

Lemma sample_weights_beta_zero self (indices : list nat) (weights : list R) :
  _beta self = 0%R ->
  sample_weights self (Fin 1) indices = Return weights ->
  Forall (fun w => w = 1%R) weights.
Proof.
  intros Hbeta. revert weights.
  induction indices as [|idx rest IH]; intros weights Hrun; cbn [sample_weights] in Hrun.
  - injection Hrun as <-. constructor.
  - rewrite Hbeta in Hrun. obind_inv Hrun.
    rewrite fpow_zero_exponent in E2. injection E2 as <-.
    cbn [fdiv_e] in E3. rewrite fdiv_nonzero in E3 by lra.
    injection E3 as <-. injection Hrun as <-.
    constructor; [field | by apply IH].
Qed.

End BetaZero.

(** ** The buffer with two priorities *)

Lemma two_transition_buffer_reachable : reachable two_transition_buffer.
Proof.
  eapply reach_add; [apply one_transition_buffer_reachable|].
  unfold two_transition_buffer. apply surjective_pairing.
Qed.

Lemma two_priority_buffer_reachable : reachable two_priority_buffer.
Proof.
  eapply reach_update; [apply two_transition_buffer_reachable|].
  unfold two_priority_buffer. apply surjective_pairing.
Qed.

Lemma two_priority_zero_beta_buffer_reachable :
  reachable two_priority_zero_beta_buffer.
Proof.
  eapply reach_beta; [apply two_priority_buffer_reachable|].
  unfold two_priority_zero_beta_buffer. apply surjective_pairing.
Qed.

Lemma two_transition_buffer_fields :
  base two_transition_buffer =
    {| _transitions := [10; 11]; _current_idx := 0; size := 2; max_size := 2 |} /\
  _alpha two_transition_buffer = 1%R /\
  _beta two_transition_buffer = 1%R /\
  sum_leaf two_transition_buffer 1 = 1%R.
Proof.
  pose proof (reachable_inv _ one_transition_buffer_reachable) as Hinv.
  destruct one_transition_buffer_fields as (Hbase & Hmax & Halpha & Hbeta).
  destruct (prioritized_add_spec 11 one_transition_buffer Hinv)
    as (b' & ts' & tm' & Hadd & Hsum & _ & Heq & _).
  unfold two_transition_buffer. rewrite Heq. unfold sum_leaf.
  cbn [fst base _alpha _beta _st_sum].
  split; [rewrite Hbase in Hadd; cbv in Hadd; by injection Hadd as <-|].
  split; [done|]. split; [done|].
  rewrite Hbase, Hmax, Halpha in Hsum. cbn [_current_idx] in Hsum.
  pose proof (inv_capacity_max _ Hinv) as Hcap. rewrite Hbase in Hcap.
  cbn [max_size] in Hcap.
  destruct (SegmentTree_set_spec 0%R Rplus 1 (Rpower 1 1) (_st_sum one_transition_buffer)
              (inv_sum _ Hinv) ltac:(lia)) as (t' & Hset & _ & _ & Hleaf & _).
  unfold sum_set in Hsum. rewrite Hsum in Hset. injection Hset as <-.
  rewrite Hleaf. apply Rpower_1. lra.
Qed.

(** The two occupied slots of [two_priority_buffer] hold the priorities 3
    and 1. *)
Lemma two_priority_buffer_fields :
  size (base two_priority_buffer) = 2 /\
  _beta two_priority_buffer = 1%R /\
  sum_leaf two_priority_buffer 0 = 3%R /\
  sum_leaf two_priority_buffer 1 = 1%R.
Proof.
  pose proof (reachable_inv _ two_transition_buffer_reachable) as Hinv.
  destruct two_transition_buffer_fields as (Hbase & Halpha & Hbeta & Hleaf1).
  destruct (update_priority_valid 0 3 two_transition_buffer Hinv)
    as (ts' & tm' & Hsum & _ & Heq & _); [lra | rewrite Hbase; simpl; lia |].
  unfold two_priority_buffer, update_priorities. cbn [zip zip_with for_each].
  unfold mbind, py_bind. rewrite Heq. unfold sum_leaf.
  cbn [mret py_ret fst base _beta _st_sum].
  split; [by rewrite Hbase|]. split; [done|].
  rewrite Halpha in Hsum. change (Z.to_nat 0) with 0 in Hsum.
  pose proof (inv_capacity_max _ Hinv) as Hcap. rewrite Hbase in Hcap.
  cbn [max_size] in Hcap.
  destruct (SegmentTree_set_spec 0%R Rplus 0 (Rpower 3 1) (_st_sum two_transition_buffer)
              (inv_sum _ Hinv) ltac:(lia)) as (t' & Hset & _ & _ & Hleaf & Hother).
  unfold sum_set in Hsum. rewrite Hsum in Hset. injection Hset as <-.
  split; [rewrite Hleaf; apply Rpower_1; lra|].
  by rewrite Hother by lia.
Qed.

Lemma two_priority_zero_beta_buffer_fields :
  size (base two_priority_zero_beta_buffer) = 2 /\
  _beta two_priority_zero_beta_buffer = 0%R.
Proof.
  destruct two_priority_buffer_fields as (Hsize & _). by split.
Qed.

(** C5.  With [beta = 0] every importance weight that [sample] returns is
    exactly 1, whatever the trees hold and wherever the draws land. *)
Theorem weights_one_when_beta_zero {T : Type} (u : nat -> R)
    (self : PrioritizedExperienceReplay T) (batch_size : nat)
    (rows : list (T * R * nat)) :
  _beta self = 0%R ->
  prioritized_sample u self batch_size = Return rows ->
  Forall (fun row => row.1.2 = 1%R) rows.
Proof.
  intros Hbeta Hrun. unfold prioritized_sample in Hrun. obind_inv Hrun.
  destruct x as [weights indices]. obind_inv Hrun. injection Hrun as <-.
  unfold sample_weights_indices in E. rewrite Hbeta in E. obind_inv E.
  injection E as <- <-.
  apply epow_zero_exponent in E5 as ->.
  pose proof (sample_weights_beta_zero self _ _ Hbeta E6) as Hones.
  apply Forall_forall. intros [[t w] idx] Hin. cbn [fst snd].
  apply elem_of_zip_l, elem_of_zip_r in Hin.
  by apply (proj1 (Forall_forall _ _) Hones).
Qed.

Lemma zero_beta_buffer_reachable : reachable zero_beta_buffer.
Proof.
  eapply reach_beta; [apply one_transition_buffer_reachable|].
  unfold zero_beta_buffer. apply surjective_pairing.
Qed.

(** A sample of two from the buffer whose slots hold the priorities 3 and
    1, with [beta = 0]. *)
Lemma weights_one_when_beta_zero_witness :
  exists rows,
    prioritized_sample (fun _ => 0.9%R) two_priority_zero_beta_buffer 2 = Return rows /\
    length rows = 2 /\
    Forall (fun row => row.1.2 = 1%R) rows.
Proof.
  destruct two_priority_zero_beta_buffer_fields as (Hsize & Hbeta).
  destruct (prioritized_sample_occupied (fun _ => 0.9%R) two_priority_zero_beta_buffer 2)
    as (indices & total & least & rows & _ & _ & _ & _ & _ & Hlen & _ & _
        & Hrun & _ & Hindices).
  - apply reachable_inv, two_priority_zero_beta_buffer_reachable.
  - rewrite Hsize. lia.
  - lia.
  - intros _. lra.
  - exists rows. split; [exact Hrun|]. split.
    + rewrite <- (length_fmap snd rows). fold (rows.*2). rewrite Hindices, Hlen, Hsize.
      reflexivity.
    + exact (weights_one_when_beta_zero (fun _ => 0.9%R)
               two_priority_zero_beta_buffer 2 rows Hbeta Hrun).
Defined.





(** ** The segment tree on integers *)

(** A tree of capacity 4 after [set(1, 5)] and [set(2, 7)]. *)
Example segment_tree_set_run :
  (t ← SegmentTree_new 0 4;
   t ← SegmentTree_set 0 Nat.add 1 5 t;
   SegmentTree_set 0 Nat.add 2 7 t)
  = Return {| capacity := 4; nodes := [0; 12; 5; 7; 0; 5; 7; 0] |}.
Proof. reflexivity. Qed.

Example segment_tree_range_run :
  range_combine 0 Nat.add 2 3 {| capacity := 4; nodes := [0; 12; 5; 7; 0; 5; 7; 0] |}
  = Return 7 /\
  range_combine 0 Nat.add 0 1 {| capacity := 4; nodes := [0; 12; 5; 7; 0; 5; 7; 0] |}
  = Return 5 /\
  combine_all 0 Nat.add {| capacity := 4; nodes := [0; 12; 5; 7; 0; 5; 7; 0] |}
  = Return 12.
Proof. by repeat split. Qed.

Example segment_tree_bad_capacity :
  SegmentTree_new 0 3 = Raise InvalidCapacity /\
  SegmentTree_new 0 0 = Raise InvalidCapacity.
Proof. by split. Qed.

(** * Properties of the code around the buffers *)

(** ** Rewards of recorded matches *)

Section RewardFacts.
Context (CENTER_X SCALE : R).

Lemma float_eq_true (x y : R) : float_eq x y = true <-> x = y.
Proof. unfold float_eq. destruct (Req_dec_T x y); split; (done || congruence). Qed.

Lemma float_eq_false (x y : R) : float_eq x y = false <-> x <> y.
Proof. unfold float_eq. destruct (Req_dec_T x y); split; (done || congruence). Qed.

(** The winning reward is zero-sum: when a final transition names player
    one (1), player two (-1) or nobody (0) as the winner, what one player
    is given the other is taken, and the winner is given 10. *)
Theorem winning_reward_zero_sum (transition : recorded) (winner : R) :
  rec_done transition = true ->
  rec_info transition !! "winner" = Some winner ->
  winner = 1%R \/ winner = 0%R \/ winner = (- 1)%R ->
  exists r1 r2,
    compute_winning_reward transition true = Returned r1 /\
    compute_winning_reward transition false = Returned r2 /\
    (r1 + r2 = 0)%Z /\
    (winner = 1%R -> r1 = 10%Z) /\
    (winner = (- 1)%R -> r2 = 10%Z) /\
    (winner = 0%R -> r1 = 0%Z).
Proof.
  intros Hdone Hwin Hcases. unfold compute_winning_reward, dict_getitem.
  rewrite Hdone, Hwin. result_unfold. cbn [rbind].
  destruct Hcases as [-> | [-> | ->]].
  - assert (float_eq 1 0 = false) as -> by (apply float_eq_false; lra).
    assert (float_eq 1 1 = true) as -> by (by apply float_eq_true).
    assert (float_eq 1 (- 1) = false) as -> by (apply float_eq_false; lra).
    cbn. exists 10%Z, (- 10)%Z. repeat split; (done || intros; lra).
  - assert (float_eq 0 0 = true) as -> by (by apply float_eq_true).
    exists 0%Z, 0%Z. repeat split; (done || intros; lra).
  - assert (float_eq (- 1) 0 = false) as -> by (apply float_eq_false; lra).
    assert (float_eq (- 1) 1 = false) as -> by (apply float_eq_false; lra).
    assert (float_eq (- 1) (- 1) = true) as -> by (by apply float_eq_true).
    cbn. exists (- 10)%Z, 10%Z. repeat split; (done || intros; lra).
Qed.

Lemma winning_reward_zero_sum_witness :
  exists r1 r2,
    compute_winning_reward
      (mkRecorded [] [] [] 0 true (<["winner" := 1%R]> ∅)) true = Returned r1 /\
    compute_winning_reward
      (mkRecorded [] [] [] 0 true (<["winner" := 1%R]> ∅)) false = Returned r2 /\
    (r1 + r2 = 0)%Z /\
    (1%R = 1%R -> r1 = 10%Z) /\
    (1%R = (- 1)%R -> r2 = 10%Z) /\
    (1%R = 0%R -> r1 = 0%Z).
Proof.
  apply (winning_reward_zero_sum
           (mkRecorded [] [] [] 0 true (<["winner" := 1%R]> ∅)) 1%R);
    [reflexivity | reflexivity | by left].
Defined.

(** The edges of the winning reward: a transition that is not final gives 0
    and its dict is not read; a final one whose dict has no key ['winner']
    raises KeyError; a final one whose winner is none of 1, 0, -1 takes 10
    from either player. *)
Theorem winning_reward_edges (transition : recorded) (is_player_one : bool) :
  (rec_done transition = false ->
   compute_winning_reward transition is_player_one = Returned 0%Z) /\
  (rec_done transition = true -> rec_info transition !! "winner" = None ->
   compute_winning_reward transition is_player_one = Raised KeyError) /\
  (forall winner,
     rec_done transition = true ->
     rec_info transition !! "winner" = Some winner ->
     winner <> 1%R -> winner <> 0%R -> winner <> (- 1)%R ->
     compute_winning_reward transition is_player_one = Returned (- 10)%Z).
Proof.
  unfold compute_winning_reward, dict_getitem. split; [|split].
  - by intros ->.
  - by intros -> ->.
  - intros winner -> -> H1 H0 Hm. result_unfold. cbn [rbind].
    apply float_eq_false in H1, H0, Hm. by rewrite H1, H0, Hm.
Qed.

Lemma winning_reward_edges_witness :
  compute_winning_reward (mkRecorded [] [] [] 0 false ∅) true = Returned 0%Z.
Proof.
  apply (winning_reward_edges (mkRecorded [] [] [] 0 false ∅) true). reflexivity.
Defined.

End RewardFacts.

Section ClosenessFacts.
Context (CENTER_X SCALE : R).

Lemma getitem_from_end_lookup (a : list R) (k : nat) (v : R) :
  a !! (length a - k) = Some v -> k <= length a ->
  getitem_from_end a k = Return v.
Proof.
  intros Hv Hk. unfold getitem_from_end. rewrite decide_True by done.
  by rewrite Hv.
Qed.

Lemma getitem_from_end_short (a : list R) (k : nat) :
  length a < k -> getitem_from_end a k = Raise IndexError.
Proof. intros Hk. unfold getitem_from_end. by rewrite decide_False by lia. Qed.

Lemma getitem_from_end_in_range (a : list R) (k : nat) :
  1 <= k <= length a -> exists v, getitem_from_end a k = Return v /\
                                  a !! (length a - k) = Some v.
Proof.
  intros Hk. destruct (lookup_lt_is_Some_2 a (length a - k)) as [v Hv]; [lia|].
  exists v. split; [|done]. apply getitem_from_end_lookup; [done|lia].
Qed.

(** The distance of two positions of the same dimension. *)
Lemma dist_positions_same_length (p1 p2 : list R) :
  length p1 = length p2 ->
  exists d, dist_positions p1 p2 = Return d /\ (0 <= d)%R /\
            d = sqrt (np_sum (map (fun x => x ^ 2)%R (zip_with Rminus p1 p2))).
Proof.
  intros Hlen. unfold dist_positions, np_subtract.
  rewrite decide_True by done. result_unfold. cbn [obind].
  eexists. split; [done|]. split; [|done]. apply sqrt_pos.
Qed.

Lemma closeness_factor_negative :
  (0 < SCALE)%R ->
  exists max_dist factor,
    fdiv 250 SCALE = Return max_dist /\
    fdiv (- 30) (max_dist * 250 / 2) = Return factor /\
    factor = (- 30 / (250 / SCALE * 250 / 2))%R /\ (factor < 0)%R.
Proof.
  intros Hs.
  assert (Hmax : (0 < 250 / SCALE * 250 / 2)%R).
  { apply Rdiv_lt_0_compat; [|lra].
    apply Rmult_lt_0_compat; [|lra]. apply Rdiv_lt_0_compat; lra. }
  exists (250 / SCALE)%R, (- 30 / (250 / SCALE * 250 / 2))%R.
  split; [apply fdiv_nonzero; lra|]. split; [apply fdiv_nonzero; lra|].
  split; [done|].
  pose proof (Rinv_0_lt_compat _ Hmax) as Hinv.
  unfold Rdiv at 1. nra.
Qed.

(** [compute_reward_closeness_to_puck] needs the six trailing entries of
    the next observation, and nothing else. *)
Lemma closeness_reward_returns (transition : recorded) :
  (0 < SCALE)%R ->
  (length (rec_next_obs transition) < 6 ->
   compute_reward_closeness_to_puck CENTER_X SCALE transition = Raise IndexError) /\
  (6 <= length (rec_next_obs transition) ->
   exists c, compute_reward_closeness_to_puck CENTER_X SCALE transition = Return c /\
             (c <= 0)%R).
Proof.
  intros Hs. unfold compute_reward_closeness_to_puck. split.
  - intros Hshort. rewrite (getitem_from_end_short _ 6) by done. reflexivity.
  - intros Hlen. set (obs := rec_next_obs transition) in *.
    destruct (getitem_from_end_in_range obs 6 ltac:(lia)) as (px & Hpx & _).
    destruct (getitem_from_end_in_range obs 4 ltac:(lia)) as (pvx & Hpvx & _).
    destruct (dist_positions_same_length (take 2 obs) (slice_from_end obs 6 4))
      as (d & Hd & Hdpos & _).
    { unfold slice_from_end. rewrite length_drop, !length_take. lia. }
    destruct (closeness_factor_negative Hs) as (max_dist & factor & Hmax & Hfac & _ & Hneg).
    rewrite Hpx. result_unfold. cbn [obind].
    destruct (Rlt_dec _ _); [|exists 0%R; split; [done|lra]].
    rewrite Hpvx. cbn [obind].
    destruct (Rle_dec _ _); [|exists 0%R; split; [done|lra]].
    rewrite Hd. cbn [obind]. rewrite Hmax. cbn [obind]. rewrite Hfac. cbn [obind].
    eexists. split; [done|]. nra.
Qed.


End ClosenessFacts.


Section RecomputeFacts.
Context (CENTER_X SCALE : R).

Lemma winning_reward_values (transition : recorded) (is_player_one : bool) (w : Z) :
  compute_winning_reward transition is_player_one = Returned w ->
  w = (- 10)%Z \/ w = 0%Z \/ w = 10%Z.
Proof.
  unfold compute_winning_reward, dict_getitem.
  destruct (rec_done transition); [|intros [= <-]; tauto].
  destruct (rec_info transition !! "winner") as [winner|]; [|done].
  result_unfold. cbn [rbind].
  destruct (float_eq winner 0); [intros [= <-]; tauto|].
  destruct (float_eq winner 1 && is_player_one); [intros [= <-]; tauto|].
  destruct (float_eq winner (- 1) && negb is_player_one); intros [= <-]; tauto.
Qed.

Lemma winning_reward_returns (transition : recorded) (is_player_one : bool) :
  (rec_done transition = true -> is_Some (rec_info transition !! "winner")) ->
  exists w, compute_winning_reward transition is_player_one = Returned w.
Proof.
  intros Hwin. unfold compute_winning_reward, dict_getitem.
  destruct (rec_done transition); [|by eexists].
  destruct (Hwin eq_refl) as [winner ->]. result_unfold. cbn [rbind].
  destruct (float_eq winner 0); [by eexists|].
  destruct (float_eq winner 1 && is_player_one); [by eexists|].
  destruct (float_eq winner (- 1) && negb is_player_one); by eexists.
Qed.

(** One transition: the rewards are recomputed exactly when the transition
    is complete, and then only field 3 differs. *)
Lemma recompute_reward_spec (is_player_one : bool) (transition : recorded) :
  (0 < SCALE)%R ->
  (complete_recorded transition ->
   exists w c,
     compute_winning_reward transition is_player_one = Returned w /\
     compute_reward_closeness_to_puck CENTER_X SCALE transition = Return c /\
     (c <= 0)%R /\
     recompute_reward CENTER_X SCALE is_player_one transition =
       Returned {| rec_obs := rec_obs transition;
                   rec_action := rec_action transition;
                   rec_next_obs := rec_next_obs transition;
                   rec_reward := (IZR w + c)%R;
                   rec_done := rec_done transition;
                   rec_info := rec_info transition |}) /\
  (~ complete_recorded transition ->
   exists e, recompute_reward CENTER_X SCALE is_player_one transition = Raised e).
Proof.
  intros Hs. unfold recompute_reward, complete_recorded. split.
  - intros (Hlen & [v Hkey] & Hwin).
    destruct (winning_reward_returns transition is_player_one Hwin) as [w Hw].
    destruct (proj2 (closeness_reward_returns CENTER_X SCALE transition Hs) Hlen)
      as (c & Hc & Hneg).
    exists w, c. split; [done|]. split; [done|]. split; [done|].
    rewrite Hw, Hc. unfold dict_getitem. rewrite Hkey. reflexivity.
  - intros Hnot.
    destruct (compute_winning_reward transition is_player_one) as [w|e] eqn:Hw;
      [|by eexists].
    result_unfold. cbn [rbind].
    destruct (compute_reward_closeness_to_puck CENTER_X SCALE transition)
      as [c|e] eqn:Hc; [|by eexists].
    cbn [of_outcome rbind]. unfold dict_getitem.
    destruct (rec_info transition !! "reward_closeness_to_puck") as [v|] eqn:Hkey;
      [|by eexists].
    exfalso. apply Hnot. split; [|split].
    + destruct (decide (6 <= length (rec_next_obs transition))) as [?|Hshort]; [done|].
      rewrite (proj1 (closeness_reward_returns CENTER_X SCALE transition Hs)) in Hc
        by lia.
      done.
    + by eexists.
    + intros Hdone. unfold compute_winning_reward, dict_getitem in Hw.
      rewrite Hdone in Hw.
      destruct (rec_info transition !! "winner"); [by eexists | done].
Qed.

Lemma recompute_each_spec (is_player_one : bool) (ts : list recorded) :
  (0 < SCALE)%R ->
  (Forall complete_recorded ts ->
   exists new, recompute_each CENTER_X SCALE is_player_one ts = Returned new /\
               Forall2 (recomputed_of CENTER_X SCALE is_player_one) ts new) /\
  (~ Forall complete_recorded ts ->
   exists e, recompute_each CENTER_X SCALE is_player_one ts = Raised e).
Proof.
  intros Hs. induction ts as [|t ts [IHok IHbad]].
  - split; [|intros []; constructor].
    intros _. exists []. split; [done|constructor].
  - destruct (recompute_reward_spec is_player_one t Hs) as [Hok Hbad].
    cbn [recompute_each]. result_unfold. split.
    + intros [Ht Hts]%Forall_cons.
      destruct (Hok Ht) as (w & c & Hw & Hc & Hneg & ->).
      destruct (IHok Hts) as (new & -> & Hnew). cbn [rbind].
      eexists. split; [done|]. constructor; [|done].
      unfold recomputed_of. cbn. repeat split; try done.
      * destruct (winning_reward_values t is_player_one w Hw) as [-> | [-> | ->]];
          lra.
      * by exists w, c.
    + intros Hnot. destruct (decide (complete_recorded t)) as [Ht|Ht].
      * destruct (Hok Ht) as (w & c & _ & _ & _ & ->). cbn [rbind].
        destruct IHbad as [e ->]; [|by eexists].
        intros Hts. apply Hnot. by constructor.
      * destruct (Hbad Ht) as [e ->]. by eexists.
Qed.

End RecomputeFacts.

(** [recompute_rewards] returns exactly when every transition of the match
    is complete: each next observation has its six trailing entries, each
    dict has the key ['reward_closeness_to_puck'], and each final
    transition has the key ['winner'].  Otherwise it raises. *)
Theorem recompute_rewards_returns_iff (CENTER_X SCALE : R)
    (match_ : recorded_match) (username : string) :
  (0 < SCALE)%R ->
  (exists new_transitions,
     recompute_rewards CENTER_X SCALE match_ username = Returned new_transitions) <->
  Forall complete_recorded (transitions match_).
Proof.
  intros Hs. unfold recompute_rewards.
  destruct (recompute_each_spec CENTER_X SCALE
              (String.eqb (player_one match_) username) (transitions match_) Hs)
    as [Hok Hbad].
  split.
  - intros [new Hnew].
    destruct (decide (Forall complete_recorded (transitions match_))) as [?|Hnot];
      [done|].
    destruct (Hbad Hnot) as [e He]. congruence.
  - intros Hall. destruct (Hok Hall) as (new & Hnew & _). by exists new.
Qed.

Lemma recompute_rewards_returns_iff_witness :
  (exists new_transitions,
     recompute_rewards 5 60 (mkRecordedMatch [complete_example] "a") "a"
     = Returned new_transitions) <->
  Forall complete_recorded (transitions (mkRecordedMatch [complete_example] "a")).
Proof.
  apply (recompute_rewards_returns_iff 5 60 (mkRecordedMatch [complete_example] "a") "a").
  lra.
Defined.

(** [recompute_rewards] keeps the number and the order of the transitions
    and every field but the reward; the new reward is the winning reward
    plus the closeness reward, whatever the recorded reward was, and never
    exceeds 10. *)
Theorem recompute_rewards_fields (CENTER_X SCALE : R)
    (match_ : recorded_match) (username : string) (new_transitions : list recorded) :
  (0 < SCALE)%R ->
  recompute_rewards CENTER_X SCALE match_ username = Returned new_transitions ->
  length new_transitions = length (transitions match_) /\
  Forall2 (recomputed_of CENTER_X SCALE (String.eqb (player_one match_) username))
    (transitions match_) new_transitions.
Proof.
  intros Hs Hrun. unfold recompute_rewards in Hrun.
  destruct (recompute_each_spec CENTER_X SCALE
              (String.eqb (player_one match_) username) (transitions match_) Hs)
    as [Hok Hbad].
  destruct (decide (Forall complete_recorded (transitions match_))) as [Hall|Hnot].
  - destruct (Hok Hall) as (new & Hnew & Hrel).
    rewrite Hnew in Hrun. injection Hrun as <-.
    split; [|done]. symmetry. by apply (Forall2_length _ _ _ Hrel).
  - destruct (Hbad Hnot) as [e He]. congruence.
Qed.

Lemma complete_example_complete : complete_recorded complete_example.
Proof.
  unfold complete_recorded, complete_example. cbn [rec_next_obs rec_info rec_done].
  split; [simpl; lia|]. split; [|intros _]; by eexists.
Qed.

Lemma recompute_rewards_fields_witness :
  exists new_transitions,
    recompute_rewards 5 60 (mkRecordedMatch [complete_example] "a") "a"
      = Returned new_transitions /\
    length new_transitions = 1 /\
    Forall2 (recomputed_of 5 60 true) [complete_example] new_transitions.
Proof.
  destruct (proj1 (recompute_each_spec 5 60 true [complete_example] ltac:(lra)))
    as (new & Hnew & _).
  { constructor; [apply complete_example_complete | constructor]. }
  exists new. split; [exact Hnew|].
  apply (recompute_rewards_fields 5 60 (mkRecordedMatch [complete_example] "a") "a" new);
    [lra | exact Hnew].
Defined.

(** ** Preloading recorded matches *)

Section PreloadFacts.
Context (CENTER_X SCALE : R).

Lemma for_each_fmap {S A B : Type} (f : A -> B) (xs : list A)
    (body : B -> py S unit) (s : S) :
  for_each xs (fun x => body (f x)) s = for_each (f <$> xs) body s.
Proof.
  revert s. induction xs as [|x xs IH]; intros s; [done|].
  cbn [for_each fmap list_fmap]. unfold mbind, py_bind.
  destruct (body (f x) s) as [s1 [[]|e]]; [apply IH | done].
Qed.

(** Inserts into a store that inserts left: none of them fails. *)
Lemma add_all_store_after {T : Type} (C : nat) (xs ys : list T)
    (self : ExperienceReplay T) :
  1 <= C -> store_after C xs self ->
  exists self', add_all ys self = (self', Return tt) /\
                store_after C (xs ++ ys) self'.
Proof.
  intros HC. revert xs self. induction ys as [|y ys IH]; intros xs self Hafter.
  - exists self. rewrite app_nil_r. by split.
  - destruct (store_after_step C xs self y HC Hafter) as (s1 & Hadd & Hafter1).
    destruct (IH (xs ++ [y]) s1 Hafter1) as (self' & Hrun & Hafter').
    exists self'. rewrite <- app_assoc in Hafter'. split; [|done].
    unfold add_all in *. cbn [for_each]. unfold mbind, py_bind.
    by rewrite Hadd.
Qed.

End PreloadFacts.

(** [preload_transitions] reads the files whose name ends in [.npz] and no
    other: the other entries of the directory change neither the buffer
    nor the outcome. *)
Theorem preload_reads_npz_only (CENTER_X SCALE : R) {S : Type}
    (self_add_transition : buffer_row -> py S unit)
    (directory : list (string * recorded_match)) (self : S) :
  preload_transitions CENTER_X SCALE self_add_transition directory self =
  preload_transitions CENTER_X SCALE self_add_transition
    (filter (fun entry => endswith entry.1 ".npz" = true) directory) self.
Proof.
  revert self. induction directory as [|[file np_data] rest IH]; intros self; [done|].
  rewrite filter_cons. cbn [fst]. cbn [preload_transitions].
  destruct (endswith file ".npz") eqn:Hnpz.
  - rewrite decide_True by done. cbn [preload_transitions]. rewrite Hnpz.
    destruct (recompute_rewards _ _ np_data preload_username) as [new|e]; [|done].
    destruct (for_each new _ self) as [s1 [[]|e]]; [apply IH | done].
  - rewrite decide_False by done. apply IH.
Qed.

(** Preloading into a uniform buffer of capacity [C >= 1] that inserts
    left, when the rewards of every [.npz] match can be recomputed: the
    call returns, and the buffer is the one the inserts of all recomputed
    transitions, in directory order and in the field order
    [(state, action, reward, next_state, done)], leave. *)
Theorem preload_uniform_inserts_all (CENTER_X SCALE : R) (C : nat)
    (xs : list buffer_row) (directory : list (string * recorded_match))
    (self : ExperienceReplay buffer_row) :
  1 <= C -> (0 < SCALE)%R -> store_after C xs self ->
  Forall (fun entry => endswith entry.1 ".npz" = true ->
                       Forall complete_recorded (transitions entry.2)) directory ->
  exists self',
    preload_transitions CENTER_X SCALE add_transition directory self =
      (self', Returned tt) /\
    add_all (preloaded_rows CENTER_X SCALE directory) self = (self', Return tt) /\
    store_after C (xs ++ preloaded_rows CENTER_X SCALE directory) self' /\
    size self' = min (length xs + length (preloaded_rows CENTER_X SCALE directory)) C.
Proof.
  intros HC Hs Hafter Hall.
  assert (Hmain : exists self',
    preload_transitions CENTER_X SCALE add_transition directory self =
      (self', Returned tt) /\
    add_all (preloaded_rows CENTER_X SCALE directory) self = (self', Return tt) /\
    store_after C (xs ++ preloaded_rows CENTER_X SCALE directory) self').
  { revert xs self Hafter.
    induction Hall as [|[file np_data] rest Hentry _ IH]; intros xs self Hafter.
    - exists self. unfold preloaded_rows. cbn. rewrite app_nil_r.
      split; [done|]. split; [done|]. exact Hafter.
    - unfold preloaded_rows.
      cbn [preload_transitions flat_map fst snd] in *.
      fold (preloaded_rows CENTER_X SCALE rest).
      destruct (endswith file ".npz") eqn:Hnpz.
      + destruct (proj1 (recompute_each_spec CENTER_X SCALE
                    (String.eqb (player_one np_data) preload_username)
                    (transitions np_data) Hs) (Hentry eq_refl)) as (new & Hnew & _).
        unfold recompute_rewards. rewrite Hnew.
        change (fun t : recorded =>
                  (rec_obs t, rec_action t, rec_reward t, rec_next_obs t, rec_done t))
          with recorded_to_row.
        rewrite for_each_fmap.
        destruct (add_all_store_after C xs (recorded_to_row <$> new) self HC Hafter)
          as (s1 & Hrun1 & Hafter1).
        unfold add_all in Hrun1. rewrite Hrun1.
        destruct (IH _ s1 Hafter1) as (self' & Hrun & Hadd & Hafter').
        exists self'. split; [done|]. rewrite app_assoc. split; [|done].
        unfold add_all in *. rewrite for_each_app.
        unfold mbind, py_bind.
        match goal with
        | |- (let (_, _) := ?run in _) = _ =>
            change run with (for_each (recorded_to_row <$> new) add_transition self)
        end.
        by rewrite Hrun1.
      + destruct (IH xs self Hafter) as (self' & Hrun & Hadd & Hafter').
        exists self'. cbn [app]. split; [done|]. split; [done|]. exact Hafter'. }
  destruct Hmain as (self' & Hrun & Hadd & Hafter').
  exists self'. split; [done|]. split; [done|]. split; [done|].
  by rewrite (after_size _ _ _ Hafter'), length_app.
Qed.

Lemma preload_uniform_inserts_all_witness :
  exists self',
    preload_transitions 5 60 add_transition
      [("notes.txt", mkRecordedMatch [incomplete_example] "a");
       ("game.npz", mkRecordedMatch [complete_example] "a")]
      (ExperienceReplay_init 2) = (self', Returned tt) /\
    add_all (preloaded_rows 5 60
      [("notes.txt", mkRecordedMatch [incomplete_example] "a");
       ("game.npz", mkRecordedMatch [complete_example] "a")])
      (ExperienceReplay_init 2) = (self', Return tt) /\
    store_after 2 ([] ++ preloaded_rows 5 60
      [("notes.txt", mkRecordedMatch [incomplete_example] "a");
       ("game.npz", mkRecordedMatch [complete_example] "a")]) self' /\
    size self' = min (length (@nil buffer_row) + length (preloaded_rows 5 60
      [("notes.txt", mkRecordedMatch [incomplete_example] "a");
       ("game.npz", mkRecordedMatch [complete_example] "a")])) 2.
Proof.
  apply (preload_uniform_inserts_all 5 60 2 []).
  - lia.
  - lra.
  - apply store_after_init.
  - apply Forall_cons. split; [intros Hnpz; discriminate Hnpz|].
    apply Forall_cons. split; [|constructor].
    intros _. constructor; [apply complete_example_complete | constructor].
Defined.

(** A match whose rewards cannot be recomputed contributes no transition:
    [preload_transitions] raises what [recompute_rewards] raised, leaves the
    buffer as the files before that match left it, and does not read the
    files after it. *)
Theorem preload_stops_at_bad_match (CENTER_X SCALE : R) {S : Type}
    (self_add_transition : buffer_row -> py S unit)
    (before after : list (string * recorded_match)) (file : string)
    (np_data : recorded_match) (e : pyexc) (self : S) :
  endswith file ".npz" = true ->
  recompute_rewards CENTER_X SCALE np_data preload_username = Raised e ->
  preload_transitions CENTER_X SCALE self_add_transition
    (before ++ (file, np_data) :: after) self =
  match preload_transitions CENTER_X SCALE self_add_transition before self with
  | (self', Returned _) => (self', Raised e)
  | (self', Raised e') => (self', Raised e')
  end.
Proof.
  intros Hnpz Hbad. revert self.
  induction before as [|[file' data'] before IH]; intros self.
  - cbn [app preload_transitions]. by rewrite Hnpz, Hbad.
  - cbn [app preload_transitions].
    destruct (endswith file' ".npz"); [|apply IH].
    destruct (recompute_rewards _ _ data' preload_username) as [new|e']; [|done].
    destruct (for_each new _ self) as [s1 [[]|e']]; [apply IH | done].
Qed.

Lemma preload_stops_at_bad_match_witness :
  preload_transitions 5 60 add_transition
    ([] ++ ("game.npz", mkRecordedMatch [incomplete_example] "a") :: [])
    (ExperienceReplay_init 2) =
  match preload_transitions 5 60 add_transition [] (ExperienceReplay_init 2) with
  | (self', Returned _) => (self', Raised (Builtin IndexError))
  | (self', Raised e') => (self', Raised e')
  end.
Proof.
  apply (preload_stops_at_bad_match 5 60 add_transition [] [] "game.npz"
           (mkRecordedMatch [incomplete_example] "a") (Builtin IndexError));
    reflexivity.
Defined.

(** * More properties of the buffers *)

(** ** The store while it fills *)

(** While the buffer fills (at most [C] inserts into an empty buffer of
    capacity [C >= 1]), the transition inserted by insert number [i] is read
    back from slot [i], and [size] counts the inserts. *)
Theorem store_filling_order {T : Type} (C : nat) (xs : list T) :
  1 <= C -> length xs <= C ->
  exists self,
    add_all xs (ExperienceReplay_init C) = (self, Return tt) /\
    size self = length xs /\
    forall i x, xs !! i = Some x -> getitem_rows (_transitions self) [i] = Return [x].
Proof.
  intros HC Hlen.
  destruct (add_all_from_init C xs HC) as (self & Hrun & Hafter).
  exists self. split; [done|].
  split; [rewrite (after_size _ _ _ Hafter); lia|].
  intros i x Hx. destruct xs as [|x0 xs']; [done|].
  rewrite (after_filling _ _ _ Hafter x0 xs' eq_refl Hlen).
  assert (Hi : ((x0 :: xs') ++ replicate (C - length (x0 :: xs')) x0) !! i = Some x).
  { by apply lookup_app_l_Some. }
  cbn [app getitem_rows getitem_each] in *. by rewrite Hi.
Qed.

Lemma store_filling_order_witness :
  exists self,
    add_all [10; 11] (ExperienceReplay_init 3) = (self, Return tt) /\
    size self = length [10; 11] /\
    forall i x, [10; 11] !! i = Some x -> getitem_rows (_transitions self) [i] = Return [x].
Proof. apply (store_filling_order 3 [10; 11]); simpl; lia. Defined.

(** ** Uniform sampling returns live transitions *)

Section UniformMore.
Context {T : Type}.
Implicit Types (self : ExperienceReplay T).

(** The draw and the rows of a call of [sample]. *)
Lemma uniform_sample_draw (rng : nat -> nat) self (batch_size : nat) :
  1 <= size self -> size self <= length (_transitions self) ->
  exists rows,
    uniform_sample_indices rng self batch_size =
      Return (take (min batch_size (size self)) (permutation rng (size self))) /\
    uniform_sample rng self batch_size = Return rows /\
    Forall2 (fun i row => _transitions self !! i = Some row)
      (take (min batch_size (size self)) (permutation rng (size self))) rows.
Proof.
  intros Hsize Hlen.
  set (k := min batch_size (size self)).
  assert (Hidx : uniform_sample_indices rng self batch_size =
                 Return (take k (permutation rng (size self)))).
  { unfold uniform_sample_indices, np_random_choice.
    assert ((if decide (size self < batch_size) then size self else batch_size) = k)
      as -> by (subst k; destruct (decide _); lia).
    rewrite decide_False by lia. by rewrite decide_False by lia. }
  destruct (getitem_each_in_range (_transitions self)
              (take k (permutation rng (size self)))) as (rows & Hget & Hrows).
  { apply Forall_take. rewrite (permutation_Permutation rng (size self)).
    apply Forall_seq. intros; lia. }
  exists rows. split; [done|]. split; [|done].
  unfold uniform_sample. rewrite Hidx. cbn [obind]. unfold getitem_rows.
  destruct (_transitions self); [simpl in Hlen; lia | done].
Qed.

End UniformMore.

(** The slot an occupied index reads: after the inserts of [xs] into a
    buffer of capacity [C], slot [i] holds the last transition written to
    it, which is one of the last [C] inserts. *)
Lemma store_after_slot {T : Type} (C : nat) (xs : list T)
    (self : ExperienceReplay T) (i : nat) (row : T) :
  1 <= C -> xs <> [] -> store_after C xs self ->
  i < size self -> _transitions self !! i = Some row ->
  exists j, length xs - C <= j < length xs /\ j mod C = i /\ xs !! j = Some row.
Proof.
  intros HC Hne Hafter Hi Hrow.
  rewrite (after_size _ _ _ Hafter) in Hi.
  destruct (decide (length xs <= C)) as [Hfill|Hfull].
  - destruct xs as [|x0 xs']; [done|].
    rewrite (after_filling _ _ _ Hafter x0 xs' eq_refl Hfill) in Hrow.
    rewrite lookup_app_l in Hrow by lia.
    exists i. split; [lia|]. split; [apply Nat.mod_small; lia | done].
  - pose proof (store_after_length C xs self HC Hne Hafter) as Hlen.
    pose proof (after_full _ _ _ Hafter ltac:(lia)) as Hrot.
    pose proof (after_idx _ _ _ Hafter) as Hcur.
    set (cur := _current_idx self) in *. set (n := length xs) in *.
    assert (Hcurlt : cur < C) by (rewrite Hcur; apply Nat.mod_upper_bound; lia).
    pose proof (Nat.div_mod_eq n C) as Hdiv. rewrite <- Hcur in Hdiv.
    assert (Hq : 1 <= n / C) by (apply Nat.div_str_pos; lia).
    destruct (decide (cur <= i)) as [Hge|Hlt].
    + exists (n - C + (i - cur)).
      assert (Hk : (drop cur (_transitions self) ++ take cur (_transitions self))
                     !! (i - cur) = Some row).
      { rewrite lookup_app_l by (rewrite length_drop; lia).
        rewrite lookup_drop. by replace (cur + (i - cur)) with i by lia. }
      rewrite Hrot, lookup_drop in Hk.
      split; [lia|]. split; [|done].
      replace (n - C + (i - cur)) with (i + (n / C - 1) * C) by nia.
      rewrite Nat.Div0.mod_add. apply Nat.mod_small. lia.
    + exists (n - C + (C - cur + i)).
      assert (Hk : (drop cur (_transitions self) ++ take cur (_transitions self))
                     !! (C - cur + i) = Some row).
      { rewrite lookup_app_r by (rewrite length_drop; lia).
        rewrite length_drop, Hlen.
        replace (C - cur + i - (C - cur)) with i by lia.
        by rewrite lookup_take_lt by lia. }
      rewrite Hrot, lookup_drop in Hk.
      split; [lia|]. split; [|done].
      replace (n - C + (C - cur + i)) with (i + (n / C) * C) by nia.
      rewrite Nat.Div0.mod_add. apply Nat.mod_small. lia.
Qed.

(** [sample] on a uniform buffer of capacity [C >= 1] that has had the
    inserts [xs] reads occupied slots only: every index drawn is below
    [size = min(n, C)], never the index of a padding slot, and the row
    returned for index [i] is the transition of the last insert that wrote
    slot [i], one of the last [C] inserts. *)
Theorem uniform_sample_live_rows {T : Type} (rng : nat -> nat) (C : nat)
    (xs : list T) (self : ExperienceReplay T) (batch_size : nat) :
  1 <= C -> xs <> [] -> store_after C xs self ->
  exists indices rows,
    uniform_sample_indices rng self batch_size = Return indices /\
    uniform_sample rng self batch_size = Return rows /\
    Forall2 (fun i row =>
      i < min (length xs) C /\
      exists j, length xs - C <= j < length xs /\ j mod C = i /\ xs !! j = Some row)
      indices rows.
Proof.
  intros HC Hne Hafter.
  destruct (store_after_size_le C xs self HC Hne Hafter) as [Hsize Hlen].
  destruct (uniform_sample_draw rng self batch_size Hsize Hlen)
    as (rows & Hdraw & Hrun & Hrows).
  eexists _, rows. split; [exact Hdraw|]. split; [done|].
  assert (Hlt : Forall (fun i => i < size self)
                  (take (min batch_size (size self)) (permutation rng (size self)))).
  { apply Forall_take. rewrite (permutation_Permutation rng (size self)).
    apply Forall_seq. intros; lia. }
  clear Hrun Hdraw. revert Hlt.
  induction Hrows as [|i row indices rows Hrow _ IH]; intros Hlt; [constructor|].
  apply Forall_cons in Hlt as [Hi Hlt]. constructor; [|by apply IH].
  split; [by rewrite <- (after_size _ _ _ Hafter)|].
  by apply (store_after_slot C xs self).
Qed.

(** Capacity 2 after the inserts 10, 11, 12: slot 0 holds 12 (insert 2) and
    slot 1 holds 11 (insert 1). *)
Lemma uniform_sample_live_rows_witness :
  exists indices rows,
    uniform_sample_indices (fun i => i + 1)
      {| _transitions := [12; 11]; _current_idx := 1; size := 2; max_size := 2 |} 5
      = Return indices /\
    uniform_sample (fun i => i + 1)
      {| _transitions := [12; 11]; _current_idx := 1; size := 2; max_size := 2 |} 5
      = Return rows /\
    Forall2 (fun i row =>
      i < min (length [10; 11; 12]) 2 /\
      exists j, length [10; 11; 12] - 2 <= j < length [10; 11; 12] /\
                j mod 2 = i /\ [10; 11; 12] !! j = Some row)
      indices rows.
Proof.
  apply (uniform_sample_live_rows (fun i => i + 1) 2 [10; 11; 12]); [lia | done |].
  destruct (add_all_from_init 2 [10; 11; 12] ltac:(lia)) as (self & Hrun & Hafter).
  cbv in Hrun. by injection Hrun as <-.
Defined.

(** Asking a uniform buffer for at least [size] transitions returns every
    stored transition exactly once, in a shuffled order. *)
Theorem uniform_sample_whole_buffer {T : Type} (rng : nat -> nat)
    (self : ExperienceReplay T) (batch_size : nat) :
  1 <= size self -> size self <= length (_transitions self) ->
  size self <= batch_size ->
  exists rows,
    uniform_sample rng self batch_size = Return rows /\
    rows ≡ₚ take (size self) (_transitions self).
Proof.
  intros Hsize Hlen Hbatch.
  destruct (uniform_sample_draw rng self batch_size Hsize Hlen)
    as (rows & _ & Hrun & Hrows).
  exists rows. split; [done|].
  rewrite Nat.min_r in Hrows by done.
  rewrite take_ge in Hrows.
  2: { rewrite (Permutation_length (permutation_Permutation rng (size self))), length_seq.
       done. }
  destruct (_transitions self) as [|d ts] eqn:Hts; [simpl in Hlen; lia|].
  rewrite <- Hts in *. clear Hts.
  set (f := fun i => default d (_transitions self !! i)).
  assert (Hmap : rows = f <$> permutation rng (size self)).
  { clear -Hrows. induction Hrows as [|i row indices rows Hrow _ IH]; [done|].
    cbn [fmap list_fmap]. rewrite <- IH. f_equal. unfold f. by rewrite Hrow. }
  rewrite Hmap, (permutation_Permutation rng (size self)).
  assert (Heq : f <$> seq 0 (size self) = take (size self) (_transitions self)).
  { apply list_eq. intros i. rewrite list_lookup_fmap.
    destruct (decide (i < size self)) as [Hi|Hi].
    - rewrite lookup_seq_lt by done. rewrite lookup_take_lt by done. cbn.
      unfold f. destruct (lookup_lt_is_Some_2 (_transitions self) i) as [x ->]; [lia|done].
    - rewrite lookup_seq_ge by lia. rewrite lookup_ge_None_2; [done|].
      rewrite length_take. lia. }
  by rewrite Heq.
Qed.

Lemma uniform_sample_whole_buffer_witness :
  exists rows,
    uniform_sample (fun i => i + 1)
      {| _transitions := [10; 11; 12; 10]; _current_idx := 3; size := 3; max_size := 4 |} 7
      = Return rows /\
    rows ≡ₚ take 3 [10; 11; 12; 10].
Proof.
  apply (uniform_sample_whole_buffer (fun i => i + 1)
    {| _transitions := [10; 11; 12; 10]; _current_idx := 3; size := 3; max_size := 4 |} 7);
    simpl; lia.
Defined.

(** ** Cloning copies slots, not insertion order *)

(** [clone_buffer] of a source of capacity [C >= 1] that has had inserts,
    into a capacity [maxsize >= 1], re-inserts the [C] backing rows in slot
    order.  A larger clone starts with the source's rows; a smaller one keeps
    the last [maxsize] slots of the source; in both the write cursor is
    [C mod maxsize], so a clone of the same capacity has the source's rows
    and its cursor back at slot 0, wherever the source's cursor was. *)
Theorem clone_buffer_rows {T : Type} (C maxsize : nat) (xs : list T)
    (source : ExperienceReplay T) :
  1 <= C -> 1 <= maxsize -> xs <> [] -> store_after C xs source ->
  exists clone,
    clone_buffer source maxsize = Return clone /\
    max_size clone = maxsize /\
    _current_idx clone = C mod maxsize /\
    (C <= maxsize -> take C (_transitions clone) = _transitions source) /\
    (maxsize <= C ->
       drop (_current_idx clone) (_transitions clone) ++
       take (_current_idx clone) (_transitions clone) =
       drop (C - maxsize) (_transitions source)) /\
    (maxsize = C -> _transitions clone = _transitions source /\ _current_idx clone = 0).
Proof.
  intros HC Hm Hne Hafter.
  assert (Hlen : length (_transitions source) = C).
  { by apply (store_after_length C xs). }
  destruct (add_all_from_init maxsize (_transitions source) Hm)
    as (clone & Hclone & Hafter').
  assert (Hfill : C <= maxsize -> take C (_transitions clone) = _transitions source).
  { intros Hle. destruct (_transitions source) as [|t0 ts] eqn:Hts;
      [simpl in Hlen; lia|].
    rewrite (after_filling _ _ _ Hafter' t0 ts eq_refl) by lia.
    rewrite take_app_le by lia. apply take_ge. lia. }
  exists clone. split; [unfold clone_buffer; by rewrite Hclone|].
  split; [apply (after_max_size _ _ _ Hafter')|].
  split; [by rewrite (after_idx _ _ _ Hafter'), Hlen|].
  split; [done|].
  split.
  { intros Hle. rewrite (after_full _ _ _ Hafter') by lia. by rewrite Hlen. }
  intros ->. split.
  - rewrite <- Hfill by lia. symmetry. apply take_ge.
    rewrite (store_after_length C (_transitions source) clone); [lia|lia| |done].
    intros Hnil. rewrite Hnil in Hlen. simpl in Hlen. lia.
  - rewrite (after_idx _ _ _ Hafter'), Hlen. apply Nat.Div0.mod_same.
Qed.

Lemma clone_buffer_rows_witness :
  exists clone,
    clone_buffer
      {| _transitions := [12; 11]; _current_idx := 1; size := 2; max_size := 2 |} 2
      = Return clone /\
    max_size clone = 2 /\
    _current_idx clone = 2 mod 2 /\
    (2 <= 2 -> take 2 (_transitions clone) = [12; 11]) /\
    (2 <= 2 ->
       drop (_current_idx clone) (_transitions clone) ++
       take (_current_idx clone) (_transitions clone) = drop (2 - 2) [12; 11]) /\
    (2 = 2 -> _transitions clone = [12; 11] /\ _current_idx clone = 0).
Proof.
  apply (clone_buffer_rows 2 2 [10; 11; 12]
    {| _transitions := [12; 11]; _current_idx := 1; size := 2; max_size := 2 |});
    [lia | lia | done |].
  destruct (add_all_from_init 2 [10; 11; 12] ltac:(lia)) as (self & Hrun & Hafter).
  cbv in Hrun. by injection Hrun as <-.
Defined.

(** ** A buffer of capacity 0 *)

(** A buffer built with [max_size = 0] never accepts a transition: the
    first insert replaces the backing array by an empty one and raises
    IndexError at the row assignment, before [size] or the cursor change, so
    every later insert does the same. *)
Theorem add_transition_zero_capacity {T : Type} (x : T) (xs : list T)
    (self : ExperienceReplay T) :
  max_size self = 0 -> size self = 0 ->
  add_all (x :: xs) self = (set_transitions [] self, Raise IndexError) /\
  add_all (x :: xs) (set_transitions [] self) =
    (set_transitions [] self, Raise IndexError).
Proof.
  intros Hmax Hsize.
  assert (Hone : forall s : ExperienceReplay T, max_size s = 0 -> size s = 0 ->
    add_all (x :: xs) s = (set_transitions [] s, Raise IndexError)).
  { intros s Hm Hs. unfold add_all. cbn [for_each]. unfold add_transition.
    py_unfold. rewrite decide_True by done. unfold setitem_row.
    cbn [set_transitions _transitions _current_idx]. rewrite Hm. cbn [replicate length].
    by rewrite decide_False by lia. }
  split; [by apply Hone|].
  by rewrite Hone.
Qed.

Lemma add_transition_zero_capacity_witness :
  add_all [7; 8] (ExperienceReplay_init 0) =
    (set_transitions [] (ExperienceReplay_init 0), Raise IndexError) /\
  add_all [7; 8] (set_transitions [] (ExperienceReplay_init 0)) =
    (set_transitions [] (ExperienceReplay_init 0), Raise IndexError).
Proof. by apply (add_transition_zero_capacity 7 [8] (ExperienceReplay_init 0)). Defined.

(** ** The capacity of the segment trees *)

Lemma st_capacity_loop_least (fuel k m : nat) :
  m <= 2 ^ k * 2 ^ fuel -> (k = 0 \/ 2 ^ (k - 1) < m) ->
  exists h, st_capacity_loop fuel (2 ^ k) m = 2 ^ h /\ m <= 2 ^ h /\
            forall j, m <= 2 ^ j -> h <= j.
Proof.
  revert k. induction fuel as [|fuel IH]; intros k Hfuel Hprev.
  - exists k. cbn [st_capacity_loop]. split; [done|].
    rewrite Nat.pow_0_r, Nat.mul_1_r in Hfuel. split; [done|].
    intros j Hj. destruct Hprev as [->|Hprev]; [lia|].
    assert (2 ^ (k - 1) < 2 ^ j) as Hlt by lia.
    apply Nat.pow_lt_mono_r_iff in Hlt; lia.
  - cbn [st_capacity_loop]. destruct (decide (2 ^ k < m)) as [Hlt|Hge].
    + replace (2 ^ k * 2) with (2 ^ (S k)) by (rewrite Nat.pow_succ_r'; lia).
      apply IH.
      * rewrite Nat.pow_succ_r' in *. lia.
      * right. by replace (S k - 1) with k by lia.
    + exists k. split; [done|]. split; [lia|].
      intros j Hj. destruct Hprev as [->|Hprev]; [lia|].
      assert (2 ^ (k - 1) < 2 ^ j) as Hlt by lia.
      apply Nat.pow_lt_mono_r_iff in Hlt; lia.
Qed.

Lemma pow2_ge (n : nat) : n <= 2 ^ n.
Proof.
  induction n as [|n IH]; [simpl; lia|]. rewrite Nat.pow_succ_r'.
  assert (1 <= 2 ^ n) by (apply Nat.neq_0_lt_0, Nat.pow_nonzero; lia). lia.
Qed.

(** The doubling loop of [PrioritizedExperienceReplay.__init__] ends with
    the least power of two that is at least [max_size] (1 for
    [max_size = 0]): the loop runs out of doublings only after reaching
    it. *)
Theorem st_capacity_least_power_of_two (max_size : nat) :
  exists h, st_capacity_loop max_size 1 max_size = 2 ^ h /\
            max_size <= 2 ^ h /\
            forall j, max_size <= 2 ^ j -> h <= j.
Proof.
  change 1 with (2 ^ 0) at 1. apply st_capacity_loop_least; [|by left].
  rewrite Nat.pow_0_r, Nat.mul_1_l. apply pow2_ge.
Qed.

(** ** What the prioritized methods leave alone *)

Section PrioritizedFrame.
Context {T : Type}.
Implicit Types (self : PrioritizedExperienceReplay T).

Lemma setitem_sum_frame (idx : nat) (v : R) self :
  base (setitem_sum idx v self).1 = base self /\
  _alpha (setitem_sum idx v self).1 = _alpha self /\
  _beta (setitem_sum idx v self).1 = _beta self /\
  _max_priority (setitem_sum idx v self).1 = _max_priority self.
Proof. unfold setitem_sum. by destruct (sum_set _ _ _). Qed.

Lemma setitem_min_frame (idx : nat) (v : R) self :
  base (setitem_min idx v self).1 = base self /\
  _alpha (setitem_min idx v self).1 = _alpha self /\
  _beta (setitem_min idx v self).1 = _beta self /\
  _max_priority (setitem_min idx v self).1 = _max_priority self.
Proof. unfold setitem_min. by destruct (min_set _ _ _). Qed.

Lemma update_priority_frame (pair : Z * R) self :
  base (update_priority pair self).1 = base self /\
  _alpha (update_priority pair self).1 = _alpha self /\
  _beta (update_priority pair self).1 = _beta self.
Proof.
  destruct pair as [idx priority]. unfold update_priority. py_unfold.
  destruct (Rlt_dec 0 priority); [|done].
  destruct (decide _); [|done].
  destruct (fpow priority (_alpha self)) as [p|e]; [|done].
  destruct (setitem_sum_frame (Z.to_nat idx) p self) as (Hb & Ha & Hbeta & _).
  destruct (setitem_sum (Z.to_nat idx) p self) as [s1 [[]|e1]]; [|done].
  cbn [fst] in *.
  destruct (setitem_min_frame (Z.to_nat idx) p s1) as (Hb' & Ha' & Hbeta' & _).
  destruct (setitem_min (Z.to_nat idx) p s1) as [s2 [[]|e2]]; cbn [fst] in *.
  - cbn. by rewrite Hb', Ha', Hbeta'.
  - by rewrite Hb', Ha', Hbeta'.
Qed.

End PrioritizedFrame.

(** A loop whose body leaves a part of the state alone leaves it alone. *)
Lemma for_each_frame {S A B : Type} (part : S -> B) (body : A -> py S unit)
    (xs : list A) (s : S) :
  (forall a s', part (body a s').1 = part s') ->
  part (for_each xs body s).1 = part s.
Proof.
  intros Hbody. revert s. induction xs as [|x xs IH]; intros s; [done|].
  cbn [for_each]. unfold mbind, py_bind.
  pose proof (Hbody x s) as Hx.
  destruct (body x s) as [s1 [[]|e]]; cbn [fst] in *; [|done].
  by rewrite IH.
Qed.

(** [update_priorities] touches the priorities only: whatever the state,
    the arguments and the outcome (returned or raised part-way), the stored
    transitions, the cursor, [size], [alpha] and [beta] are those it
    started with. *)
Theorem update_priorities_keeps_store {T : Type} (indices : list Z)
    (priorities : list R) (self : PrioritizedExperienceReplay T) :
  base (update_priorities indices priorities self).1 = base self /\
  _alpha (update_priorities indices priorities self).1 = _alpha self /\
  _beta (update_priorities indices priorities self).1 = _beta self.
Proof.
  unfold update_priorities.
  split; [|split]; apply for_each_frame; intros pair s;
    apply (update_priority_frame pair s).
Qed.

(** The prioritized [add_transition] stores the transition exactly as the
    base class does, and keeps [alpha], [beta] and the maximal priority,
    whether or not the writes to the trees that follow succeed. *)
Theorem prioritized_add_stores_as_base {T : Type} (x : T)
    (self : PrioritizedExperienceReplay T) :
  base (prioritized_add_transition x self).1 = (add_transition x (base self)).1 /\
  _alpha (prioritized_add_transition x self).1 = _alpha self /\
  _beta (prioritized_add_transition x self).1 = _beta self /\
  _max_priority (prioritized_add_transition x self).1 = _max_priority self.
Proof.
  unfold prioritized_add_transition, super. py_unfold.
  destruct (add_transition x (base self)) as [b [[]|e]]; cbn [fst]; [|done].
  cbn [set_base _max_priority _alpha].
  destruct (fpow (_max_priority self) (_alpha self)) as [p|e]; [|done].
  destruct (setitem_min_frame (_current_idx (base self)) p (set_base b self))
    as (Hb & Ha & Hbeta & Hmax).
  destruct (setitem_min (_current_idx (base self)) p (set_base b self))
    as [s1 [[]|e1]]; cbn [fst] in *; [|done].
  destruct (setitem_sum_frame (_current_idx (base self)) p s1)
    as (Hb' & Ha' & Hbeta' & Hmax').
  by rewrite Hb', Ha', Hbeta', Hmax'.
Qed.

(** * Properties of the utilities of the SAC agent *)

(** ** The phase of the puck *)



(** The failures of [calculate_phase], in the order the code meets them:
    a call with an observation of fewer than 15 entries, a player other
    than 1 and 2, or a negative [CENTER_X] raises.  The error is IndexError
    for the short observation whatever the player is; otherwise ValueError
    for the unknown player; otherwise the assertion fails, since the
    clamping leaves the position at [CENTER_X < -CENTER_X]. *)
Theorem calculate_phase_failures (np_pi : R) (float32 : R -> R) (CENTER_X : R)
    (obs : list R) (player : Z) :
  length obs < 15 \/ ~ (player = 1 \/ player = 2)%Z \/ (CENTER_X < 0)%R ->
  exists e,
    calculate_phase np_pi float32 CENTER_X obs player = Raise e /\
    e = if decide (length obs < 15) then IndexError
        else if decide (player = 1 \/ player = 2)%Z then AssertionError
        else ValueError.
Proof.
  intros Hbad. destruct (decide (length obs < 15)) as [Hlen|Hlen].
  { exists IndexError. split; [|done]. unfold calculate_phase, getitem.
    by rewrite (lookup_ge_None_2 obs 14) by lia. }
  destruct (lookup_lt_is_Some_2 obs 14) as [v Hv]; [lia|].
  destruct (lookup_lt_is_Some_2 obs 12) as [x Hx]; [lia|].
  unfold calculate_phase, getitem. rewrite Hv, Hx. cbn [mbind outcome_bind obind].
  destruct (decide (player = 1 \/ player = 2)%Z) as [Hplayer|Hplayer];
    [|by exists ValueError].
  assert (HC : (CENTER_X < 0)%R) by tauto.
  exists AssertionError. split; [|done].
  destruct (Rlt_dec x (- CENTER_X)).
  - destruct (Rlt_dec CENTER_X (- CENTER_X)); [|lra].
    destruct (Rle_dec (- CENTER_X) CENTER_X); [lra|done].
  - destruct (Rlt_dec CENTER_X x); [|lra].
    destruct (Rle_dec (- CENTER_X) CENTER_X); [lra|done].
Qed.

Lemma calculate_phase_failures_witness :
  exists e,
    calculate_phase PI (fun r => r) 4 (replicate 15 0%R) 3 = Raise e /\
    e = if decide (length (replicate 15 0%R) < 15) then IndexError
        else if decide (3 = 1 \/ 3 = 2)%Z then AssertionError
        else ValueError.
Proof.
  apply (calculate_phase_failures PI (fun r => r) 4 (replicate 15 0%R) 3).
  right. left. lia.
Defined.

(** ** The spline weights *)

Section SplineFacts.
Context (floor_quarter : R -> Z).
Local Abbreviation kn_at := (kn_at floor_quarter).
Local Abbreviation kn := (kn floor_quarter).

Lemma kn_at_range (p : R) (n : Z) : (0 <= kn_at p n < 4)%Z.
Proof. unfold kn_at. lia. Qed.

Lemma entry_setitem_at (k : Z) (j N : nat) (v : R) (l : list (list R)) :
  shape N l -> (0 <= k < 4)%Z -> j < N ->
  exists l',
    setitem_at k j v l = Return l' /\ shape N l' /\
    forall k' j', entry l' k' j' =
      if decide (k' = Z.to_nat k /\ j' = j) then Some v else entry l k' j'.
Proof.
  intros [Hlen Hrows] Hk Hj.
  destruct (lookup_lt_is_Some_2 l (Z.to_nat k)) as [row Hrow]; [lia|].
  assert (Hrowlen : length row = N).
  { by apply (proj1 (Forall_lookup _ l) Hrows (Z.to_nat k)). }
  unfold setitem_at, getitem. rewrite Hrow. cbn [mbind outcome_bind obind].
  rewrite decide_True by lia.
  eexists. split; [done|]. split.
  { split; [by rewrite length_insert|].
    apply Forall_insert; [done|]. by rewrite length_insert. }
  intros k' j'. unfold entry. rewrite list_lookup_insert.
  destruct (decide (Z.to_nat k = k' /\ Z.to_nat k < length l)) as [[<- _]|Hne].
  - cbn [mbind option_bind]. rewrite list_lookup_insert. rewrite Hrow.
    cbn [mbind option_bind].
    destruct (decide (j = j' /\ j < length row)) as [[<- _]|Hne].
    + by rewrite decide_True by done.
    + rewrite decide_False; [done|]. intros [_ ->]. apply Hne. split; [done|lia].
  - rewrite decide_False; [done|]. intros [-> _]. apply Hne. split; [done|lia].
Qed.

Lemma scatter_spec (ind : list Z) (weight : list R) (N : nat) (js : list nat)
    (l : list (list R)) :
  shape N l -> Forall (fun j => j < N) js ->
  N <= length ind -> N <= length weight ->
  Forall (fun k => 0 <= k < 4)%Z ind ->
  exists l',
    scatter ind weight js l = Return l' /\ shape N l' /\
    (forall j kj v, j ∈ js -> ind !! j = Some kj -> weight !! j = Some v ->
       entry l' (Z.to_nat kj) j = Some v) /\
    (forall k j, j ∉ js -> entry l' k j = entry l k j) /\
    (forall k j kj, ind !! j = Some kj -> Z.to_nat kj <> k ->
       entry l' k j = entry l k j).
Proof.
  intros Hshape Hjs Hind Hweight Hrange. revert l Hshape.
  induction Hjs as [|j0 js Hj0 _ IH]; intros l Hshape.
  { exists l. split; [done|]. split; [done|]. split; [|done].
    intros j kj v Hin. by apply elem_of_nil in Hin. }
  destruct (lookup_lt_is_Some_2 weight j0) as [v0 Hv0]; [lia|].
  destruct (lookup_lt_is_Some_2 ind j0) as [k0 Hk0]; [lia|].
  assert (Hk0r : (0 <= k0 < 4)%Z).
  { by apply (proj1 (Forall_lookup _ ind) Hrange j0). }
  destruct (entry_setitem_at k0 j0 N v0 l Hshape Hk0r Hj0) as (l1 & Hset & Hshape1 & Hentry1).
  destruct (IH l1 Hshape1) as (l' & Hrun & Hshape' & Hhit & Hout & Hother).
  exists l'. cbn [scatter]. unfold getitem. rewrite Hv0, Hk0.
  cbn [mbind outcome_bind obind]. rewrite Hset. cbn [obind].
  split; [done|]. split; [done|]. split; [|split].
  - intros j kj v Hin Hkj Hv.
    destruct (decide (j ∈ js)) as [Hjs'|Hjs']; [by apply Hhit|].
    apply elem_of_cons in Hin as [->|Hin]; [|done].
    rewrite Hout by done. rewrite Hentry1.
    assert (kj = k0) as -> by congruence. assert (v = v0) as -> by congruence.
    by rewrite decide_True by done.
  - intros k j Hnot. apply not_elem_of_cons in Hnot as [Hne Hnot].
    rewrite Hout by done. rewrite Hentry1.
    rewrite decide_False; [done|]. intros [_ ->]. done.
  - intros k j kj Hkj Hne. rewrite (Hother k j kj) by done. rewrite Hentry1.
    rewrite decide_False; [done|]. intros [-> ->]. congruence.
Qed.

Lemma entry_zeros (N k j : nat) :
  k < 4 -> j < N -> entry (replicate 4 (replicate N 0%R)) k j = Some 0%R.
Proof.
  intros Hk Hj. unfold entry. rewrite lookup_replicate_2 by done.
  cbn [mbind option_bind]. by rewrite lookup_replicate_2.
Qed.

(** One pass of the second loop of [compute_multipliers]. *)
Lemma compute_multipliers_pass (w p : list R) (n : nat) (l : list (list R)) :
  shape (length p) l -> length p <= length w ->
  exists l',
    scatter (kn p (Z.of_nat n)) (map (spline_weight n) w)
      (seq 0 (length (kn p (Z.of_nat n)))) l = Return l' /\
    shape (length p) l' /\
    forall j pj wj, p !! j = Some pj -> w !! j = Some wj ->
      entry l' (Z.to_nat (kn_at pj (Z.of_nat n))) j = Some (spline_weight n wj) /\
      forall k, k <> Z.to_nat (kn_at pj (Z.of_nat n)) -> entry l' k j = entry l k j.
Proof.
  intros Hshape Hlen.
  assert (Hknlen : length (kn p (Z.of_nat n)) = length p).
  { unfold kn. by rewrite length_map. }
  destruct (scatter_spec (kn p (Z.of_nat n)) (map (spline_weight n) w) (length p)
              (seq 0 (length p)) l Hshape) as (l' & Hrun & Hshape' & Hhit & _ & Hother).
  { apply Forall_seq. intros; lia. }
  { lia. }
  { by rewrite length_map. }
  { unfold kn. apply Forall_map, Forall_forall. intros x _. apply kn_at_range. }
  exists l'. rewrite Hknlen. split; [done|]. split; [done|].
  intros j pj wj Hpj Hwj.
  assert (Hind : kn p (Z.of_nat n) !! j = Some (kn_at pj (Z.of_nat n))).
  { unfold kn. by rewrite list_lookup_fmap, Hpj. }
  split.
  - apply Hhit; [|done|].
    + apply elem_of_seq. apply lookup_lt_Some in Hpj. lia.
    + by rewrite list_lookup_fmap, Hwj.
  - intros k Hk. apply (Hother k j _ Hind). done.
Qed.

(** For tensors [w] and [p] with [w] at least as long as [p], whose
    floors are small enough for the [+ n - 1] of [kn] to be exact,
    [compute_multipliers] returns four tensors of the length of [p] such
    that, at every position [j], the tensor with index [kn(p, n)[j]] holds
    the weight of branch [n] at [w[j]], for each of the four [n].  The four
    indices are distinct and cover the four tensors: no write is
    overwritten and no zero is left. *)
Theorem compute_multipliers_placement (w p : list R) :
  length p <= length w ->
  Forall (fun x => (Z.abs (floor_quarter x) < 2 ^ 23)%Z) p ->
  exists w0 w1 w2 w3,
    compute_multipliers floor_quarter w p = Return (w0, w1, w2, w3) /\
    length w0 = length p /\ length w1 = length p /\
    length w2 = length p /\ length w3 = length p /\
    forall j pj wj, p !! j = Some pj -> w !! j = Some wj ->
      (forall n, n < 4 ->
         entry [w0; w1; w2; w3] (Z.to_nat (kn_at pj (Z.of_nat n))) j =
           Some (spline_weight n wj)) /\
      NoDup [kn_at pj 0; kn_at pj 1; kn_at pj 2; kn_at pj 3] /\
      (forall k, k < 4 -> exists n, n < 4 /\ Z.to_nat (kn_at pj (Z.of_nat n)) = k).
Proof.
  intros Hlen _.
  assert (Hshape0 : shape (length p) (replicate 4 (replicate (length p) 0%R))).
  { split; [done|]. repeat constructor; by rewrite length_replicate. }
  destruct (compute_multipliers_pass w p 0 _ Hshape0 Hlen) as (l1 & Hrun1 & Hshape1 & H1).
  destruct (compute_multipliers_pass w p 1 _ Hshape1 Hlen) as (l2 & Hrun2 & Hshape2 & H2).
  destruct (compute_multipliers_pass w p 2 _ Hshape2 Hlen) as (l3 & Hrun3 & Hshape3 & H3).
  destruct (compute_multipliers_pass w p 3 _ Hshape3 Hlen) as (l4 & Hrun4 & Hshape4 & H4).
  destruct Hshape4 as [Hlen4 Hrows4].
  destruct l4 as [|w0 [|w1 [|w2 [|w3 [|? ?]]]]]; try (simpl in Hlen4; lia).
  apply Forall_cons in Hrows4 as [Hw0 Hrows4].
  apply Forall_cons in Hrows4 as [Hw1 Hrows4].
  apply Forall_cons in Hrows4 as [Hw2 Hrows4].
  apply Forall_cons in Hrows4 as [Hw3 _].
  exists w0, w1, w2, w3.
  split.
  { unfold compute_multipliers. cbn [seq compute_multipliers_loop].
    unfold mbind, outcome_bind.
    rewrite Hrun1. cbn [obind]. rewrite Hrun2. cbn [obind].
    rewrite Hrun3. cbn [obind]. rewrite Hrun4. done. }
  do 4 (split; [done|]).
  intros j pj wj Hpj Hwj.
  destruct (H1 j pj wj Hpj Hwj) as [Hhit1 Hkeep1].
  destruct (H2 j pj wj Hpj Hwj) as [Hhit2 Hkeep2].
  destruct (H3 j pj wj Hpj Hwj) as [Hhit3 Hkeep3].
  destruct (H4 j pj wj Hpj Hwj) as [Hhit4 Hkeep4].
  set (q := floor_quarter pj) in *.
  assert (Hk : forall n, kn_at pj n = ((q + n - 1) mod 4)%Z) by done.
  split; [|split].
  - intros n Hn.
    destruct n as [|[|[|[|n]]]]; [| | | |lia].
    + rewrite Hkeep4 by (rewrite !Hk; lia). rewrite Hkeep3 by (rewrite !Hk; lia).
      rewrite Hkeep2 by (rewrite !Hk; lia). done.
    + rewrite Hkeep4 by (rewrite !Hk; lia). rewrite Hkeep3 by (rewrite !Hk; lia).
      done.
    + rewrite Hkeep4 by (rewrite !Hk; lia). done.
    + done.
  - rewrite !Hk. repeat constructor; rewrite ?elem_of_cons, ?elem_of_nil; lia.
  - intros k Hk4.
    assert (Hcase : (q mod 4 = 0 \/ q mod 4 = 1 \/ q mod 4 = 2 \/ q mod 4 = 3)%Z) by lia.
    destruct k as [|[|[|[|k]]]]; [| | | |lia];
      destruct Hcase as [Hq|[Hq|[Hq|Hq]]];
      first [ exists 0; split; [lia|]; rewrite Hk; lia
            | exists 1; split; [lia|]; rewrite Hk; lia
            | exists 2; split; [lia|]; rewrite Hk; lia
            | exists 3; split; [lia|]; rewrite Hk; lia ].
Qed.

End SplineFacts.

(** One phase in the third quarter, and a longer tensor of offsets. *)
Lemma compute_multipliers_placement_witness :
  exists w0 w1 w2 w3,
    compute_multipliers (fun _ => 2%Z) [0.5%R; 0%R] [4%R] = Return (w0, w1, w2, w3) /\
    length w0 = length [4%R] /\ length w1 = length [4%R] /\
    length w2 = length [4%R] /\ length w3 = length [4%R] /\
    forall j pj wj, [4%R] !! j = Some pj -> [0.5%R; 0%R] !! j = Some wj ->
      (forall n, n < 4 ->
         entry [w0; w1; w2; w3] (Z.to_nat (kn_at (fun _ => 2%Z) pj (Z.of_nat n))) j =
           Some (spline_weight n wj)) /\
      NoDup [kn_at (fun _ => 2%Z) pj 0; kn_at (fun _ => 2%Z) pj 1;
             kn_at (fun _ => 2%Z) pj 2; kn_at (fun _ => 2%Z) pj 3] /\
      (forall k, k < 4 ->
         exists n, n < 4 /\ Z.to_nat (kn_at (fun _ => 2%Z) pj (Z.of_nat n)) = k).
Proof.
  apply (compute_multipliers_placement (fun _ => 2%Z) [0.5%R; 0%R] [4%R]).
  - simpl. lia.
  - constructor; [simpl; lia | constructor].
Defined.

(** ** The running mean *)

Lemma np_cumsum_from_length (acc : R) (x : list R) :
  length (np_cumsum_from acc x) = length x.
Proof. revert acc. induction x as [|a x IH]; intros acc; [done|]. cbn. by rewrite IH. Qed.

(** For a window [N >= 1], [running_mean(x, N)] returns
    [len(x) + 1 - N] values (none when [x] is shorter than the window):
    the two slices of the prefix sums have the same length, so the
    subtraction never fails to broadcast, and value [i] is the difference
    of the prefix sums [cumsum[i + N]] and [cumsum[i]], divided by [N]. *)
Theorem running_mean_windows (x : list R) (N : nat) :
  1 <= N ->
  exists means,
    running_mean x N = Return means /\
    length means = length x + 1 - N /\
    length (np_cumsum (0%R :: x)) = length x + 1 /\
    forall i, i + N <= length x ->
      exists upto_i upto_iN,
        np_cumsum (0%R :: x) !! i = Some upto_i /\
        np_cumsum (0%R :: x) !! (i + N) = Some upto_iN /\
        means !! i = Some ((upto_iN - upto_i) / INR N)%R.
Proof.
  intros HN. unfold running_mean.
  set (cumsum := np_cumsum (0%R :: x)).
  assert (Hlen : length cumsum = S (length x)).
  { unfold cumsum, np_cumsum. cbn. by rewrite np_cumsum_from_length. }
  rewrite decide_False by lia.
  unfold np_subtract. rewrite decide_True.
  2: { rewrite length_drop, length_take. lia. }
  cbn [mbind outcome_bind obind mret outcome_ret].
  eexists. split; [done|]. split.
  { rewrite length_map, length_zip_with, length_drop, length_take. lia. }
  split; [lia|].
  intros i Hi.
  destruct (lookup_lt_is_Some_2 cumsum i) as [a Ha]; [lia|].
  destruct (lookup_lt_is_Some_2 cumsum (i + N)) as [b Hb]; [lia|].
  exists a, b. split; [done|]. split; [done|].
  rewrite list_lookup_fmap, lookup_zip_with.
  rewrite lookup_drop, lookup_take_lt by lia.
  rewrite (Nat.add_comm N i), Hb, Ha. done.
Qed.

Lemma running_mean_windows_witness :
  exists means,
    running_mean [1%R; 2%R; 6%R] 2 = Return means /\
    length means = length [1%R; 2%R; 6%R] + 1 - 2 /\
    length (np_cumsum [0%R; 1%R; 2%R; 6%R]) = length [1%R; 2%R; 6%R] + 1 /\
    forall i, i + 2 <= length [1%R; 2%R; 6%R] ->
      exists upto_i upto_iN,
        np_cumsum [0%R; 1%R; 2%R; 6%R] !! i = Some upto_i /\
        np_cumsum [0%R; 1%R; 2%R; 6%R] !! (i + 2) = Some upto_iN /\
        means !! i = Some ((upto_iN - upto_i) / INR 2)%R.
Proof. apply (running_mean_windows [1%R; 2%R; 6%R] 2). lia. Defined.

(** A window of 0: on an empty array the result is empty, and on any other
    array the subtraction of the empty slice [cumsum[:-0]] raises
    ValueError before the division by zero is reached. *)
Theorem running_mean_zero_window (a : R) (x : list R) :
  running_mean [] 0 = Return [] /\
  running_mean (a :: x) 0 = Raise ValueError.
Proof.
  split; [done|].
  unfold running_mean. rewrite decide_True by done.
  unfold np_cumsum. cbn [np_cumsum_from drop]. unfold np_subtract.
  by rewrite decide_False by (simpl; lia).
Qed.

(** ** Preloading into a prioritized buffer *)

Lemma prioritized_add_all {T : Type} (rows : list T)
    (self : PrioritizedExperienceReplay T) :
  reachable self ->
  exists self',
    for_each rows prioritized_add_transition self = (self', Return tt) /\
    reachable self' /\
    add_all rows (base self) = (base self', Return tt) /\
    _max_priority self' = _max_priority self.
Proof.
  revert self. induction rows as [|x rows IH]; intros self Hreach.
  { by exists self. }
  destruct (prioritized_add_spec x self (reachable_inv _ Hreach))
    as (b' & ts' & tm' & Hadd & _ & _ & Heq & _).
  pose proof (reach_add _ _ _ _ Hreach Heq) as Hreach1.
  destruct (IH _ Hreach1) as (self' & Hrun & Hreach' & Hbase & Hmax).
  exists self'. unfold add_all in *. cbn [for_each base _max_priority] in *.
  unfold mbind, py_bind. rewrite Heq, Hadd. by rewrite Hrun, Hbase.
Qed.

(** [preload_transitions] calls the [add_transition] of the object it is
    invoked on.  On a prioritized buffer of capacity at least 1, when the
    rewards of every [.npz] match can be recomputed, the call returns; the
    transitions are stored as the base class stores them, each insert goes
    through the prioritized [add_transition] and the maximal priority is
    unchanged. *)
Theorem preload_prioritized_inserts_all (CENTER_X SCALE : R)
    (directory : list (string * recorded_match))
    (self : PrioritizedExperienceReplay buffer_row) :
  (0 < SCALE)%R -> reachable self ->
  Forall (fun entry => endswith entry.1 ".npz" = true ->
                       Forall complete_recorded (transitions entry.2)) directory ->
  exists self',
    preload_transitions CENTER_X SCALE prioritized_add_transition directory self =
      (self', Returned tt) /\
    for_each (preloaded_rows CENTER_X SCALE directory) prioritized_add_transition self =
      (self', Return tt) /\
    add_all (preloaded_rows CENTER_X SCALE directory) (base self) =
      (base self', Return tt) /\
    _max_priority self' = _max_priority self.
Proof.
  intros Hs Hreach Hall.
  assert (Hmain : exists self',
    preload_transitions CENTER_X SCALE prioritized_add_transition directory self =
      (self', Returned tt) /\
    for_each (preloaded_rows CENTER_X SCALE directory) prioritized_add_transition self =
      (self', Return tt) /\
    reachable self').
  { revert self Hreach.
    induction Hall as [|[file np_data] rest Hentry _ IH]; intros self Hreach.
    - by exists self.
    - unfold preloaded_rows.
      cbn [preload_transitions flat_map fst snd] in *.
      fold (preloaded_rows CENTER_X SCALE rest).
      destruct (endswith file ".npz") eqn:Hnpz.
      + destruct (proj1 (recompute_each_spec CENTER_X SCALE
                    (String.eqb (player_one np_data) preload_username)
                    (transitions np_data) Hs) (Hentry eq_refl)) as (new & Hnew & _).
        unfold recompute_rewards. rewrite Hnew.
        change (fun t : recorded =>
                  (rec_obs t, rec_action t, rec_reward t, rec_next_obs t, rec_done t))
          with recorded_to_row.
        rewrite for_each_fmap.
        destruct (prioritized_add_all (recorded_to_row <$> new) self Hreach)
          as (s1 & Hrun1 & Hreach1 & _).
        rewrite Hrun1.
        destruct (IH s1 Hreach1) as (self' & Hrun & Hadd & Hreach').
        exists self'. split; [done|]. split; [|done].
        rewrite for_each_app. unfold mbind, py_bind.
        match goal with
        | |- (let (_, _) := ?run in _) = _ =>
            change run with
              (for_each (recorded_to_row <$> new) prioritized_add_transition self)
        end.
        by rewrite Hrun1.
      + destruct (IH self Hreach) as (self' & Hrun & Hadd & Hreach').
        exists self'. cbn [app]. by split. }
  destruct Hmain as (self' & Hrun & Hadd & _).
  exists self'. split; [done|]. split; [done|].
  destruct (prioritized_add_all (preloaded_rows CENTER_X SCALE directory) self Hreach)
    as (s & Hs' & _ & Hbase & Hmax).
  rewrite Hadd in Hs'. injection Hs' as <-. by split.
Qed.

Lemma fresh_row_buffer_reachable : reachable fresh_row_buffer.
Proof. by apply (reach_init 2 1%R 1%R); [lia|]. Qed.

Lemma preload_prioritized_inserts_all_witness :
  exists self',
    preload_transitions 5 60 prioritized_add_transition
      [("notes.txt", mkRecordedMatch [incomplete_example] "a");
       ("game.npz", mkRecordedMatch [complete_example] "a")]
      fresh_row_buffer = (self', Returned tt) /\
    for_each (preloaded_rows 5 60
      [("notes.txt", mkRecordedMatch [incomplete_example] "a");
       ("game.npz", mkRecordedMatch [complete_example] "a")])
      prioritized_add_transition fresh_row_buffer = (self', Return tt) /\
    add_all (preloaded_rows 5 60
      [("notes.txt", mkRecordedMatch [incomplete_example] "a");
       ("game.npz", mkRecordedMatch [complete_example] "a")])
      (base fresh_row_buffer) = (base self', Return tt) /\
    _max_priority self' = _max_priority fresh_row_buffer.
Proof.
  apply (preload_prioritized_inserts_all 5 60).
  - lra.
  - apply fresh_row_buffer_reachable.
  - apply Forall_cons. split; [intros Hnpz; discriminate Hnpz|].
    apply Forall_cons. split; [|constructor].
    intros _. constructor; [apply complete_example_complete | constructor].
Defined.
